(** * Z2Pack: the adaptive WCC convergence engine of [z2pack/__init__.py]

    A shallow embedding of [Z2PackPlane] (the surface engine [wcc_calc], the
    line solver [_getwcc], the convergence metric [_convsum], the gap finder
    [_gapfind] and the Z2 [invariant]) together with the properties stated
    about them.

    Numbers.  Python floats are embedded as exact rationals ([Q]): every
    finite float is a rational, and the arithmetic on them is taken without
    rounding.  The transcendental parts ([np.sin], [np.log]) are embedded
    in the real numbers of the Standard Library.  Python integers are [Z].
    What this leaves out, the rounding of every operation, is made explicit
    in the module [F64]: it has the remainder, the gap finder, the
    neighbour check and the surface engine once more on binary64 numbers.
    A property that holds in exact arithmetic only says so, and [F64]
    shows where the doubles differ.

    Effects.  Exceptions are an explicit [result] type; the attributes of
    [self] are a record that is threaded through the methods; [while] loops
    that the code does not obviously bound run on fuel. *)

From Stdlib Require Import String.
From Stdlib Require Import ZArith QArith Qabs Qround Lia Lqa Bool List.
From Stdlib Require Import Permutation Sorted.
From Stdlib Require Import Reals Lra Psatz.
From Equations Require Import Equations.
From Corelib Require Import PrimFloat.
Import ListNotations.
Local Open Scope Q_scope.

(** ** Python values, exceptions and list operations *)

Module Py.

(** The exception classes that the embedded code can raise. *)
Inductive exn : Type :=
| NameError (name : string)
| AttributeError
| ValueError (msg : string)
| RuntimeError (msg : string)
| IndexError
| TypeError
| ZeroDivisionError
| AssertionError.

Inductive result (A : Type) : Type :=
| Ok (a : A)
| Raise (e : exn).
Arguments Ok {A} a.
Arguments Raise {A} e.

Definition bind {A B} (m : result A) (k : A -> result B) : result B :=
  match m with
  | Ok a => k a
  | Raise e => Raise e
  end.

Definition is_ok {A} (m : result A) : bool :=
  match m with Ok _ => true | Raise _ => false end.

(** [a < b] on floats. *)
Definition Qltb (a b : Q) : bool := negb (Qle_bool b a).

(** [min(a, b)]: the first argument unless the second is smaller. *)
Definition min2 (a b : Q) : Q := if Qltb b a then b else a.

(** [x % 1] on a float: Python's remainder takes the sign of the divisor,
    so the value is [x - floor x].  In exact arithmetic it is always below
    1; on doubles the remainder of a tiny negative number rounds to 1.0
    ([F64.mod1]). *)
Definition Qmod1 (x : Q) : Q := x - inject_Z (Qfloor x).

(** [int(x)] on a float truncates towards zero. *)
Definition int (x : Q) : Z := Z.quot (Qnum x) (Zpos (Qden x)).

(** [range(a, b)]. *)
Definition range (a b : Z) : list Z :=
  map (fun k => (a + Z.of_nat k)%Z) (seq 0 (Z.to_nat (b - a))).

(** [l[i]], negative indices counting from the end. *)
Definition getitem {A} (l : list A) (i : Z) : result A :=
  let n := Z.of_nat (length l) in
  let j := if (i <? 0)%Z then (i + n)%Z else i in
  if ((j <? 0) || (n <=? j))%Z then Raise IndexError
  else match nth_error l (Z.to_nat j) with
       | Some a => Ok a
       | None => Raise IndexError
       end.

(** [l[i] = v] with [0 <= i]; out of range raises [IndexError]. *)
Fixpoint setitem {A} (l : list A) (i : nat) (v : A) : result (list A) :=
  match l, i with
  | [], _ => Raise IndexError
  | _ :: t, O => Ok (v :: t)
  | a :: t, S i' =>
      match setitem t i' v with
      | Ok t' => Ok (a :: t')
      | Raise e => Raise e
      end
  end.

(** [l.insert(i, v)] with [0 <= i]: beyond the end it appends. *)
Definition insert {A} (l : list A) (i : nat) (v : A) : list A :=
  firstn i l ++ v :: skipn i l.

(** A [for] loop whose body may raise: the state is threaded left to right
    and the first exception ends the loop. *)
Fixpoint for_each {A S} (l : list A) (body : A -> S -> result S) (s : S)
  : result S :=
  match l with
  | [] => Ok s
  | a :: t =>
      match body a s with
      | Ok s' => for_each t body s'
      | Raise e => Raise e
      end
  end.

(** [sorted(l)] on floats: a stable sort, here by insertion. *)
Fixpoint insert_sorted (a : Q) (l : list Q) : list Q :=
  match l with
  | [] => [a]
  | b :: t => if Qle_bool a b then a :: l else b :: insert_sorted a t
  end.

Definition sorted (l : list Q) : list Q := fold_right insert_sorted [] l.

(** [all(l)] on a list of booleans. *)
Definition all (l : list bool) : bool := forallb (fun b => b) l.

End Py.
Import Py.

Notation "x <- m ;; k" := (bind m (fun x => k))
  (at level 61, m at next level, right associativity).
Notation "' p <- m ;; k" := (bind m (fun x => let p := x in k))
  (at level 61, p pattern, m at next level, right associativity).

(** ** The gap finder *)

(** [_gapfind(self, x)]: the state of the scan is [(gapsize, gappos)].
    The widths are compared as exact numbers here; on doubles they are
    compared after rounding ([F64._gapfind]). *)
Definition gap_scan_step (x : list Q) (i : Z) (st : Q * Z) : result (Q * Z) :=
  let '(gapsize, gappos) := st in
  a <- getitem x (i + 1) ;;
  b <- getitem x i ;;
  let temp := a - b in
  if Qltb gapsize temp then Ok (temp, i) else Ok (gapsize, gappos).

Definition _gapfind (x0 : list Q) : result Q :=
  let x := sorted x0 in
  let N := Z.of_nat (length x) in
  st <- for_each (range 0 (N - 1)) (gap_scan_step x) (0, 0%Z) ;;
  let '(gapsize, gappos) := st in
  a <- getitem x 0 ;;
  b <- getitem x (-1) ;;
  let temp := a - b + 1 in
  let '(gapsize, gappos) :=
    if Qltb gapsize temp then (temp, (N - 1)%Z) else (gapsize, gappos) in
  c <- getitem x gappos ;;
  Ok (Qmod1 (c + gapsize / 2)).

(** The width of the gap that follows element [i] of a list read as points
    on the circle of circumference 1: the next element minus this one, and
    for the last element the wrap-around to the first. *)
Definition circ_gap (xs : list Q) (i : nat) : Q :=
  if (S i <? length xs)%nat
  then nth (S i) xs 0 - nth i xs 0
  else nth 0%nat xs 0 - nth i xs 0 + 1.

(** ** The neighbour check *)

(** [_check_single_direction(self, wcc, gap)]; [gap_tol] is [self._gap_tol].
    A gap that is still [None] makes the subtraction raise.  The sums are
    exact here; on doubles each is rounded
    ([F64._check_single_direction]). *)
Fixpoint _check_single_direction (gap_tol : Q) (wcc : list Q) (gap : option Q)
  : result bool :=
  match wcc with
  | [] => Ok true
  | wcc_val :: rest =>
      match gap with
      | None => Raise TypeError
      | Some gap =>
          if Qltb (min2 (Qmod1 (Qabs (1 + wcc_val - gap)))
                        (Qmod1 (Qabs (1 - gap + wcc_val))))
                  gap_tol
          then Ok false
          else _check_single_direction gap_tol rest (Some gap)
      end
  end.

(** The circular distance on [[0,1)] between a gap [g] and a WCC [w]. *)
Definition circ_dist (g w : Q) : Q := min2 (Qmod1 (w - g)) (Qmod1 (g - w)).

(** ** The convergence metric *)

(** [(a) % N] on integers: the sign of the result follows the divisor, as
    [Z.modulo] does; a zero divisor raises. *)
Definition int_mod (a N : Z) : result Z :=
  if (N =? 0)%Z then Raise ZeroDivisionError else Ok (a mod N)%Z.

(** [val[k] op= d] on the histogram. *)
Definition bump (op : Q -> Q -> Q) (val : list Q) (k : Z) (d : Q)
  : result (list Q) :=
  v <- getitem val k ;;
  setitem val (Z.to_nat k) (op v d).

(** One WCC [x] rasterised as a triangle of half-width [N0] centred on
    [int(N*x)]: the two inner [for i] loops of [_convsum], which add the
    triangle for [listA] and subtract it for [listB]. *)
Definition triangle (op : Q -> Q -> Q) (N N0 : Z) (x : Q) (val : list Q)
  : result (list Q) :=
  let index := int (inject_Z N * x) in
  val <- for_each (range 0 N0)
           (fun i val => k <- int_mod (index - i) N ;;
                         bump op val k (1 - inject_Z i / inject_Z N0)) val ;;
  for_each (range 1 N0)
    (fun i val => k <- int_mod (index + i) N ;;
                  bump op val k (1 - inject_Z i / inject_Z N0)) val.

(** [_convsum(self, listA, listB, epsilon, N0)], with the true division of
    Python 3 in [i/N0].  The only caller leaves [N0] at its default 7.
    The arithmetic is exact and the histogram can have any size: the
    rounding of the bins and of the sums, the overflow of [1/(2 * epsilon)]
    and the limits of [np.zeros] are not part of it. *)
Definition _convsum (listA listB : list Q) (epsilon : Q) (N0 : Z) : result Q :=
  r <- (if Qeq_bool (2 * epsilon) 0 then Raise ZeroDivisionError
        else Ok (1 / (2 * epsilon))) ;;
  let N := (N0 * int r)%Z in
  val <- (if (N <? 0)%Z
          then Raise (ValueError "negative dimensions are not allowed")
          else Ok (repeat 0 (Z.to_nat N))) ;;
  val <- for_each listA (triangle Qplus N N0) val ;;
  val <- for_each listB (triangle Qminus N N0) val ;;
  Ok (fold_left Qplus (map Qabs val) 0 / inject_Z N0).

(** [_convcheck(self, x, y)]; [wcc_tol] is [self._wcc_tol]. *)
Definition _convcheck (wcc_tol : Q) (x y : list Q) : result bool :=
  if negb (length x =? length y)%nat then Ok false
  else v <- _convsum x y wcc_tol 7 ;; Ok (Qltb v 1).

(** ** Configuration *)

Record Config : Type := mkConfig {
  no_iter : bool;
  no_neighbour_check : bool;
  wcc_tol : Q;
  gap_tol : Q;
  max_iter : Z;
  min_neighbour_dist : Q;
  use_pickle : bool;
  num_strings : Z;
  verbose : bool
}.

(** The [_defaults] dictionary of [Z2PackPlane.__init__]. *)
Definition defaults : Config :=
  {| no_iter := false;
     no_neighbour_check := false;
     wcc_tol := 1 # 100;
     gap_tol := 2 # 100;
     max_iter := 10;
     min_neighbour_dist := 1 # 100;
     use_pickle := true;
     num_strings := 11;
     verbose := true |}.

(** One keyword argument. *)
Inductive kwarg : Type :=
| kw_no_iter (b : bool)
| kw_no_neighbour_check (b : bool)
| kw_wcc_tol (q : Q)
| kw_gap_tol (q : Q)
| kw_max_iter (n : Z)
| kw_min_neighbour_dist (q : Q)
| kw_use_pickle (b : bool)
| kw_num_strings (n : Z)
| kw_verbose (b : bool).

Definition set_kwarg (c : Config) (k : kwarg) : Config :=
  match k with
  | kw_no_iter b =>
      mkConfig b (no_neighbour_check c) (wcc_tol c) (gap_tol c) (max_iter c)
               (min_neighbour_dist c) (use_pickle c) (num_strings c) (verbose c)
  | kw_no_neighbour_check b =>
      mkConfig (no_iter c) b (wcc_tol c) (gap_tol c) (max_iter c)
               (min_neighbour_dist c) (use_pickle c) (num_strings c) (verbose c)
  | kw_wcc_tol q =>
      mkConfig (no_iter c) (no_neighbour_check c) q (gap_tol c) (max_iter c)
               (min_neighbour_dist c) (use_pickle c) (num_strings c) (verbose c)
  | kw_gap_tol q =>
      mkConfig (no_iter c) (no_neighbour_check c) (wcc_tol c) q (max_iter c)
               (min_neighbour_dist c) (use_pickle c) (num_strings c) (verbose c)
  | kw_max_iter n =>
      mkConfig (no_iter c) (no_neighbour_check c) (wcc_tol c) (gap_tol c) n
               (min_neighbour_dist c) (use_pickle c) (num_strings c) (verbose c)
  | kw_min_neighbour_dist q =>
      mkConfig (no_iter c) (no_neighbour_check c) (wcc_tol c) (gap_tol c)
               (max_iter c) q (use_pickle c) (num_strings c) (verbose c)
  | kw_use_pickle b =>
      mkConfig (no_iter c) (no_neighbour_check c) (wcc_tol c) (gap_tol c)
               (max_iter c) (min_neighbour_dist c) b (num_strings c) (verbose c)
  | kw_num_strings n =>
      mkConfig (no_iter c) (no_neighbour_check c) (wcc_tol c) (gap_tol c)
               (max_iter c) (min_neighbour_dist c) (use_pickle c) n (verbose c)
  | kw_verbose b =>
      mkConfig (no_iter c) (no_neighbour_check c) (wcc_tol c) (gap_tol c)
               (max_iter c) (min_neighbour_dist c) (use_pickle c)
               (num_strings c) b
  end.

(** [d.update(kwargs)]: later keys override. *)
Definition update (c : Config) (kwargs : list kwarg) : Config :=
  fold_left set_kwarg kwargs c.

(** The names bound at module level when [wcc_calc] runs: the imports of
    lines 8-18, the two classes and the sub-modules imported at the end. *)
Definition module_globals : list string :=
  [ "print_function"; "string_tools"; "sys"; "time"; "copy"; "pickle"; "np";
    "la"; "plt"; "Z2PackSystem"; "Z2PackPlane"; "fp"; "tb" ]%string.

(** Reading a global name; [warnings] is not a builtin either. *)
Definition load_global (name : string) : result unit :=
  if existsb (String.eqb name) module_globals then Ok tt
  else Raise (NameError name).

(** ** The line solver *)

(** How the refinement loop of [_getwcc] ended; in verbose mode this is the
    message it prints. *)
Inductive verdict : Type :=
| NoIteration        (* 'no iteration' *)
| Finished           (* 'finished!' *)
| FailedToConverge.  (* 'failed to converge!' *)

Section LineSolver.

(** The overlap matrices and the two numerical kernels around them are not
    embedded: [M_handle] is the provider given to the constructor, and
    [trywcc] is the body of [_trywcc] (SVD, product, eigenvalues), which
    returns the WCC list and the smallest singular value. *)
Variable Mats : Type.
Variable M_handle : Q -> Z -> result Mats.
Variable trywcc : Mats -> result (list Q * Q).

(** [_trywcc] as decorated by [_print_wcc]: in verbose mode the wrapper
    prints [wcc[-1]] of the sorted result, which raises on an empty one. *)
Definition _trywcc (cfg : Config) (allM : Mats) : result (list Q * Q) :=
  res <- trywcc allM ;;
  let wcc := sorted (fst res) in
  if verbose cfg then (_ <- getitem wcc (-1) ;; Ok res) else Ok res.

(** The step by which the loop of [_getwcc] increases [N]: 4 on every second
    turn when the smallest singular value was below 0.5, else 2. *)
Definition next_N (N niter : Z) (min_sv : Q) : Z :=
  if ((niter mod 2 =? 1)%Z && Qltb min_sv (1 # 2))%bool
  then (N + 4)%Z else (N + 2)%Z.

(** The [while(True)] loop of [_getwcc].  It recurses only while
    [niter <= max_iter], which is the measure. *)
Equations? getwcc_loop (cfg : Config) (kx : Q) (N niter : Z) (x : list Q)
  (min_sv : Q) : result (list Q * verdict)
  by wf (Z.to_nat (max_iter cfg + 1 - niter)) lt :=
  getwcc_loop cfg kx N niter x min_sv
    with (allM <- M_handle kx (next_N N niter min_sv) ;; _trywcc cfg allM) => {
    | Raise e => Raise e
    | Ok (x', min_sv') with _convcheck (wcc_tol cfg) x' x => {
        | Raise e => Raise e
        | Ok true => Ok (x', Finished)
        | Ok false with Z_gt_le_dec (niter + 1) (max_iter cfg) => {
            | left _ => Ok (x', FailedToConverge)
            | right _ =>
                getwcc_loop cfg kx (next_N N niter min_sv) (niter + 1)%Z
                            x' min_sv' } } }.
Proof. lia. Qed.

(** [_getwcc] up to the final [sorted], with the way the loop ended. *)
Definition getwcc_run (cfg : Config) (kx : Q) : result (list Q * verdict) :=
  allM <- M_handle kx 8 ;;
  r <- _trywcc cfg allM ;;
  let '(x, min_sv) := r in
  if no_iter cfg then Ok (x, NoIteration)
  else getwcc_loop cfg kx 8 0 x min_sv.

(** [_getwcc(self, kx)]. *)
Definition _getwcc (cfg : Config) (kx : Q) : result (list Q) :=
  r <- getwcc_run cfg kx ;;
  Ok (sorted (fst r)).

End LineSolver.

(** ** The plane and its state *)

(** What [_save] writes to the pickle file. *)
Definition Snapshot : Type := (list Q * list (list Q) * list (option Q))%type.

(** The attributes of a [Z2PackPlane].  [has_results] says that
    [_k_points], [_wcc_list] and [_gaps] exist, which they do once
    [wcc_calc] has initialised them.  [pickle_file] is the content of the
    checkpoint file; [solver_calls] records the positions [kx] at which
    [_getwcc] has been called, in order. *)
Record Plane : Type := mkPlane {
  _defaults : Config;
  _cfg : Config;
  has_results : bool;
  _k_points : list Q;
  _gaps : list (option Q);
  _wcc_list : list (list Q);
  _neighbour_check : list bool;
  _string_status : list bool;
  pickle_file : option Snapshot;
  solver_calls : list Q
}.

(** [Z2PackPlane(M_handle, **kwargs)]. *)
Definition new_plane (kwargs : list kwarg) : Plane :=
  mkPlane (update defaults kwargs) (update defaults kwargs) false
          [] [] [] [] [] None [].

Definition set_cfg (c : Config) (p : Plane) : Plane :=
  mkPlane (_defaults p) c (has_results p) (_k_points p) (_gaps p)
          (_wcc_list p) (_neighbour_check p) (_string_status p)
          (pickle_file p) (solver_calls p).

Definition set_k_points (v : list Q) (p : Plane) : Plane :=
  mkPlane (_defaults p) (_cfg p) (has_results p) v (_gaps p)
          (_wcc_list p) (_neighbour_check p) (_string_status p)
          (pickle_file p) (solver_calls p).

Definition set_gaps (v : list (option Q)) (p : Plane) : Plane :=
  mkPlane (_defaults p) (_cfg p) (has_results p) (_k_points p) v
          (_wcc_list p) (_neighbour_check p) (_string_status p)
          (pickle_file p) (solver_calls p).

Definition set_wcc_list (v : list (list Q)) (p : Plane) : Plane :=
  mkPlane (_defaults p) (_cfg p) (has_results p) (_k_points p) (_gaps p)
          v (_neighbour_check p) (_string_status p)
          (pickle_file p) (solver_calls p).

Definition set_neighbour_check (v : list bool) (p : Plane) : Plane :=
  mkPlane (_defaults p) (_cfg p) (has_results p) (_k_points p) (_gaps p)
          (_wcc_list p) v (_string_status p)
          (pickle_file p) (solver_calls p).

Definition set_string_status (v : list bool) (p : Plane) : Plane :=
  mkPlane (_defaults p) (_cfg p) (has_results p) (_k_points p) (_gaps p)
          (_wcc_list p) (_neighbour_check p) v
          (pickle_file p) (solver_calls p).

Definition set_pickle_file (v : option Snapshot) (p : Plane) : Plane :=
  mkPlane (_defaults p) (_cfg p) (has_results p) (_k_points p) (_gaps p)
          (_wcc_list p) (_neighbour_check p) (_string_status p)
          v (solver_calls p).

Definition log_solver_call (kx : Q) (p : Plane) : Plane :=
  mkPlane (_defaults p) (_cfg p) (has_results p) (_k_points p) (_gaps p)
          (_wcc_list p) (_neighbour_check p) (_string_status p)
          (pickle_file p) (solver_calls p ++ [kx]).

(** A method of the plane: it may change [self] and may raise; the state
    reached when it raises is kept. *)
Definition M (A : Type) : Type := Plane -> Plane * result A.

Definition ret {A} (a : A) : M A := fun p => (p, Ok a).

Definition raise {A} (e : exn) : M A := fun p => (p, Raise e).

Definition mbind {A B} (m : M A) (k : A -> M B) : M B :=
  fun p =>
    match m p with
    | (p', Ok a) => k a p'
    | (p', Raise e) => (p', Raise e)
    end.

Definition lift {A} (r : result A) : M A := fun p => (p, r).

Definition read {A} (f : Plane -> A) : M A := fun p => (p, Ok (f p)).

Definition modify (f : Plane -> Plane) : M unit := fun p => (f p, Ok tt).

Declare Scope method_scope.
Delimit Scope method_scope with method.
Notation "x <~ m ;; k" := (mbind m (fun x => k))
  (at level 61, m at next level, right associativity) : method_scope.
Notation "m ;;; k" := (mbind m (fun _ => k))
  (at level 61, right associativity) : method_scope.

(** A [for] loop over a list inside a method. *)
Fixpoint mfor_each {A} (l : list A) (body : A -> M unit) : M unit :=
  match l with
  | [] => ret tt
  | a :: t => mbind (body a) (fun _ => mfor_each t body)
  end.

(** [enumerate(l)]. *)
Definition enumerate {A} (l : list A) : list (nat * A) :=
  combine (seq 0 (length l)) l.

(** [np.linspace(0, 0.5, n, endpoint=True)] for [n >= 2]. *)
Definition linspace_half (n : Z) : list Q :=
  map (fun i => inject_Z i * ((1 # 2) / inject_Z (n - 1))) (range 0 n).

(** [_save(self)]; writing the file is taken to succeed. *)
Definition _save : M unit :=
  fun p =>
    if use_pickle (_cfg p)
    then (set_pickle_file (Some (_k_points p, _wcc_list p, _gaps p)) p, Ok tt)
    else (p, Ok tt).

(** [_check_single_neighbour(self, i, j)]. *)
Definition _check_single_neighbour (i j : nat) : M bool :=
  fun p =>
    (p, wcc <- getitem (_wcc_list p) (Z.of_nat j) ;;
        gap <- getitem (_gaps p) (Z.of_nat i) ;;
        _check_single_direction (gap_tol (_cfg p)) wcc gap).

Local Open Scope method_scope.

(** [self._xs[i]] read inside a method. *)
Definition item {A} (f : Plane -> list A) (i : nat) : M A :=
  fun p => (p, getitem (f p) (Z.of_nat i)).

(** [self._xs[i] = v]. *)
Definition assign {A} (f : Plane -> list A) (g : list A -> Plane -> Plane)
  (i : nat) (v : A) : M unit :=
  fun p =>
    match setitem (f p) i v with
    | Ok l => (g l p, Ok tt)
    | Raise e => (p, Raise e)
    end.

(** [assert b]. *)
Definition assert (b : bool) : M unit :=
  if b then ret tt else raise AssertionError.

(** The bisection of the pair [(i, i+1)]: the five [insert]s of
    [_check_neighbours] and the four assertions that follow them.  The
    midpoint is exact here; on doubles the midpoint of two neighbouring
    doubles is one of them ([F64.bisect]). *)
Definition bisect (i : nat) : M unit :=
  modify (fun p => set_neighbour_check
                     (insert (_neighbour_check p) (i + 1) false) p) ;;;
  modify (fun p => set_string_status
                     (insert (_string_status p) (i + 1) false) p) ;;;
  ki <~ item _k_points i ;;
  kj <~ item _k_points (i + 1) ;;
  modify (fun p => set_k_points
                     (insert (_k_points p) (i + 1) ((ki + kj) / 2)) p) ;;;
  modify (fun p => set_wcc_list (insert (_wcc_list p) (i + 1) []) p) ;;;
  modify (fun p => set_gaps (insert (_gaps p) (i + 1) None) p) ;;;
  lk <~ read (fun p => length (_k_points p)) ;;
  lw <~ read (fun p => length (_wcc_list p)) ;;
  assert (lk =? lw)%nat ;;;
  ln <~ read (fun p => length (_neighbour_check p)) ;;
  assert (lk - 1 =? ln)%nat ;;;
  ls <~ read (fun p => length (_string_status p)) ;;
  assert (lk =? ls)%nat ;;;
  lg <~ read (fun p => length (_gaps p)) ;;
  assert (lk =? lg)%nat.

(** The [for i, status in enumerate(self._neighbour_check)] loop of
    [_check_neighbours]; the result is the value returned. *)
Fixpoint check_neighbours_scan (items : list (nat * bool)) : M bool :=
  match items with
  | [] => ret true
  | (i, status) :: rest =>
      if status then check_neighbours_scan rest
      else
        si <~ item _string_status i ;;
        sj <~ (if si : bool then item _string_status (i + 1) else ret false) ;;
        if (si && sj)%bool then
          ok <~ _check_single_neighbour i (i + 1) ;;
          if ok : bool then
            assign _neighbour_check set_neighbour_check i true ;;;
            check_neighbours_scan rest
          else
            kj <~ item _k_points (i + 1) ;;
            ki <~ item _k_points i ;;
            md <~ read (fun p => min_neighbour_dist (_cfg p)) ;;
            if Qltb (kj - ki) md then
              (* convergence failed *)
              assign _neighbour_check set_neighbour_check i true ;;;
              check_neighbours_scan rest
            else
              bisect i ;;; ret false
        else ret false
  end.

(** [_check_neighbours(self)]. *)
Definition _check_neighbours : M bool :=
  fun p => check_neighbours_scan (enumerate (_neighbour_check p)) p.

(** How one turn of the [while] loop of [wcc_calc] ends. *)
Inductive loop_exit : Type := Continue | Break.

Section Engine.

Variable Mats : Type.
Variable M_handle : Q -> Z -> result Mats.
Variable trywcc : Mats -> result (list Q * Q).

(** The body of [for i, kx in enumerate(self._k_points)]. *)
Definition solve_line (ikx : nat * Q) : M unit :=
  let '(i, kx) := ikx in
  st <~ item _string_status i ;;
  if st : bool then ret tt
  else
    w <~ (fun p => (log_solver_call kx p,
                    _getwcc Mats M_handle trywcc (_cfg p) kx)) ;;
    assign _wcc_list set_wcc_list i w ;;;
    w' <~ item _wcc_list i ;;
    g <~ lift (_gapfind w') ;;
    assign _gaps set_gaps i (Some g) ;;;
    assign _string_status set_string_status i true ;;;
    _save.

Definition solve_pass : M unit :=
  fun p => mfor_each (enumerate (_k_points p)) solve_line p.

(** The body of [while not (all(self._neighbour_check))]. *)
Definition loop_body : M loop_exit :=
  solve_pass ;;;
  nnc <~ read (fun p => no_neighbour_check (_cfg p)) ;;
  if negb nnc then
    _ <~ _check_neighbours ;; ret Continue
  else
    v <~ read (fun p => verbose (_cfg p)) ;;
    if v : bool then (* print('skipping neighbour checks') *) ret Break
    else ret Continue.

(** The [while] loop; [None] when the fuel runs out before it ends. *)
Fixpoint wcc_loop (fuel : nat) (p : Plane) : option (Plane * result unit) :=
  match fuel with
  | O => None
  | S fuel' =>
      if all (_neighbour_check p) then Some (p, Ok tt)
      else
        match loop_body p with
        | (p', Raise e) => Some (p', Raise e)
        | (p', Ok Break) => Some (p', Ok tt)
        | (p', Ok Continue) => wcc_loop fuel' p'
        end
  end.

(** The first lines of [wcc_calc]: the merged keyword arguments are stored
    in [self], then [num_strings] is checked. *)
Definition parse_input (kwargs : list kwarg) : M unit :=
  modify (fun p => set_cfg (update (_defaults p) kwargs) p) ;;;
  n <~ read (fun p => num_strings (_cfg p)) ;;
  if (n <? 2)%Z then raise (ValueError "num_strings must be at least 2")
  else if (n <? 8)%Z then
    (* warnings.warn(...) *)
    lift (load_global "warnings")
  else ret tt.

(** The block under [# initialising]. *)
Definition initialise (p : Plane) : Plane :=
  let n := Z.to_nat (num_strings (_cfg p)) in
  mkPlane (_defaults p) (_cfg p) true
          (linspace_half (num_strings (_cfg p)))
          (repeat None n)
          (repeat [] n)
          (repeat false (n - 1))
          (repeat false n)
          (pickle_file p) (solver_calls p).

(** [wcc_calc(self, **kwargs)].  The boxes it prints and the timing are
    left out; the result is what it returns. *)
Definition wcc_calc (fuel : nat) (kwargs : list kwarg) (p : Plane)
  : option (Plane * result Snapshot) :=
  match parse_input kwargs p with
  | (p1, Raise e) => Some (p1, Raise e)
  | (p1, Ok _) =>
      match wcc_loop fuel (initialise p1) with
      | None => None
      | Some (p2, Raise e) => Some (p2, Raise e)
      | Some (p2, Ok _) =>
          let p3 := fst (_save p2) in
          Some (p3, Ok (_k_points p3, _wcc_list p3, _gaps p3))
      end
  end.

End Engine.

Local Close Scope method_scope.

(** ** The invariant *)

(** [np.copysign(1, v)]: the sign bit of [v] on [1]; a zero sum of sines is
    a positive zero. *)
Definition copysign1 (v : R) : Z := if Rle_dec 0 v then 1%Z else (-1)%Z.

(** [_sgng(self, z, zplus, x)]. *)
Definition _sgng (z zplus x : Q) : Z :=
  copysign1 (sin (2 * PI * Q2R (zplus - z))
             + sin (2 * PI * Q2R (x - zplus))
             + sin (2 * PI * Q2R (z - x)))%R.

(** The call [self._sgng(self._gaps[i], self._gaps[i+1],
    self._wcc_list[i+1][j])], arguments evaluated left to right; a gap that
    is [None] makes the subtraction raise. *)
Definition sgng_at (gaps : list (option Q)) (wcc_list : list (list Q))
  (i j : Z) : result Z :=
  z <- getitem gaps i ;;
  zplus <- getitem gaps (i + 1) ;;
  row <- getitem wcc_list (i + 1) ;;
  x <- getitem row j ;;
  match z, zplus with
  | Some z, Some zplus => Ok (_sgng z zplus x)
  | _, _ => Raise TypeError
  end.

(** The body of the inner [for j] loop of [invariant]. *)
Definition invariant_inner (gaps : list (option Q)) (wcc_list : list (list Q))
  (i j inv : Z) : result Z :=
  s <- sgng_at gaps wcc_list i j ;;
  Ok (inv * s)%Z.

(** The body of the outer [for i] loop: the range of [j] is the number of
    WCCs of line 0, read again on every turn. *)
Definition invariant_outer (gaps : list (option Q)) (wcc_list : list (list Q))
  (i inv : Z) : result Z :=
  row0 <- getitem wcc_list 0 ;;
  for_each (range 0 (Z.of_nat (length row0)))
           (invariant_inner gaps wcc_list i) inv.

(** [invariant(self)]; without results the attribute error is turned into
    a [RuntimeError]. *)
Definition invariant (p : Plane) : result Z :=
  if negb (has_results p) then Raise (RuntimeError "WCC not yet calculated")
  else
    inv <- for_each (range 0 (Z.of_nat (length (_wcc_list p)) - 1))
             (invariant_outer (_gaps p) (_wcc_list p)) 1%Z ;;
    Ok (if (inv =? -1)%Z then 1%Z else 0%Z).

(** The sign function of the formula: [1], [0] or [-1]. *)
Definition sgn (v : R) : Z :=
  if Rlt_dec 0 v then 1%Z else if Rlt_dec v 0 then (-1)%Z else 0%Z.

(** [sign(i, j)] as the formula is written, for gaps [g], [g'] of two
    consecutive lines and a WCC [w] of the second. *)
Definition sign_formula (g g' w : Q) : Z :=
  sgn (sin (2 * PI * Q2R (g' - g))
       + sin (2 * PI * Q2R (w - g'))
       + sin (2 * PI * Q2R (g - w)))%R.

(** The product of [sign i j] over the consecutive pairs of a list of lines
    [(gap, wccs)] and over the WCCs of the second line of each pair. *)
Fixpoint sign_product (sign : Q -> Q -> Q -> Z) (lines : list (Q * list Q))
  : Z :=
  match lines with
  | (g, _) :: (((g', ws) :: _) as rest) =>
      (fold_left Z.mul (map (sign g g') ws) 1 * sign_product sign rest)%Z
  | _ => 1%Z
  end.

(** The gaps and the WCC lists of a list of solved lines [(gap, wccs)]. *)
Definition lines_gaps (lines : list (Q * list Q)) : list (option Q) :=
  map (fun l => Some (fst l)) lines.

Definition lines_wccs (lines : list (Q * list Q)) : list (list Q) :=
  map snd lines.

(** A plane whose lines are all solved, holding the given gaps and WCCs. *)
Definition plane_of_lines (cfg : Config) (ks : list Q)
  (lines : list (Q * list Q)) : Plane :=
  mkPlane cfg cfg true ks
          (lines_gaps lines)
          (lines_wccs lines)
          (repeat true (length lines - 1))
          (repeat true (length lines))
          None [].

(** ** Eigenvalue phases *)

Module Phase.

Local Open Scope R_scope.

(** A complex number by its real and imaginary part. *)
Record C : Type := mkC { Re : R; Im : R }.

Definition Cmul (a b : C) : C :=
  mkC (Re a * Re b - Im a * Im b) (Re a * Im b + Im a * Re b).

Definition Cdiv_real (a : C) (r : R) : C := mkC (Re a / r) (Im a / r).

(** [1j]. *)
Definition j : C := mkC 0 1.

(** An eigenvalue [z] of Gamma, given by its modulus and its argument
    [arg z], the latter in the range of the principal branch. *)
Record eigenvalue : Type := mkEig { modulus : R; arg : R }.

(** [np.log(z)]: the principal logarithm [ln |z| + i arg z]. *)
Definition log (z : eigenvalue) : C := mkC (ln (modulus z)) (arg z).

(** [v % 1] on a float, in exact arithmetic: always below 1 (on doubles
    see [F64.mod1]). *)
Definition mod1 (v : R) : R := v - IZR (Int_part v).

(** The list comprehension that [_trywcc] returns as WCCs:
    [[(1j * np.log(z) / (2 * np.pi)).real % 1 for z in eigs]]. *)
Definition wcc_of_eigs (eigs : list eigenvalue) : list R :=
  map (fun z => mod1 (Re (Cdiv_real (Cmul j (log z)) (2 * PI)))) eigs.

End Phase.

(** ** Concrete planes and providers used in the examples below *)

(** Two solved lines: the left one holds the WCC 0 and the gap 1/2, the
    right one the WCC 49/100 and the gap 99/100. *)
Definition close_pair_plane : Plane :=
  plane_of_lines defaults [0; 1 # 2] [(1 # 2, [0]); (99 # 100, [49 # 100])].

(** A provider whose matrices are just the step count [N], with a kernel
    that always finds the two WCCs 0 and 1/2. *)
Definition count_M_handle (kx : Q) (N : Z) : result Z := Ok N.

Definition steady_trywcc (N : Z) : result (list Q * Q) := Ok ([0; 1 # 2], 1).

(** A kernel that finds the WCC 0 at [N = 8] and 1/100 afterwards. *)
Definition drift_trywcc (N : Z) : result (list Q * Q) :=
  Ok (if (N =? 8)%Z then [0] else [1 # 100], 1).

(** A fresh plane with the default options. *)
Definition fresh_plane : Plane := new_plane [].

(** The keyword arguments [no_neighbour_check = True, verbose = False]. *)
Definition quiet_single_pass : list kwarg :=
  [kw_no_neighbour_check true; kw_verbose false].

(** The plane when [wcc_calc(no_neighbour_check = True, verbose = False)]
    enters its [while] loop on a fresh plane, and after the first turn. *)
Definition quiet_start : Plane :=
  initialise (set_cfg (update (_defaults fresh_plane) quiet_single_pass)
                      fresh_plane).

Definition quiet_after_pass : Plane :=
  fst (loop_body Z count_M_handle steady_trywcc quiet_start).

(** Keyword arguments under which the neighbour check of the steady
    provider fails on every pair (the gap 1/4 is within 1/3 of the WCC 0),
    with a bisection floor of 1/30: every initial pair is bisected once. *)
Definition refining_kwargs : list kwarg :=
  [kw_gap_tol (1 # 3); kw_min_neighbour_dist (1 # 30)].

(** Two solved lines of unequal cardinality: one WCC, then two. *)
Definition unequal_lines : list (Q * list Q) :=
  [(1 # 2, [0]); (7 # 8, [1 # 4; 1 # 2])].

(** Three solved single-band lines; the first two have the same gap. *)
Definition flat_then_jump : list (Q * list Q) :=
  [(0, [1 # 2]); (0, [1 # 2]); (3 # 4, [1 # 4])].

(** The same two lines with the surplus WCC of the second line removed. *)
Definition unequal_lines_cut : list (Q * list Q) :=
  [(1 # 2, [0]); (7 # 8, [1 # 4])].

(** ** Results, checkpoints and the system *)

(** [get_res(self)]: the missing attributes are reported as a
    [RuntimeError]. *)
Definition get_res (p : Plane) : result Snapshot :=
  if has_results p then Ok (_k_points p, _wcc_list p, _gaps p)
  else Raise (RuntimeError "WCC not yet calculated").

(** What [load] does: it sets the three lists from the pickle file, or the
    [open] fails because the file does not exist. *)
Inductive loaded : Type :=
| Loaded (p : Plane)
| NoPickleFile.

(** [load(self)]. *)
Definition load (p : Plane) : loaded :=
  match pickle_file p with
  | Some (k_points, wcc_list, gaps) =>
      Loaded (mkPlane (_defaults p) (_cfg p) true k_points gaps wcc_list
                      (_neighbour_check p) (_string_status p)
                      (pickle_file p) (solver_calls p))
  | None => NoPickleFile
  end.

(** A [Z2PackSystem]: the keyword arguments of its constructor and the
    creator of providers, which takes [(string_dir, plane_pos_dir,
    plane_pos)]. *)
Record System (Mats : Type) : Type := mkSystem {
  sys_defaults : list kwarg;
  _M_handle_creator : Z -> Z -> Q -> Q -> Z -> result Mats
}.
Arguments sys_defaults {Mats} s.
Arguments _M_handle_creator {Mats} s.

(** [Z2PackSystem.plane(self, string_dir, plane_pos_dir, plane_pos,
    **kwargs)]: the plane and the provider handed to its constructor. *)
Definition plane {Mats} (sys : System Mats)
  (string_dir plane_pos_dir : Z) (plane_pos : Q) (kwargs : list kwarg)
  : result (Plane * (Q -> Z -> result Mats)) :=
  let kw_arguments := sys_defaults sys ++ kwargs in
  if (string_dir =? plane_pos_dir)%Z
  then Raise (ValueError "strings cannot be perpendicular to the plane")
  else Ok (new_plane kw_arguments,
           _M_handle_creator sys string_dir plane_pos_dir plane_pos).

(** A system whose constructor was given [num_strings = 9] and whose
    providers are the counting provider, whatever the plane. *)
Definition count_system : System Z :=
  mkSystem Z [kw_num_strings 9] (fun _ _ _ => count_M_handle).

(** A provider that fails at every line. *)
Definition failing_M_handle (kx : Q) (N : Z) : result Z :=
  Raise (RuntimeError "no matrices").

(** ** Binary64 arithmetic

    The arithmetic of the surface engine and of the gap finder once more,
    on Python's floats as they are: IEEE 754 binary64 numbers, every
    operation rounded to nearest with ties to even (the primitive floats
    of the kernel).  The inputs are finite and below [2^52] in absolute
    value.  The line solver [_getwcc] is a parameter here, and the pickle
    file is left out. *)

Module F64.

Local Open Scope float_scope.

(** C's [trunc] on a finite double: a double of absolute value [2^52] or
    more is an integer; below that, adding and subtracting [2^52] rounds
    to the nearest integer, which is lowered by one if it came out above. *)
Definition trunc (x : float) : float :=
  let ax := abs x in
  if 0x1p52 <=? ax then x
  else
    let r := (ax + 0x1p52) - 0x1p52 in
    let f := if ax <? r then r - 1 else r in
    if x <? 0 then - f else f.

(** C's [fmod(x, 1.0)]: exact, with the sign of [x]. *)
Definition fmod1 (x : float) : float := x - trunc x.

(** [x % 1] on a float, as CPython's [float_rem] computes it: [fmod(x, 1.0)],
    to which 1.0 is added (and the sum rounded) if it is negative; a zero
    remainder is [+0.0]. *)
Definition mod1 (x : float) : float :=
  let m := fmod1 x in
  if m <? 0 then m + 1 else if m =? 0 then 0 else m.

(** [min(a, b)]: the first argument unless the second is smaller. *)
Definition min2 (a b : float) : float := if b <? a then b else a.

(** [sorted(l)] on floats. *)
Fixpoint insert_sorted (a : float) (l : list float) : list float :=
  match l with
  | [] => [a]
  | b :: t => if a <=? b then a :: l else b :: insert_sorted a t
  end.

Definition sorted (l : list float) : list float :=
  fold_right insert_sorted [] l.

(** [_gapfind(self, x)]. *)
Definition gap_scan_step (x : list float) (i : Z) (st : float * Z)
  : result (float * Z) :=
  let '(gapsize, gappos) := st in
  a <- getitem x (i + 1)%Z ;;
  b <- getitem x i ;;
  let temp := a - b in
  if gapsize <? temp then Ok (temp, i) else Ok (gapsize, gappos).

Definition _gapfind (x0 : list float) : result float :=
  let x := sorted x0 in
  let N := Z.of_nat (length x) in
  st <- for_each (range 0 (N - 1)%Z) (gap_scan_step x) (0, 0%Z) ;;
  let '(gapsize, gappos) := st in
  a <- getitem x 0%Z ;;
  b <- getitem x (-1)%Z ;;
  let temp := a - b + 1 in
  let '(gapsize, gappos) :=
    if gapsize <? temp then (temp, (N - 1)%Z) else (gapsize, gappos) in
  c <- getitem x gappos ;;
  Ok (mod1 (c + gapsize / 2)).

(** [_check_single_direction(self, wcc, gap)]. *)
Fixpoint _check_single_direction (gap_tol : float) (wcc : list float)
  (gap : option float) : result bool :=
  match wcc with
  | [] => Ok true
  | wcc_val :: rest =>
      match gap with
      | None => Raise TypeError
      | Some gap =>
          if min2 (mod1 (abs (1 + wcc_val - gap)))
                  (mod1 (abs (1 - gap + wcc_val))) <? gap_tol
          then Ok false
          else _check_single_direction gap_tol rest (Some gap)
      end
  end.

(** The options that the surface engine reads. *)
Record Options : Type := mkOptions {
  gap_tol : float;
  min_neighbour_dist : float;
  no_neighbour_check : bool;
  num_strings : Z;
  verbose : bool
}.

(** The five lists of the surface. *)
Record Surface : Type := mkSurface {
  _k_points : list float;
  _gaps : list (option float);
  _wcc_list : list (list float);
  _neighbour_check : list bool;
  _string_status : list bool
}.

(** A small integer as a float. *)
Fixpoint of_nat (n : nat) : float :=
  match n with
  | O => 0
  | S k => of_nat k + 1
  end.

(** [np.linspace(0, 0.5, n, endpoint=True)] for [n >= 2]:
    [arange(0, n) * step + start] with [step = (stop - start) / (n - 1)],
    and the last element set to [stop]. *)
Definition linspace_half (n : nat) : list float :=
  let step := (0.5 - 0) / of_nat (n - 1) in
  map (fun i => of_nat i * step + 0) (seq 0 (n - 1)) ++ [0.5].

(** The block under [# initialising]. *)
Definition initialise (n : nat) : Surface :=
  mkSurface (linspace_half n) (repeat None n) (repeat [] n)
            (repeat false (n - 1)) (repeat false n).

Section Engine.

(** [self._getwcc], any line solver that ends. *)
Variable getwcc : float -> result (list float).
Variable o : Options.

(** The body of [for i, kx in enumerate(self._k_points)]. *)
Definition solve_line (ikx : nat * float) (s : Surface) : result Surface :=
  let '(i, kx) := ikx in
  st <- getitem (_string_status s) (Z.of_nat i) ;;
  if st : bool then Ok s
  else
    w <- getwcc kx ;;
    wl <- setitem (_wcc_list s) i w ;;
    w' <- getitem wl (Z.of_nat i) ;;
    g <- _gapfind w' ;;
    gl <- setitem (_gaps s) i (Some g) ;;
    sl <- setitem (_string_status s) i true ;;
    Ok (mkSurface (_k_points s) gl wl (_neighbour_check s) sl).

Definition solve_pass (s : Surface) : result Surface :=
  for_each (enumerate (_k_points s)) solve_line s.

(** [_check_single_neighbour(self, i, j)]. *)
Definition _check_single_neighbour (i j : nat) (s : Surface) : result bool :=
  wcc <- getitem (_wcc_list s) (Z.of_nat j) ;;
  gap <- getitem (_gaps s) (Z.of_nat i) ;;
  _check_single_direction (gap_tol o) wcc gap.

(** [self._neighbour_check[i] = True]. *)
Definition set_flag (i : nat) (s : Surface) : result Surface :=
  nc <- setitem (_neighbour_check s) i true ;;
  Ok (mkSurface (_k_points s) (_gaps s) (_wcc_list s) nc (_string_status s)).

(** The five [insert]s of [_check_neighbours] and the four assertions that
    follow them. *)
Definition bisect (i : nat) (s : Surface) : result Surface :=
  let nc := insert (_neighbour_check s) (i + 1) false in
  let ss := insert (_string_status s) (i + 1) false in
  ki <- getitem (_k_points s) (Z.of_nat i) ;;
  kj <- getitem (_k_points s) (Z.of_nat (i + 1)) ;;
  let ks := insert (_k_points s) (i + 1) ((ki + kj) / 2) in
  let wl := insert (_wcc_list s) (i + 1) [] in
  let gl := insert (_gaps s) (i + 1) None in
  if ((length ks =? length wl)%nat && (length ks - 1 =? length nc)%nat
      && (length ks =? length ss)%nat && (length ks =? length gl)%nat)%bool
  then Ok (mkSurface ks gl wl nc ss)
  else Raise AssertionError.

(** The [for i, status in enumerate(self._neighbour_check)] loop of
    [_check_neighbours], with the value returned. *)
Fixpoint check_neighbours_scan (items : list (nat * bool)) (s : Surface)
  : result (Surface * bool) :=
  match items with
  | [] => Ok (s, true)
  | (i, status) :: rest =>
      if status then check_neighbours_scan rest s
      else
        si <- getitem (_string_status s) (Z.of_nat i) ;;
        sj <- (if si : bool
               then getitem (_string_status s) (Z.of_nat (i + 1))
               else Ok false) ;;
        if (si && sj)%bool then
          ok <- _check_single_neighbour i (i + 1) s ;;
          if ok : bool then
            s' <- set_flag i s ;; check_neighbours_scan rest s'
          else
            kj <- getitem (_k_points s) (Z.of_nat (i + 1)) ;;
            ki <- getitem (_k_points s) (Z.of_nat i) ;;
            if kj - ki <? min_neighbour_dist o then
              (* convergence failed *)
              s' <- set_flag i s ;; check_neighbours_scan rest s'
            else
              s' <- bisect i s ;; Ok (s', false)
        else Ok (s, false)
  end.

(** [_check_neighbours(self)]. *)
Definition _check_neighbours (s : Surface) : result (Surface * bool) :=
  check_neighbours_scan (enumerate (_neighbour_check s)) s.

(** The body of [while not (all(self._neighbour_check))]. *)
Definition loop_body (s : Surface) : result (Surface * loop_exit) :=
  s <- solve_pass s ;;
  if negb (no_neighbour_check o) then
    r <- _check_neighbours s ;; Ok (fst r, Continue)
  else if verbose o then Ok (s, Break) else Ok (s, Continue).

(** The [while] loop; [None] when the fuel runs out before it ends. *)
Fixpoint wcc_loop (fuel : nat) (s : Surface) : option (result Surface) :=
  match fuel with
  | O => None
  | S fuel' =>
      if all (_neighbour_check s) then Some (Ok s)
      else
        match loop_body s with
        | Raise e => Some (Raise e)
        | Ok (s', Break) => Some (Ok s')
        | Ok (s', Continue) => wcc_loop fuel' s'
        end
  end.

(** [wcc_calc(self)] with the options [o]. *)
Definition wcc_calc (fuel : nat)
  : option (result (list float * list (list float) * list (option float))) :=
  if (num_strings o <? 2)%Z
  then Some (Raise (ValueError "num_strings must be at least 2"))
  else if (num_strings o <? 8)%Z
  then Some (Raise (NameError "warnings"))
  else
    match wcc_loop fuel (initialise (Z.to_nat (num_strings o))) with
    | None => None
    | Some (Raise e) => Some (Raise e)
    | Some (Ok s) => Some (Ok (_k_points s, _wcc_list s, _gaps s))
    end.

(** The state at the top of the [while] loop after [k] turns that all went
    on to the next one. *)
Fixpoint turns (k : nat) (s : Surface) : option Surface :=
  match k with
  | O => Some s
  | S k' =>
      if all (_neighbour_check s) then None
      else
        match loop_body s with
        | Ok (s', Continue) => turns k' s'
        | _ => None
        end
  end.

End Engine.

(** A line solver that finds the WCCs 0.25 and 0.75 on every line but the
    last, and 0.5 and 0.75 at [kx = 0.5]. *)
Definition edge_getwcc (kx : float) : result (list float) :=
  if kx <? 0.5 then Ok (sorted [0.25; 0.75]) else Ok (sorted [0.5; 0.75]).

(** The default options but for [min_neighbour_dist = 2^-60], which is
    about [8.7e-19]; [0x1.47ae147ae147bp-6] is the double [0.02]. *)
Definition fine_options : Options :=
  mkOptions 0x1.47ae147ae147bp-6 0x1p-60 false 11 true.

(** The double below 0.5. *)
Definition below_half : float := 0x1.fffffffffffffp-2.

End F64.

(** ** Predicates used in the statements *)

(** What the scan of [_gapfind] holds after the first [k] gaps: either no
    positive gap was met and the state is still the initial one, or the
    state is the first widest gap met so far. *)
Definition scan_inv (xs : list Q) (k : nat) (st : Q * Z) : Prop :=
  (st = (0, 0%Z) /\ forall i, (i < k)%nat -> circ_gap xs i <= 0)
  \/ (exists q : nat,
        st = (circ_gap xs q, Z.of_nat q) /\ (q < k)%nat /\
        0 < circ_gap xs q /\
        (forall i, (i < k)%nat -> circ_gap xs i <= circ_gap xs q) /\
        (forall i, (i < q)%nat -> circ_gap xs i < circ_gap xs q)).

(** The five parallel lists of the surface have matching lengths: one
    neighbour flag per adjacent pair of lines, and one WCC list, gap and
    status per line. *)
Definition lengths_ok (p : Plane) : Prop :=
  S (length (_neighbour_check p)) = length (_k_points p) /\
  length (_wcc_list p) = length (_k_points p) /\
  length (_gaps p) = length (_k_points p) /\
  length (_string_status p) = length (_k_points p).

(** [grows l l']: [l'] is [l] after a number of [insert]s; nothing was
    removed or replaced. *)
Inductive grows {A : Type} : list A -> list A -> Prop :=
| grows_refl (l : list A) : grows l l
| grows_insert (l l' : list A) (i : nat) (v : A) :
    grows l l' -> grows l (insert l' i v).

(** [l] with element [i] replaced by [v]. *)
Definition replace_at {A} (i : nat) (v : A) (l : list A) : list A :=
  firstn i l ++ v :: skipn (S i) l.

(** [enumerate] started at index [i]. *)
Definition enum_from {A} (i : nat) (l : list A) : list (nat * A) :=
  combine (seq i (length l)) l.

(** A method keeps a relation between the state before and after it,
    whatever it returns or raises. *)
Definition keeps {A} (R : Plane -> Plane -> Prop) (m : M A) : Prop :=
  forall p, R p (fst (m p)).

(** The state after differs from the state before at most in the contents
    of [_wcc_list], [_gaps], [_string_status], the pickle file and the log
    of solver calls; no list changes its length. *)
Definition same_shape (p p' : Plane) : Prop :=
  _cfg p' = _cfg p /\
  _k_points p' = _k_points p /\
  _neighbour_check p' = _neighbour_check p /\
  length (_wcc_list p') = length (_wcc_list p) /\
  length (_gaps p') = length (_gaps p) /\
  length (_string_status p') = length (_string_status p).

(** The plane after the bisection of the pair [(i, i+1)]. *)
Definition bisected (i : nat) (p : Plane) : Plane :=
  mkPlane (_defaults p) (_cfg p) (has_results p)
          (insert (_k_points p) (i + 1)
                  ((nth i (_k_points p) 0 + nth (i + 1) (_k_points p) 0) / 2))
          (insert (_gaps p) (i + 1) None)
          (insert (_wcc_list p) (i + 1) [])
          (insert (_neighbour_check p) (i + 1) false)
          (insert (_string_status p) (i + 1) false)
          (pickle_file p) (solver_calls p).

(** The number of bisections that a pair of spacing [d] can still cause,
    bounded from above, for a bisection floor [m]: nothing below the floor,
    [2 d / m - 1] from the floor on. *)
Definition pair_potential (m d : Q) : Q :=
  if Qltb d m then 0 else 2 * d / m - 1.

(** The potential of a list of line positions: the sum over its adjacent
    pairs. *)
Fixpoint potential (m : Q) (ks : list Q) : Q :=
  match ks with
  | a :: ((b :: _) as t) => pair_potential m (b - a) + potential m t
  | _ => 0
  end.

(** A number of turns of the [while] loop of [wcc_calc] that suffices. *)
Definition outer_bound (cfg : Config) : nat :=
  Z.to_nat (Qceiling (potential (min_neighbour_dist cfg)
                                (linspace_half (num_strings cfg)))) + 2.

Section Steps.

Variable Mats : Type.
Variable M_handle : Q -> Z -> result Mats.
Variable trywcc : Mats -> result (list Q * Q).

(** The points at which the state of [wcc_calc] is observed: after a line
    of the pass has been treated, after a call of [_check_neighbours], and
    after a [_save]. *)
Inductive engine_step : Plane -> Plane -> Prop :=
| step_line (ikx : nat * Q) (p : Plane) :
    engine_step p (fst (solve_line Mats M_handle trywcc ikx p))
| step_check (p : Plane) :
    engine_step p (fst (_check_neighbours p))
| step_save (p : Plane) :
    engine_step p (fst (_save p)).

(** Any number of such steps. *)
Inductive engine_steps : Plane -> Plane -> Prop :=
| steps_refl (p : Plane) : engine_steps p p
| steps_more (p p' p'' : Plane) :
    engine_steps p p' -> engine_step p' p'' -> engine_steps p p''.

End Steps.

(** The state of the refinement loop of [_getwcc]: [N], [niter], the
    current WCCs [x] and the smallest singular value [min_sv]. *)
Definition loop_state : Type := (Z * Z * list Q * Q)%type.

Section Turns.

Variable Mats : Type.
Variable M_handle : Q -> Z -> result Mats.
Variable trywcc : Mats -> result (list Q * Q).

(** What the loop computes in one turn from the state [s]: the WCCs at the
    next [N] and their smallest singular value. *)
Definition turn_result (cfg : Config) (kx : Q) (s : loop_state)
  : result (list Q * Q) :=
  let '(N, niter, x, min_sv) := s in
  allM <- M_handle kx (next_N N niter min_sv) ;;
  _trywcc Mats trywcc cfg allM.

(** [continues cfg kx s s']: from the state [s] the loop reaches the state
    [s'] through turns none of which ended it: in each of them the new WCCs
    failed the convergence check against the previous ones and the count of
    iterations did not exceed [max_iter]. *)
Inductive continues (cfg : Config) (kx : Q) : loop_state -> loop_state -> Prop :=
| continues_here (s : loop_state) : continues cfg kx s s
| continues_turn (N niter : Z) (x : list Q) (min_sv : Q)
    (x' : list Q) (min_sv' : Q) (s' : loop_state) :
    turn_result cfg kx (N, niter, x, min_sv) = Ok (x', min_sv') ->
    _convcheck (wcc_tol cfg) x' x = Ok false ->
    (niter + 1 <= max_iter cfg)%Z ->
    continues cfg kx (next_N N niter min_sv, (niter + 1)%Z, x', min_sv') s' ->
    continues cfg kx (N, niter, x, min_sv) s'.

End Turns.

(** The number of WCCs of the first line, which [invariant] uses as the
    range of [j] for every pair. *)
Definition width (lines : list (Q * list Q)) : nat :=
  match lines with
  | [] => 0%nat
  | l :: _ => length (snd l)
  end.

(** A line without WCCs, the default when a line is read by its index. *)
Definition nil_line : Q * list Q := (0, []).

(** The lines with every WCC list cut down to its first [n] values. *)
Definition truncate_lines (n : nat) (lines : list (Q * list Q))
  : list (Q * list Q) :=
  map (fun l => (fst l, firstn n (snd l))) lines.

(** The bins and weights that [_convsum] touches for one WCC [x]: the
    pairs [(index - i) % N, 1 - i/N0] of its first inner loop followed by
    the pairs [(index + i) % N, 1 - i/N0] of the second. *)
Definition stamp (N N0 : Z) (x : Q) : list (Z * Q) :=
  let index := int (inject_Z N * x) in
  map (fun i => (((index - i) mod N)%Z, 1 - inject_Z i / inject_Z N0))
      (range 0 N0)
  ++ map (fun i => (((index + i) mod N)%Z, 1 - inject_Z i / inject_Z N0))
         (range 1 N0).

(** The weight that a list of such pairs puts into bin [j]. *)
Fixpoint bin_weight (l : list (Z * Q)) (j : nat) : Q :=
  match l with
  | [] => 0
  | (k, d) :: t => (if (Z.of_nat j =? k)%Z then d else 0) + bin_weight t j
  end.

(** The density of a list of WCCs in bin [j]. *)
Definition density (N N0 : Z) (xs : list Q) (j : nat) : Q :=
  bin_weight (flat_map (stamp N N0) xs) j.

(** [val[k] op= d] for each pair [(k, d)] of a list, in order. *)
Definition bumps (op : Q -> Q -> Q) (l : list (Z * Q)) (val : list Q)
  : result (list Q) :=
  for_each l (fun kd v => bump op v (fst kd) (snd kd)) val.

(** The number of bins of [_convsum]. *)
Definition bins (epsilon : Q) (N0 : Z) : Z := (N0 * int (1 / (2 * epsilon)))%Z.

(** The state after has the defaults, the parsed options and the results
    flag of the state before, and the same pickle file if checkpoints are
    off. *)
Definition same_options (p p' : Plane) : Prop :=
  _defaults p' = _defaults p /\
  _cfg p' = _cfg p /\
  has_results p' = has_results p /\
  (use_pickle (_cfg p) = false -> pickle_file p' = pickle_file p).

(** The line positions are strictly ascending and run from 0 to 1/2. *)
Definition spans_half (ks : list Q) : Prop :=
  Sorted Qlt ks /\ nth 0%nat ks 0 == 0 /\ nth (length ks - 1) ks 0 == 1 # 2.

(** Line [i] of the plane is solved: it has a gap, which is the one
    [_gapfind] finds in its WCC list, and that list is ascending. *)
Definition line_solved (p : Plane) (i : nat) : Prop :=
  nth i (_string_status p) false = true /\
  Sorted Qle (nth i (_wcc_list p) []) /\
  exists g, nth i (_gaps p) None = Some g /\
            _gapfind (nth i (_wcc_list p) []) = Ok g.

(** Every line that is marked as solved is solved. *)
Definition solved_lines_ok (p : Plane) : Prop :=
  forall i, nth i (_string_status p) false = true -> line_solved p i.

(** The pair of lines [(i, i+1)] is settled: the gap of line [i] is clear
    of the WCCs of line [i+1], or the two lines are closer than
    [min_neighbour_dist]. *)
Definition pair_settled (p : Plane) (i : nat) : Prop :=
  _check_single_direction (gap_tol (_cfg p))
                          (nth (i + 1) (_wcc_list p) [])
                          (nth i (_gaps p) None) = Ok true
  \/ nth (i + 1) (_k_points p) 0 - nth i (_k_points p) 0
     < min_neighbour_dist (_cfg p).

(** The pair of lines [(i, i+1)] is open: both lines are solved, the gap
    of line [i] is too close to a WCC of line [i+1], and the lines are not
    closer than [min_neighbour_dist]. *)
Definition pair_open (p : Plane) (i : nat) : Prop :=
  nth i (_string_status p) false = true /\
  nth (i + 1) (_string_status p) false = true /\
  _check_single_direction (gap_tol (_cfg p))
                          (nth (i + 1) (_wcc_list p) [])
                          (nth i (_gaps p) None) = Ok false /\
  min_neighbour_dist (_cfg p)
  <= nth (i + 1) (_k_points p) 0 - nth i (_k_points p) 0.

(** [f] is what a scan of [_check_neighbours] from index [i] on can make of
    the neighbour flags of [p]: no flag is reset or added, the flags
    before [i] are untouched, and a flag is set only for a settled pair of
    solved lines. *)
Definition flags_set (i : nat) (p : Plane) (f : list bool) : Prop :=
  length f = length (_neighbour_check p) /\
  (forall j, (j < i)%nat ->
             nth j f false = nth j (_neighbour_check p) false) /\
  (forall j, nth j (_neighbour_check p) false = true ->
             nth j f false = true) /\
  (forall j, nth j f false = true ->
             nth j (_neighbour_check p) false = true
             \/ ((i <= j)%nat /\
                 nth j (_string_status p) false = true /\
                 nth (j + 1) (_string_status p) false = true /\
                 pair_settled p j)).

(** What a scan of [_check_neighbours] from index [i] on does: it sets
    flags and ends, or it sets flags and bisects the first open pair. *)
Definition scan_effect (i : nat) (p p' : Plane) (r : result bool) : Prop :=
  exists f,
    flags_set i p f /\
    ((p' = set_neighbour_check f p /\
      (r = Ok true ->
       forall j, (i <= j < length f)%nat -> nth j f false = true) /\
      (r = Ok false ->
       exists j, (i <= j < length f)%nat /\ nth j f false = false /\
                 (nth j (_string_status p) false = false
                  \/ nth (j + 1) (_string_status p) false = false)))
     \/ (exists j,
           (i <= j < length f)%nat /\ nth j f false = false /\
           pair_open p j /\ r = Ok false /\
           p' = bisected j (set_neighbour_check f p))).

(** The invariant of the surface during [wcc_calc]: matching lengths, at
    least the initial number of lines, line positions ascending from 0 to
    1/2, every line marked as solved is solved, and every neighbour flag
    that is set belongs to a settled pair of solved lines. *)
Definition surface_inv (p : Plane) : Prop :=
  lengths_ok p /\
  (2 <= Z.to_nat (num_strings (_cfg p)) <= length (_k_points p))%nat /\
  spans_half (_k_points p) /\
  solved_lines_ok p /\
  forall i, nth i (_neighbour_check p) false = true ->
            nth i (_string_status p) false = true /\
            nth (i + 1) (_string_status p) false = true /\
            pair_settled p i.

(** The positions of the lines that are marked as solved, in order. *)
Definition solved_positions (p : Plane) : list Q :=
  map fst (filter snd (combine (_k_points p) (_string_status p))).

(** The calls of the line solver since the log held [c0]: one for each
    solved line, at the position of that line. *)
Definition calls_inv (c0 : list Q) (p : Plane) : Prop :=
  exists l, solver_calls p = c0 ++ l /\ Permutation l (solved_positions p).

(** Going upwards around the circle from [z], one meets [x] strictly
    before [zplus]. *)
Definition between (z zplus x : Q) : bool :=
  (Qltb z x && Qltb x zplus) || (Qltb zplus z && Qltb z x)
  || (Qltb x zplus && Qltb zplus z).

(** The number of crossings of a list of solved lines [(gap, wccs)]: over
    the neighbouring pairs of lines, the WCCs of the second line that lie
    between the gap of the first and the gap of the second. *)
Fixpoint crossings (lines : list (Q * list Q)) : nat :=
  match lines with
  | (g, _) :: (((g', ws) :: _) as rest) =>
      (length (filter (between g g') ws) + crossings rest)%nat
  | _ => 0%nat
  end.

(** All gaps and WCCs of the lines are in [[0, 1)]. *)
Definition in_unit_interval (lines : list (Q * list Q)) : Prop :=
  forall l, In l lines ->
            (0 <= fst l /\ fst l < 1) /\
            Forall (fun w => 0 <= w /\ w < 1) (snd l).

(** *** Surfaces of doubles on which the loop cannot end *)

(** The surface [s] with line [u] solved: WCCs [w], gap [g]. *)
Definition solved_at (u : nat) (w : list float) (g : float)
  (s : F64.Surface) : F64.Surface :=
  F64.mkSurface (F64._k_points s)
                (replace_at u (Some g) (F64._gaps s))
                (replace_at u w (F64._wcc_list s))
                (F64._neighbour_check s)
                (replace_at u true (F64._string_status s)).

(** The surface [s] after the bisection of the pair [(i, i+1)], with the
    line [m] inserted. *)
Definition bisected_at (i : nat) (m : float) (s : F64.Surface)
  : F64.Surface :=
  F64.mkSurface (insert (F64._k_points s) (i + 1) m)
                (insert (F64._gaps s) (i + 1) None)
                (insert (F64._wcc_list s) (i + 1) [])
                (insert (F64._neighbour_check s) (i + 1) false)
                (insert (F64._string_status s) (i + 1) false).

(** The five lists have matching lengths. *)
Definition lengths_match (s : F64.Surface) : Prop :=
  S (length (F64._neighbour_check s)) = length (F64._k_points s) /\
  length (F64._wcc_list s) = length (F64._k_points s) /\
  length (F64._gaps s) = length (F64._k_points s) /\
  length (F64._string_status s) = length (F64._k_points s).

(** [stuck i0 a b ga s]: at the top of the [while] loop, the pair
    [(i0, i0+1)] of the surface [s] is the first one whose flag is not set;
    its lines are at [a] and [b], line [i0] has the gap [ga], line [i0+1]
    has just been inserted and is the only line not solved. *)
Definition stuck (i0 : nat) (a b ga : float) (s : F64.Surface) : Prop :=
  lengths_match s /\
  (i0 + 1 < length (F64._k_points s))%nat /\
  (forall j, (j < i0)%nat -> nth j (F64._neighbour_check s) false = true) /\
  nth i0 (F64._neighbour_check s) false = false /\
  nth i0 (F64._k_points s) 0%float = a /\
  nth (i0 + 1) (F64._k_points s) 0%float = b /\
  nth i0 (F64._gaps s) None = Some ga /\
  nth (i0 + 1) (F64._string_status s) false = false /\
  (forall j, j <> (i0 + 1)%nat -> (j < length (F64._k_points s))%nat ->
             nth j (F64._string_status s) false = true).

(** * Properties *)

(** ** Auxiliary facts on the Python operations *)

Lemma Qltb_lt (a b : Q) : Qltb a b = true <-> a < b.
Proof.
  unfold Qltb. rewrite negb_true_iff, <- not_true_iff_false, Qle_bool_iff.
  split; [apply Qnot_le_lt | apply Qlt_not_le].
Qed.

Lemma Qltb_ge (a b : Q) : Qltb a b = false <-> b <= a.
Proof.
  unfold Qltb. rewrite negb_false_iff, Qle_bool_iff. reflexivity.
Qed.

Lemma getitem_nth {A} (l : list A) (i : nat) (d : A) :
  (i < length l)%nat -> getitem l (Z.of_nat i) = Ok (nth i l d).
Proof.
  intros Hi. unfold getitem.
  destruct (Z.ltb_spec (Z.of_nat i) 0); [lia |].
  destruct (Z.ltb_spec (Z.of_nat i) 0); [lia |].
  destruct (Z.leb_spec (Z.of_nat (length l)) (Z.of_nat i)); [lia |].
  cbn [orb]. rewrite Nat2Z.id.
  destruct (nth_error l i) eqn:E.
  - f_equal. symmetry. apply nth_error_nth. exact E.
  - apply nth_error_None in E. lia.
Qed.

Lemma getitem_last {A} (l : list A) (d : A) :
  (0 < length l)%nat -> getitem l (-1) = Ok (nth (length l - 1) l d).
Proof.
  intros Hl. unfold getitem. cbn [Z.ltb Z.compare].
  destruct (Z.ltb_spec (-1 + Z.of_nat (length l)) 0); [lia |].
  destruct (Z.leb_spec (Z.of_nat (length l)) (-1 + Z.of_nat (length l)));
    [lia |].
  cbn [orb].
  replace (Z.to_nat (-1 + Z.of_nat (length l))) with (length l - 1)%nat by lia.
  destruct (nth_error l (length l - 1)) eqn:E.
  - f_equal. symmetry. apply nth_error_nth. exact E.
  - apply nth_error_None in E. lia.
Qed.

Lemma getitem_out {A} (l : list A) (i : nat) :
  (length l <= i)%nat -> getitem l (Z.of_nat i) = Raise IndexError.
Proof.
  intros Hi. unfold getitem.
  destruct (Z.ltb_spec (Z.of_nat i) 0); [lia |].
  destruct (Z.ltb_spec (Z.of_nat i) 0); [lia |].
  destruct (Z.leb_spec (Z.of_nat (length l)) (Z.of_nat i)); [| lia].
  reflexivity.
Qed.

Lemma for_each_app {A S} (l1 l2 : list A) (body : A -> S -> result S) (s : S) :
  for_each (l1 ++ l2) body s = (s' <- for_each l1 body s ;; for_each l2 body s').
Proof.
  revert s. induction l1 as [| a l1 IH]; intros s; cbn; [reflexivity |].
  destruct (body a s); cbn; [apply IH | reflexivity].
Qed.

Lemma range_0_S (k : nat) :
  range 0 (Z.of_nat (S k)) = range 0 (Z.of_nat k) ++ [Z.of_nat k].
Proof.
  unfold range. rewrite !Z.sub_0_r, !Nat2Z.id, seq_S, map_app.
  reflexivity.
Qed.

Lemma range_0_length (k : nat) : length (range 0 (Z.of_nat k)) = k.
Proof. unfold range. rewrite length_map, length_seq. lia. Qed.

Lemma insert_sorted_length (a : Q) (l : list Q) :
  length (insert_sorted a l) = S (length l).
Proof.
  induction l as [| b l IH]; cbn [insert_sorted]; [reflexivity |].
  destruct (Qle_bool a b); cbn [length]; rewrite ?IH; reflexivity.
Qed.

Lemma sorted_length (l : list Q) : length (sorted l) = length l.
Proof.
  induction l as [| a l IH]; cbn [sorted fold_right]; [reflexivity |].
  rewrite insert_sorted_length. fold (sorted l). rewrite IH. reflexivity.
Qed.

Lemma insert_sorted_perm (a : Q) (l : list Q) :
  Permutation (a :: l) (insert_sorted a l).
Proof.
  induction l as [| b l IH]; cbn; [reflexivity |].
  destruct (Qle_bool a b); [reflexivity |].
  rewrite perm_swap. constructor. exact IH.
Qed.

Lemma sorted_perm (l : list Q) : Permutation l (sorted l).
Proof.
  induction l as [| a l IH]; cbn; [constructor |].
  rewrite <- insert_sorted_perm. constructor. exact IH.
Qed.

Lemma insert_sorted_ascending (a : Q) (l : list Q) :
  Sorted Qle l -> Sorted Qle (insert_sorted a l).
Proof.
  induction 1 as [| b l Hs IH Hb]; cbn.
  - repeat constructor.
  - destruct (Qle_bool a b) eqn:E.
    + constructor; [constructor; assumption |].
      constructor. apply Qle_bool_iff. exact E.
    + assert (Hba : b <= a).
      { apply Qlt_le_weak, Qnot_le_lt. rewrite <- Qle_bool_iff. congruence. }
      constructor; [exact IH |].
      destruct l as [| c l]; cbn.
      * constructor. exact Hba.
      * inversion Hb; subst.
        destruct (Qle_bool a c); constructor; assumption.
Qed.

Lemma sorted_ascending (l : list Q) : Sorted Qle (sorted l).
Proof.
  induction l as [| a l IH]; cbn; [constructor |].
  apply insert_sorted_ascending. exact IH.
Qed.

Lemma Qmod1_range (v : Q) : 0 <= Qmod1 v /\ Qmod1 v < 1.
Proof.
  unfold Qmod1. pose proof (Qfloor_le v) as Hl. pose proof (Qlt_floor v) as Hu.
  rewrite inject_Z_plus in Hu. change (inject_Z 1) with 1 in Hu.
  split; lra.
Qed.

(** ** The gap finder: the scan and its invariant *)

Lemma circ_gap_inner (xs : list Q) (i : nat) :
  (S i < length xs)%nat -> circ_gap xs i = nth (S i) xs 0 - nth i xs 0.
Proof.
  intros H. unfold circ_gap.
  destruct (Nat.ltb_spec (S i) (length xs)); [reflexivity | lia].
Qed.

Lemma circ_gap_wrap (xs : list Q) :
  circ_gap xs (length xs - 1) = nth 0%nat xs 0 - nth (length xs - 1) xs 0 + 1.
Proof.
  unfold circ_gap.
  destruct (Nat.ltb_spec (S (length xs - 1)) (length xs)); [lia | reflexivity].
Qed.

Lemma gap_scan_step_inner (xs : list Q) (k : nat) (st : Q * Z) :
  (S k < length xs)%nat ->
  gap_scan_step xs (Z.of_nat k) st =
  Ok (if Qltb (fst st) (circ_gap xs k) then (circ_gap xs k, Z.of_nat k)
      else st).
Proof.
  intros Hk. destruct st as [s p]. unfold gap_scan_step.
  replace (Z.of_nat k + 1)%Z with (Z.of_nat (S k)) by lia.
  rewrite (getitem_nth xs (S k) 0) by lia.
  rewrite (getitem_nth xs k 0) by lia.
  cbn [bind fst]. rewrite circ_gap_inner by lia.
  destruct (Qltb s _); reflexivity.
Qed.

Lemma scan_inv_step (xs : list Q) (k : nat) (st : Q * Z) :
  scan_inv xs k st ->
  scan_inv xs (S k)
    (if Qltb (fst st) (circ_gap xs k) then (circ_gap xs k, Z.of_nat k) else st).
Proof.
  intros [[-> Hall] | (q & -> & Hq & Hpos & Hall & Hfirst)]; cbn [fst].
  - destruct (Qltb 0 (circ_gap xs k)) eqn:E.
    + apply Qltb_lt in E. right. exists k.
      repeat split; [lia | exact E | |].
      * intros i Hi. destruct (Nat.eq_dec i k) as [-> |]; [apply Qle_refl |].
        apply Qle_trans with 0; [apply Hall; lia | apply Qlt_le_weak, E].
      * intros i Hi. apply Qle_lt_trans with 0; [apply Hall; lia | exact E].
    + apply Qltb_ge in E. left. split; [reflexivity |].
      intros i Hi. destruct (Nat.eq_dec i k) as [-> |]; [exact E |].
      apply Hall. lia.
  - destruct (Qltb (circ_gap xs q) (circ_gap xs k)) eqn:E.
    + apply Qltb_lt in E. right. exists k.
      repeat split; [lia | | |].
      * apply Qlt_trans with (circ_gap xs q); assumption.
      * intros i Hi. destruct (Nat.eq_dec i k) as [-> |]; [apply Qle_refl |].
        apply Qle_trans with (circ_gap xs q);
          [apply Hall; lia | apply Qlt_le_weak, E].
      * intros i Hi.
        apply Qle_lt_trans with (circ_gap xs q); [apply Hall; lia | exact E].
    + apply Qltb_ge in E. right. exists q.
      repeat split; [lia | exact Hpos | | exact Hfirst].
      intros i Hi. destruct (Nat.eq_dec i k) as [-> |]; [exact E |].
      apply Hall. lia.
Qed.

Lemma gap_scan_inner (xs : list Q) (k : nat) :
  (k < length xs)%nat ->
  exists st, for_each (range 0 (Z.of_nat k)) (gap_scan_step xs) (0, 0%Z) = Ok st
             /\ scan_inv xs k st.
Proof.
  induction k as [| k IH]; intros Hk.
  - exists (0, 0%Z). split; [reflexivity |]. left. split; [reflexivity |].
    intros i Hi. lia.
  - destruct IH as (st & Hrun & Hinv); [lia |].
    rewrite range_0_S, for_each_app, Hrun. cbn [bind for_each].
    rewrite gap_scan_step_inner by lia.
    eexists. split; [reflexivity |]. apply scan_inv_step. exact Hinv.
Qed.

(** If no gap between consecutive elements is positive, no element exceeds
    the first one. *)
Lemma no_positive_gap_bound (xs : list Q) (k : nat) :
  (k < length xs)%nat ->
  (forall i, (i < k)%nat -> circ_gap xs i <= 0) ->
  nth k xs 0 <= nth 0%nat xs 0.
Proof.
  induction k as [| k IH]; intros Hk Hall; [apply Qle_refl |].
  assert (H := Hall k (Nat.lt_succ_diag_r k)).
  rewrite circ_gap_inner in H by lia.
  assert (H' : nth k xs 0 <= nth 0%nat xs 0).
  { apply IH; [lia |]. intros i Hi. apply Hall. lia. }
  lra.
Qed.

(** The result of [_gapfind] on an already sorted, non-empty list. *)
Lemma gap_scan_result (xs : list Q) :
  (0 < length xs)%nat ->
  exists p : nat,
    (p < length xs)%nat /\
    (st <- for_each (range 0 (Z.of_nat (length xs) - 1)) (gap_scan_step xs)
             (0, 0%Z) ;;
     let '(gapsize, gappos) := st in
     a <- getitem xs 0 ;;
     b <- getitem xs (-1) ;;
     let temp := a - b + 1 in
     let '(gapsize, gappos) :=
       if Qltb gapsize temp then (temp, (Z.of_nat (length xs) - 1)%Z)
       else (gapsize, gappos) in
     c <- getitem xs gappos ;;
     Ok (Qmod1 (c + gapsize / 2)))
    = Ok (Qmod1 (nth p xs 0 + circ_gap xs p / 2)) /\
    (forall i, (i < length xs)%nat -> circ_gap xs i <= circ_gap xs p) /\
    (forall i, (i < p)%nat -> circ_gap xs i < circ_gap xs p).
Proof.
  intros Hn. set (n := length xs) in *.
  destruct (gap_scan_inner xs (n - 1)) as (st & Hrun & Hinv); [lia |].
  replace (Z.of_nat n - 1)%Z with (Z.of_nat (n - 1)) by lia.
  rewrite Hrun. cbn [bind].
  assert (Hwrap := circ_gap_wrap xs). fold n in Hwrap.
  assert (H0 : getitem xs 0 = Ok (nth 0%nat xs 0))
    by (apply (getitem_nth xs 0%nat 0); lia).
  assert (Hl : getitem xs (-1) = Ok (nth (n - 1) xs 0))
    by (apply getitem_last; lia).
  destruct Hinv as [[-> Hall] | (q & -> & Hq & Hpos & Hall & Hfirst)];
    rewrite H0, Hl; cbn [bind]; rewrite <- Hwrap.
  - assert (Hb := no_positive_gap_bound xs (n - 1) ltac:(lia) Hall).
    assert (Hw : 0 < circ_gap xs (n - 1)) by (rewrite Hwrap; lra).
    apply Qltb_lt in Hw. rewrite Hw. exists (n - 1)%nat.
    rewrite (getitem_nth xs (n - 1) 0) by lia. cbn [bind].
    apply Qltb_lt in Hw.
    repeat split; [lia | |].
    + intros i Hi. destruct (Nat.eq_dec i (n - 1)) as [-> |];
        [apply Qle_refl |].
      apply Qle_trans with 0; [apply Hall; lia | apply Qlt_le_weak, Hw].
    + intros i Hi. apply Qle_lt_trans with 0; [apply Hall; lia | exact Hw].
  - destruct (Qltb (circ_gap xs q) (circ_gap xs (n - 1))) eqn:E.
    + apply Qltb_lt in E. exists (n - 1)%nat.
      rewrite (getitem_nth xs (n - 1) 0) by lia. cbn [bind].
      repeat split; [lia | |].
      * intros i Hi. destruct (Nat.eq_dec i (n - 1)) as [-> |];
          [apply Qle_refl |].
        apply Qle_trans with (circ_gap xs q);
          [apply Hall; lia | apply Qlt_le_weak, E].
      * intros i Hi.
        apply Qle_lt_trans with (circ_gap xs q); [apply Hall; lia | exact E].
    + apply Qltb_ge in E. exists q.
      rewrite (getitem_nth xs q 0) by lia. cbn [bind].
      repeat split; [lia | | exact Hfirst].
      intros i Hi. destruct (Nat.eq_dec i (n - 1)) as [-> |]; [exact E |].
      apply Hall. lia.
Qed.




(** ** The neighbour check *)

(** The two arguments of [min] in [_check_single_direction] are the same
    number: both are [(1 + wcc_val - gap) % 1]. *)
Lemma check_direction_arguments_equal (w g : Q) :
  Qmod1 (Qabs (1 + w - g)) == Qmod1 (Qabs (1 - g + w)).
Proof.
  assert (E : Qabs (1 + w - g) == Qabs (1 - g + w)) by (apply Qabs_wd; ring).
  unfold Qmod1. rewrite (Qfloor_comp _ _ E), E. reflexivity.
Qed.

(** C1.  On two solved lines where the gap of the left line is 1/2 and the
    right line has a WCC at 49/100, the neighbour check of the pair succeeds
    with the default [gap_tol] of 2/100, although the circular distance
    between that gap and that WCC is 1/100, below [gap_tol]: the check
    measures [(w - g) mod 1], here 99/100, in both arguments of [min]. *)
Theorem check_neighbour_one_sided_distance :
  snd (_check_single_neighbour 0 1 close_pair_plane) = Ok true /\
  circ_dist (1 # 2) (49 # 100) == 1 # 100 /\
  circ_dist (1 # 2) (49 # 100) < gap_tol (_cfg close_pair_plane) /\
  Qmod1 (Qabs (1 + (49 # 100) - (1 # 2))) == 99 # 100.
Proof.
  repeat split; vm_compute; reflexivity.
Qed.

(** ** Eigenvalue phases *)

Module PhaseFacts.
Import Phase.
Local Open Scope R_scope.

Lemma re_j_log (z : eigenvalue) :
  Re (Cdiv_real (Cmul j (log z)) (2 * PI)) = - arg z / (2 * PI).
Proof.
  cbn [Re Im Cdiv_real Cmul j log]. field. apply PI_neq0.
Qed.

Lemma mod1_between (v : R) (k : Z) :
  IZR k <= v < IZR k + 1 -> mod1 v = v - IZR k.
Proof.
  intros [Hl Hu]. unfold mod1.
  replace (Int_part v) with k; [reflexivity |].
  apply Int_part_spec. lra.
Qed.

(** C3, as the code has it.  For every list of eigenvalues of Gamma,
    [_trywcc] reports one WCC per eigenvalue, in the same order, and the WCC
    of an eigenvalue [z] is [(- arg z / (2 pi)) mod 1]: the real part of
    [1j * log z] is minus the argument of [z]. *)
Theorem wcc_is_minus_phase (eigs : list eigenvalue) :
  wcc_of_eigs eigs = map (fun z => mod1 (- arg z / (2 * PI))) eigs /\
  length (wcc_of_eigs eigs) = length eigs.
Proof.
  unfold wcc_of_eigs. split; [| apply length_map].
  apply map_ext. intros z. rewrite re_j_log. reflexivity.
Qed.

(** C3, counterexample.  For the eigenvalue [i] (modulus 1, argument
    [pi/2]) the reported WCC is 3/4, whereas [(arg z / (2 pi)) mod 1] is
    1/4. *)
Lemma wcc_phase_sign_counterexample :
  wcc_of_eigs [mkEig 1 (PI / 2)] = [3 / 4] /\
  map (fun z => mod1 (arg z / (2 * PI))) [mkEig 1 (PI / 2)] = [1 / 4] /\
  wcc_of_eigs [mkEig 1 (PI / 2)]
  <> map (fun z => mod1 (arg z / (2 * PI))) [mkEig 1 (PI / 2)].
Proof.
  assert (Hpi := PI_neq0).
  assert (E1 : wcc_of_eigs [mkEig 1 (PI / 2)] = [3 / 4]).
  { cbn [wcc_of_eigs map]. rewrite re_j_log. cbn [arg].
    replace (- (PI / 2) / (2 * PI)) with (- (1 / 4)) by (field; exact Hpi).
    rewrite (mod1_between _ (-1)) by lra. f_equal. lra. }
  assert (E2 : map (fun z => mod1 (arg z / (2 * PI))) [mkEig 1 (PI / 2)]
               = [1 / 4]).
  { cbn [map arg].
    replace (PI / 2 / (2 * PI)) with (1 / 4) by (field; exact Hpi).
    rewrite (mod1_between _ 0) by lra. f_equal. lra. }
  split; [exact E1 |]. split; [exact E2 |].
  rewrite E1, E2. intros H. injection H as H. lra.
Qed.

End PhaseFacts.

(** ** [wcc_calc]: the check of [num_strings] *)

Lemma warnings_not_imported : load_global "warnings" = Raise (NameError "warnings").
Proof. reflexivity. Qed.

(** C10.  For every plane, provider and keyword arguments whose merged
    options have [2 <= num_strings < 8], [wcc_calc] raises
    [NameError('warnings')], whatever the fuel: the only change to the plane
    is that the parsed options are stored, so no line was computed and none
    of the result lists was initialised. *)
Theorem wcc_calc_small_num_strings_raises
  (Mats : Type) (M_handle : Q -> Z -> result Mats)
  (trywcc : Mats -> result (list Q * Q))
  (fuel : nat) (kwargs : list kwarg) (p : Plane) :
  (2 <= num_strings (update (_defaults p) kwargs) < 8)%Z ->
  wcc_calc Mats M_handle trywcc fuel kwargs p
  = Some (set_cfg (update (_defaults p) kwargs) p,
          Raise (NameError "warnings")) /\
  solver_calls (set_cfg (update (_defaults p) kwargs) p) = solver_calls p /\
  has_results (set_cfg (update (_defaults p) kwargs) p) = has_results p /\
  ~ In "warnings"%string module_globals.
Proof.
  intros [Hlo Hhi]. split; [| split; [reflexivity | split; [reflexivity |]]].
  - unfold wcc_calc, parse_input, mbind, modify, read. cbn [_cfg set_cfg].
    destruct (Z.ltb_spec (num_strings (update (_defaults p) kwargs)) 2);
      [lia |].
    destruct (Z.ltb_spec (num_strings (update (_defaults p) kwargs)) 8);
      [| lia].
    reflexivity.
  - unfold module_globals. cbn [In]. intuition discriminate.
Qed.

Lemma wcc_calc_small_num_strings_raises_witness :
  wcc_calc Z count_M_handle steady_trywcc 5 [kw_num_strings 4] fresh_plane
  = Some (set_cfg (update (_defaults fresh_plane) [kw_num_strings 4])
                  fresh_plane,
          Raise (NameError "warnings")) /\
  solver_calls (set_cfg (update (_defaults fresh_plane) [kw_num_strings 4])
                        fresh_plane) = solver_calls fresh_plane /\
  has_results (set_cfg (update (_defaults fresh_plane) [kw_num_strings 4])
                       fresh_plane) = has_results fresh_plane /\
  ~ In "warnings"%string module_globals.
Proof.
  apply (wcc_calc_small_num_strings_raises Z count_M_handle steady_trywcc 5
           [kw_num_strings 4] fresh_plane).
  cbn. lia.
Defined.

(** ** [wcc_calc] with [no_neighbour_check] *)

Lemma quiet_start_not_done : all (_neighbour_check quiet_start) = false.
Proof. reflexivity. Qed.

Lemma quiet_first_turn :
  loop_body Z count_M_handle steady_trywcc quiet_start
  = (quiet_after_pass, Ok Continue).
Proof. vm_compute. reflexivity. Qed.

Lemma quiet_later_turns :
  loop_body Z count_M_handle steady_trywcc quiet_after_pass
  = (quiet_after_pass, Ok Continue).
Proof. vm_compute. reflexivity. Qed.

Lemma quiet_after_pass_not_done :
  all (_neighbour_check quiet_after_pass) = false.
Proof. vm_compute. reflexivity. Qed.

Lemma quiet_loop_never_ends (fuel : nat) :
  wcc_loop Z count_M_handle steady_trywcc fuel quiet_after_pass = None.
Proof.
  induction fuel as [| fuel IH]; [reflexivity |].
  cbn [wcc_loop]. rewrite quiet_after_pass_not_done, quiet_later_turns.
  exact IH.
Qed.

(** C4.  With [no_neighbour_check = True] and [verbose = False] on a fresh
    plane (11 lines, every line solved in the first pass), the [while] loop
    of [wcc_calc] never ends: no amount of fuel gives a result.  After the
    first pass each line has been solved once and no neighbour flag is set;
    every later turn leaves the plane as it is.  With [verbose = True] the
    same call returns after that one pass. *)
Theorem wcc_calc_quiet_single_pass_diverges :
  (forall fuel : nat,
      wcc_calc Z count_M_handle steady_trywcc fuel quiet_single_pass
               fresh_plane = None) /\
  solver_calls quiet_after_pass = _k_points quiet_after_pass /\
  (exists p r,
      wcc_calc Z count_M_handle steady_trywcc 1 [kw_no_neighbour_check true]
               fresh_plane = Some (p, Ok r) /\
      solver_calls p = _k_points p).
Proof.
  split; [| split].
  - intros fuel. unfold wcc_calc.
    change (parse_input quiet_single_pass fresh_plane)
      with (set_cfg (update (_defaults fresh_plane) quiet_single_pass)
                    fresh_plane, @Ok unit tt).
    cbv iota beta. fold quiet_start.
    destruct fuel as [| fuel]; [reflexivity |].
    cbn [wcc_loop]. rewrite quiet_start_not_done, quiet_first_turn.
    rewrite quiet_loop_never_ends. reflexivity.
  - vm_compute. reflexivity.
  - eexists. eexists. split; vm_compute; reflexivity.
Qed.

(** ** The primitives of the plane methods *)

Lemma setitem_replace {A} (l : list A) (i : nat) (v : A) :
  (i < length l)%nat -> setitem l i v = Ok (replace_at i v l).
Proof.
  revert i. induction l as [| a l IH]; intros i Hi; cbn in Hi; [lia |].
  destruct i as [| i]; [reflexivity |].
  cbn [setitem]. rewrite IH by lia. reflexivity.
Qed.

Lemma setitem_out {A} (l : list A) (i : nat) (v : A) :
  (length l <= i)%nat -> setitem l i v = Raise IndexError.
Proof.
  revert i. induction l as [| a l IH]; intros i Hi; [destruct i; reflexivity |].
  cbn in Hi. destruct i as [| i]; [lia |].
  cbn [setitem]. rewrite IH by lia. reflexivity.
Qed.

Lemma replace_at_length {A} (l : list A) (i : nat) (v : A) :
  (i < length l)%nat -> length (replace_at i v l) = length l.
Proof.
  intros Hi. unfold replace_at.
  rewrite length_app, length_firstn. cbn [length]. rewrite length_skipn. lia.
Qed.

Lemma setitem_length {A} (l l' : list A) (i : nat) (v : A) :
  setitem l i v = Ok l' -> length l' = length l.
Proof.
  intros H. destruct (Nat.lt_ge_cases i (length l)) as [Hi | Hi].
  - rewrite setitem_replace in H by exact Hi. injection H as <-.
    apply replace_at_length. exact Hi.
  - rewrite setitem_out in H by exact Hi. discriminate H.
Qed.

Lemma insert_length {A} (l : list A) (i : nat) (v : A) :
  length (insert l i v) = S (length l).
Proof.
  unfold insert. rewrite length_app. cbn [length].
  rewrite length_firstn, length_skipn. lia.
Qed.

Lemma grows_trans {A} (l1 l2 l3 : list A) :
  grows l1 l2 -> grows l2 l3 -> grows l1 l3.
Proof.
  intros H12 H23. induction H23 as [| l2 l3 i v H IH]; [exact H12 |].
  constructor. apply IH. exact H12.
Qed.

Lemma grows_length {A} (l l' : list A) :
  grows l l' -> (length l <= length l')%nat.
Proof.
  induction 1 as [| l l' i v H IH]; [lia |]. rewrite insert_length. lia.
Qed.

Lemma enum_from_cons {A} (i : nat) (a : A) (l : list A) :
  enum_from i (a :: l) = (i, a) :: enum_from (S i) l.
Proof. reflexivity. Qed.

Lemma enumerate_enum_from {A} (l : list A) : enumerate l = enum_from 0 l.
Proof. reflexivity. Qed.

(** *** Relations kept by the methods *)

Lemma same_shape_refl (p : Plane) : same_shape p p.
Proof. repeat split. Qed.

Lemma same_shape_trans (p1 p2 p3 : Plane) :
  same_shape p1 p2 -> same_shape p2 p3 -> same_shape p1 p3.
Proof.
  unfold same_shape. intros (a1 & a2 & a3 & a4 & a5 & a6)
                            (b1 & b2 & b3 & b4 & b5 & b6).
  repeat split; congruence.
Qed.

Lemma same_shape_lengths_ok (p p' : Plane) :
  same_shape p p' -> lengths_ok p -> lengths_ok p'.
Proof.
  unfold same_shape, lengths_ok.
  intros (a1 & a2 & a3 & a4 & a5 & a6) (b1 & b2 & b3 & b4).
  rewrite a2, a3, a4, a5, a6. repeat split; assumption.
Qed.

Section Keeps.

Variable R : Plane -> Plane -> Prop.
Hypothesis R_refl : forall p, R p p.
Hypothesis R_trans : forall p1 p2 p3, R p1 p2 -> R p2 p3 -> R p1 p3.

Lemma keeps_ret {A} (a : A) : keeps R (ret a).
Proof. intros p. apply R_refl. Qed.

Lemma keeps_raise {A} (e : exn) : keeps R (@raise A e).
Proof. intros p. apply R_refl. Qed.

Lemma keeps_lift {A} (r : result A) : keeps R (lift r).
Proof. intros p. apply R_refl. Qed.

Lemma keeps_read {A} (f : Plane -> A) : keeps R (read f).
Proof. intros p. apply R_refl. Qed.

Lemma keeps_item {A} (f : Plane -> list A) (i : nat) : keeps R (item f i).
Proof. intros p. apply R_refl. Qed.

Lemma keeps_assert (b : bool) : keeps R (assert b).
Proof. intros p. destruct b; apply R_refl. Qed.

Lemma keeps_bind {A B} (m : M A) (k : A -> M B) :
  keeps R m -> (forall a, keeps R (k a)) -> keeps R (mbind m k).
Proof.
  intros Hm Hk p. unfold mbind. specialize (Hm p).
  destruct (m p) as [p' [a | e]]; cbn [fst] in *; [| exact Hm].
  apply R_trans with p'; [exact Hm | apply Hk].
Qed.

Lemma keeps_mfor_each {A} (l : list A) (body : A -> M unit) :
  (forall a, keeps R (body a)) -> keeps R (mfor_each l body).
Proof.
  intros Hb. induction l as [| a l IH]; cbn [mfor_each].
  - apply keeps_ret.
  - apply keeps_bind; [apply Hb | intros _; exact IH].
Qed.

End Keeps.

Lemma keeps_save_shape : keeps same_shape _save.
Proof.
  intros p. unfold _save. destruct (use_pickle (_cfg p)); repeat split.
Qed.

Lemma keeps_assign_wcc_list (i : nat) (w : list Q) :
  keeps same_shape (assign _wcc_list set_wcc_list i w).
Proof.
  intros p. unfold assign.
  destruct (setitem (_wcc_list p) i w) as [l |] eqn:E; [| apply same_shape_refl].
  apply setitem_length in E. repeat split. exact E.
Qed.

Lemma keeps_assign_gaps (i : nat) (g : option Q) :
  keeps same_shape (assign _gaps set_gaps i g).
Proof.
  intros p. unfold assign.
  destruct (setitem (_gaps p) i g) as [l |] eqn:E; [| apply same_shape_refl].
  apply setitem_length in E. repeat split. exact E.
Qed.

Lemma keeps_assign_string_status (i : nat) (b : bool) :
  keeps same_shape (assign _string_status set_string_status i b).
Proof.
  intros p. unfold assign.
  destruct (setitem (_string_status p) i b) as [l |] eqn:E;
    [| apply same_shape_refl].
  apply setitem_length in E. repeat split. exact E.
Qed.

Section EngineSteps.

Variable Mats : Type.
Variable M_handle : Q -> Z -> result Mats.
Variable trywcc : Mats -> result (list Q * Q).

Local Abbreviation line := (solve_line Mats M_handle trywcc).
Local Abbreviation pass := (solve_pass Mats M_handle trywcc).
Local Abbreviation body := (loop_body Mats M_handle trywcc).
Local Abbreviation loop := (wcc_loop Mats M_handle trywcc).

Lemma keeps_solve_line (ikx : nat * Q) : keeps same_shape (line ikx).
Proof.
  destruct ikx as [i kx]. unfold solve_line.
  pose proof same_shape_refl as Hr. pose proof same_shape_trans as Ht.
  apply keeps_bind; [assumption | apply keeps_item; assumption |].
  intros [|]; [apply keeps_ret; assumption |].
  apply keeps_bind; [assumption | |].
  { intros p. repeat split. }
  intros w. apply keeps_bind; [assumption | apply keeps_assign_wcc_list |].
  intros _. apply keeps_bind; [assumption | apply keeps_item; assumption |].
  intros w'. apply keeps_bind; [assumption | apply keeps_lift; assumption |].
  intros g. apply keeps_bind; [assumption | apply keeps_assign_gaps |].
  intros _. apply keeps_bind; [assumption | apply keeps_assign_string_status |].
  intros _. apply keeps_save_shape.
Qed.

Lemma keeps_solve_pass : keeps same_shape pass.
Proof.
  intros p. unfold solve_pass.
  apply (keeps_mfor_each same_shape same_shape_refl same_shape_trans).
  apply keeps_solve_line.
Qed.

End EngineSteps.

(** ** [_check_neighbours] *)

Lemma item_eq {A} (f : Plane -> list A) (i : nat) (p : Plane) (d : A) :
  (i < length (f p))%nat -> item f i p = (p, Ok (nth i (f p) d)).
Proof.
  intros Hi. unfold item. rewrite (getitem_nth _ _ d) by exact Hi. reflexivity.
Qed.

Lemma assign_eq {A} (f : Plane -> list A) (g : list A -> Plane -> Plane)
  (i : nat) (v : A) (p : Plane) :
  (i < length (f p))%nat ->
  assign f g i v p = (g (replace_at i v (f p)) p, Ok tt).
Proof.
  intros Hi. unfold assign. rewrite setitem_replace by exact Hi. reflexivity.
Qed.

Lemma nth_replace_at {A} (l : list A) (i j : nat) (v d : A) :
  (i < length l)%nat ->
  nth j (replace_at i v l) d = if (j =? i)%nat then v else nth j l d.
Proof.
  intros Hi. unfold replace_at.
  assert (Hf : length (firstn i l) = i) by (rewrite length_firstn; lia).
  destruct (Nat.eqb_spec j i) as [-> | Hne].
  - rewrite app_nth2 by lia. rewrite Hf, Nat.sub_diag. reflexivity.
  - destruct (Nat.lt_ge_cases j i) as [Hlt | Hge].
    + rewrite app_nth1 by lia.
      rewrite <- (firstn_skipn i l) at 2. rewrite app_nth1 by lia. reflexivity.
    + rewrite app_nth2 by lia. rewrite Hf.
      destruct (j - i)%nat as [| k] eqn:E; [lia |]. cbn [nth].
      rewrite nth_skipn. f_equal. lia.
Qed.

Lemma skipn_replace_at {A} (l : list A) (i : nat) (v : A) :
  (i < length l)%nat -> skipn (S i) (replace_at i v l) = skipn (S i) l.
Proof.
  intros Hi. unfold replace_at.
  assert (Hf : length (firstn i l) = i) by (rewrite length_firstn; lia).
  rewrite skipn_app, Hf.
  rewrite skipn_all2 by lia. replace (S i - i)%nat with 1%nat by lia.
  reflexivity.
Qed.

Lemma skipn_cons_inv {A} (l rest : list A) (i : nat) (a d : A) :
  skipn i l = a :: rest ->
  (i < length l)%nat /\ nth i l d = a /\ skipn (S i) l = rest.
Proof.
  revert l. induction i as [| i IH]; intros l H.
  - destruct l as [| b l]; [discriminate H |]. cbn in H. injection H as -> ->.
    cbn. repeat split. lia.
  - destruct l as [| b l]; [discriminate H |]. cbn [skipn] in H.
    destruct (IH l H) as (H1 & H2 & H3). cbn [length nth].
    repeat split; [lia | exact H2 | exact H3].
Qed.

Lemma all_nth (l : list bool) :
  (forall j, (j < length l)%nat -> nth j l false = true) -> all l = true.
Proof.
  intros H. unfold all. apply forallb_forall. intros b Hb.
  destruct (In_nth l b false Hb) as (j & Hj & <-). apply H. exact Hj.
Qed.

Lemma nth_false_not_all (l : list bool) (j : nat) :
  (j < length l)%nat -> nth j l false = false -> all l = false.
Proof.
  intros Hj Hn. destruct (all l) eqn:E; [| reflexivity].
  unfold all in E. rewrite forallb_forall in E.
  rewrite <- Hn. symmetry. apply E. apply nth_In. exact Hj.
Qed.

Lemma mbind_modify {B} (f : Plane -> Plane) (k : unit -> M B) (p : Plane) :
  mbind (modify f) k p = k tt (f p).
Proof. reflexivity. Qed.

Lemma mbind_read {A B} (f : Plane -> A) (k : A -> M B) (p : Plane) :
  mbind (read f) k p = k (f p) p.
Proof. reflexivity. Qed.

Lemma mbind_ret {A B} (a : A) (k : A -> M B) (p : Plane) :
  mbind (ret a) k p = k a p.
Proof. reflexivity. Qed.

Lemma mbind_item {A B} (f : Plane -> list A) (i : nat) (d : A)
  (k : A -> M B) (p : Plane) :
  (i < length (f p))%nat -> mbind (item f i) k p = k (nth i (f p) d) p.
Proof.
  intros Hi. unfold mbind. rewrite (item_eq f i p d) by exact Hi. reflexivity.
Qed.

Lemma mbind_assign {A B} (f : Plane -> list A) (g : list A -> Plane -> Plane)
  (i : nat) (v : A) (k : unit -> M B) (p : Plane) :
  (i < length (f p))%nat ->
  mbind (assign f g i v) k p = k tt (g (replace_at i v (f p)) p).
Proof.
  intros Hi. unfold mbind. rewrite assign_eq by exact Hi. reflexivity.
Qed.

Lemma mbind_assert_true {B} (k : unit -> M B) (p : Plane) :
  mbind (assert true) k p = k tt p.
Proof. reflexivity. Qed.

Lemma bisect_eq (i : nat) (p : Plane) :
  lengths_ok p -> (i < length (_neighbour_check p))%nat ->
  bisect i p = (bisected i p, Ok tt).
Proof.
  intros (H1 & H2 & H3 & H4) Hi. unfold bisect.
  rewrite !mbind_modify.
  rewrite (mbind_item _ i 0) by (cbn; lia).
  rewrite (mbind_item _ (i + 1) 0) by (cbn; lia).
  rewrite !mbind_modify, !mbind_read.
  cbn [_k_points _wcc_list _gaps _neighbour_check _string_status
       set_neighbour_check set_string_status set_k_points set_wcc_list
       set_gaps].
  rewrite !insert_length, H2, Nat.eqb_refl, mbind_assert_true, mbind_read.
  cbn [_k_points _wcc_list _gaps _neighbour_check _string_status
       set_neighbour_check set_string_status set_k_points set_wcc_list
       set_gaps].
  rewrite !insert_length, <- H1.
  replace (S (S (length (_neighbour_check p))) - 1)%nat
    with (S (length (_neighbour_check p))) by lia.
  rewrite Nat.eqb_refl, mbind_assert_true, mbind_read.
  cbn [_k_points _wcc_list _gaps _neighbour_check _string_status
       set_neighbour_check set_string_status set_k_points set_wcc_list
       set_gaps].
  rewrite !insert_length, H4, H1, Nat.eqb_refl, mbind_assert_true, mbind_read.
  cbn [_k_points _wcc_list _gaps _neighbour_check _string_status
       set_neighbour_check set_string_status set_k_points set_wcc_list
       set_gaps].
  rewrite !insert_length, H3, Nat.eqb_refl.
  reflexivity.
Qed.

Lemma bisected_lengths_ok (i : nat) (p : Plane) :
  lengths_ok p -> lengths_ok (bisected i p).
Proof.
  intros (H1 & H2 & H3 & H4). unfold lengths_ok, bisected.
  cbn [_k_points _wcc_list _gaps _neighbour_check _string_status].
  rewrite !insert_length. repeat split; congruence.
Qed.

Lemma set_neighbour_check_lengths_ok (i : nat) (p : Plane) :
  lengths_ok p -> (i < length (_neighbour_check p))%nat ->
  lengths_ok (set_neighbour_check (replace_at i true (_neighbour_check p)) p).
Proof.
  intros (H1 & H2 & H3 & H4) Hi. unfold lengths_ok.
  cbn [_k_points _wcc_list _gaps _neighbour_check _string_status
       set_neighbour_check].
  rewrite replace_at_length by exact Hi. repeat split; assumption.
Qed.

(** What a scan from index [i] on can do: either it inserts nothing, or it
    bisects one pair [(j, j+1)] whose spacing is not below the floor and
    returns [False]. *)
Lemma scan_outcome (l : list bool) :
  forall (i : nat) (p p' : Plane) (r : result bool),
    skipn i (_neighbour_check p) = l ->
    lengths_ok p ->
    check_neighbours_scan (enum_from i l) p = (p', r) ->
    (_k_points p' = _k_points p /\
     _string_status p' = _string_status p /\
     _cfg p' = _cfg p /\
     lengths_ok p' /\
     (forall j, (j < i)%nat ->
                nth j (_neighbour_check p') false
                = nth j (_neighbour_check p) false) /\
     (r = Ok true ->
      forall j, (i <= j < length (_neighbour_check p'))%nat ->
                nth j (_neighbour_check p') false = true) /\
     (r = Ok false -> all (_string_status p) = false))
    \/ (exists j,
          (j < length (_neighbour_check p))%nat /\
          r = Ok false /\
          Qltb (nth (j + 1) (_k_points p) 0 - nth j (_k_points p) 0)
               (min_neighbour_dist (_cfg p)) = false /\
          lengths_ok p' /\ _cfg p' = _cfg p /\
          _k_points p'
          = insert (_k_points p) (j + 1)
              ((nth j (_k_points p) 0 + nth (j + 1) (_k_points p) 0) / 2)).
Proof.
  induction l as [| status rest IH]; intros i p p' r Hskip Hok Hrun.
  - cbn in Hrun. injection Hrun as <- <-. left.
    split; [reflexivity |]. split; [reflexivity |]. split; [reflexivity |].
    split; [exact Hok |]. split; [reflexivity |].
    split; [| discriminate].
    intros _ j Hj.
    assert (Hl : length (skipn i (_neighbour_check p)) = 0%nat)
      by (rewrite Hskip; reflexivity).
    rewrite length_skipn in Hl. lia.
  - rewrite enum_from_cons in Hrun. cbn [check_neighbours_scan] in Hrun.
    destruct (skipn_cons_inv _ _ _ _ false Hskip) as (Hi & Hnth & Hrest).
    pose proof Hok as (H1 & H2 & H3 & H4).
    (* the scan goes on after flag [i] has been found or set to True *)
    assert (Hcont :
      forall p1,
        _k_points p1 = _k_points p -> _string_status p1 = _string_status p ->
        _cfg p1 = _cfg p -> lengths_ok p1 ->
        length (_neighbour_check p1) = length (_neighbour_check p) ->
        skipn (S i) (_neighbour_check p1) = rest ->
        nth i (_neighbour_check p1) false = true ->
        (forall j, (j < i)%nat -> nth j (_neighbour_check p1) false
                                  = nth j (_neighbour_check p) false) ->
        check_neighbours_scan (enum_from (S i) rest) p1 = (p', r) ->
        (_k_points p' = _k_points p /\
         _string_status p' = _string_status p /\
         _cfg p' = _cfg p /\
         lengths_ok p' /\
         (forall j, (j < i)%nat ->
                    nth j (_neighbour_check p') false
                    = nth j (_neighbour_check p) false) /\
         (r = Ok true ->
          forall j, (i <= j < length (_neighbour_check p'))%nat ->
                    nth j (_neighbour_check p') false = true) /\
         (r = Ok false -> all (_string_status p) = false))
        \/ (exists j,
              (j < length (_neighbour_check p))%nat /\
              r = Ok false /\
              Qltb (nth (j + 1) (_k_points p) 0 - nth j (_k_points p) 0)
                   (min_neighbour_dist (_cfg p)) = false /\
              lengths_ok p' /\ _cfg p' = _cfg p /\
              _k_points p'
              = insert (_k_points p) (j + 1)
                  ((nth j (_k_points p) 0 + nth (j + 1) (_k_points p) 0) / 2))).
    { intros p1 Ek Es Ec Hok1 Hlen1 Hrest1 Hnth1 Hpre1 Hrun1.
      destruct (IH (S i) p1 p' r Hrest1 Hok1 Hrun1)
        as [(a1 & a2 & a3 & a4 & a5 & a6 & a7)
           | (j & b1 & b2 & b3 & b4 & b5 & b6)].
      - left. rewrite <- Ek, <- Es, <- Ec.
        split; [exact a1 |]. split; [exact a2 |]. split; [exact a3 |].
        split; [exact a4 |].
        split; [| split].
        + intros j Hj. rewrite a5 by lia. apply Hpre1. exact Hj.
        + intros Hr j Hj. destruct (Nat.eq_dec j i) as [-> | Hne].
          * rewrite a5 by lia. exact Hnth1.
          * apply a6; [exact Hr | lia].
        + exact a7.
      - right. exists j. rewrite <- Ek, <- Ec, <- Hlen1.
        split; [exact b1 |]. split; [exact b2 |]. split; [exact b3 |].
        split; [exact b4 |]. split; [exact b5 | exact b6]. }
    destruct status.
    + apply (Hcont p); try reflexivity; assumption.
    + rewrite (mbind_item _ i false) in Hrun by lia.
      destruct (nth i (_string_status p) false) eqn:Esi.
      2: { rewrite mbind_ret in Hrun. cbn in Hrun. injection Hrun as <- <-.
           left. repeat split; try reflexivity; try assumption.
           - intros Hr. discriminate Hr.
           - intros _. apply (nth_false_not_all _ i); [lia | exact Esi]. }
      rewrite (mbind_item _ (i + 1) false) in Hrun by lia.
      destruct (nth (i + 1) (_string_status p) false) eqn:Esj.
      2: { cbn in Hrun. injection Hrun as <- <-.
           left. repeat split; try reflexivity; try assumption.
           - intros Hr. discriminate Hr.
           - intros _. apply (nth_false_not_all _ (i + 1)); [lia | exact Esj]. }
      cbn [andb] in Hrun. unfold mbind at 1 in Hrun.
      unfold _check_single_neighbour at 1 in Hrun. cbv beta in Hrun.
      match type of Hrun with
      | match ?c with _ => _ end = _ => destruct c as [ok | e] eqn:Ec
      end.
      2: { injection Hrun as <- <-.
           left. repeat split; try reflexivity; try assumption;
             intros Hr; discriminate Hr. }
      assert (Hset :
        check_neighbours_scan (enum_from (S i) rest)
          (set_neighbour_check (replace_at i true (_neighbour_check p)) p)
        = (p', r) -> _ ) by
        (intros Hrun1;
         apply (Hcont (set_neighbour_check
                         (replace_at i true (_neighbour_check p)) p));
         [ reflexivity | reflexivity | reflexivity
         | apply set_neighbour_check_lengths_ok; assumption
         | cbn [_neighbour_check set_neighbour_check];
           apply replace_at_length; exact Hi
         | cbn [_neighbour_check set_neighbour_check];
           rewrite skipn_replace_at by exact Hi; exact Hrest
         | cbn [_neighbour_check set_neighbour_check];
           rewrite nth_replace_at by exact Hi; rewrite Nat.eqb_refl;
           reflexivity
         | intros j Hj; cbn [_neighbour_check set_neighbour_check];
           rewrite nth_replace_at by exact Hi;
           destruct (Nat.eqb_spec j i); [lia | reflexivity]
         | exact Hrun1 ]).
      destruct ok.
      * rewrite mbind_assign in Hrun by exact Hi. apply Hset. exact Hrun.
      * rewrite (mbind_item _ (i + 1) 0) in Hrun by lia.
        rewrite (mbind_item _ i 0) in Hrun by lia.
        rewrite mbind_read in Hrun.
        destruct (Qltb _ _) eqn:Ed in Hrun.
        -- rewrite mbind_assign in Hrun by exact Hi. apply Hset. exact Hrun.
        -- unfold mbind in Hrun. rewrite bisect_eq in Hrun by assumption.
           cbn [ret] in Hrun. injection Hrun as <- <-.
           right. exists i.
           split; [exact Hi |]. split; [reflexivity |]. split; [exact Ed |].
           split; [apply bisected_lengths_ok; exact Hok |].
           split; reflexivity.
Qed.

(** ** The surface invariant *)

Lemma range_0_len (n : Z) : length (range 0 n) = Z.to_nat n.
Proof. unfold range. rewrite length_map, length_seq. f_equal. lia. Qed.

Lemma initialise_lengths_ok (p : Plane) :
  (2 <= num_strings (_cfg p))%Z ->
  lengths_ok (initialise p) /\
  length (_k_points (initialise p)) = Z.to_nat (num_strings (_cfg p)).
Proof.
  intros Hn. unfold lengths_ok, initialise, linspace_half.
  cbn [_k_points _wcc_list _gaps _neighbour_check _string_status].
  rewrite length_map, range_0_len, !repeat_length.
  repeat split. lia.
Qed.

Lemma check_neighbours_outcome (p p' : Plane) (r : result bool) :
  lengths_ok p ->
  _check_neighbours p = (p', r) ->
  (_k_points p' = _k_points p /\
   _string_status p' = _string_status p /\
   _cfg p' = _cfg p /\
   lengths_ok p' /\
   (r = Ok true -> all (_neighbour_check p') = true) /\
   (r = Ok false -> all (_string_status p) = false))
  \/ (exists j,
        (j < length (_neighbour_check p))%nat /\
        r = Ok false /\
        Qltb (nth (j + 1) (_k_points p) 0 - nth j (_k_points p) 0)
             (min_neighbour_dist (_cfg p)) = false /\
        lengths_ok p' /\ _cfg p' = _cfg p /\
        _k_points p'
        = insert (_k_points p) (j + 1)
            ((nth j (_k_points p) 0 + nth (j + 1) (_k_points p) 0) / 2)).
Proof.
  intros Hok Hrun. unfold _check_neighbours in Hrun.
  rewrite enumerate_enum_from in Hrun.
  destruct (scan_outcome _ 0 p p' r eq_refl Hok Hrun)
    as [(a1 & a2 & a3 & a4 & a5 & a6 & a7) | H]; [left | right; exact H].
  repeat split; try assumption; try apply a4.
  intros Hr. apply all_nth. intros j Hj. apply a6; [exact Hr | lia].
Qed.

Section Surface.

Variable Mats : Type.
Variable M_handle : Q -> Z -> result Mats.
Variable trywcc : Mats -> result (list Q * Q).

Local Abbreviation line := (solve_line Mats M_handle trywcc).
Local Abbreviation pass := (solve_pass Mats M_handle trywcc).
Local Abbreviation body := (loop_body Mats M_handle trywcc).
Local Abbreviation loop := (wcc_loop Mats M_handle trywcc).
Local Abbreviation step := (engine_step Mats M_handle trywcc).
Local Abbreviation steps := (engine_steps Mats M_handle trywcc).

Lemma engine_step_invariant (p p' : Plane) :
  lengths_ok p -> step p p' ->
  lengths_ok p' /\ _cfg p' = _cfg p /\
  grows (_k_points p) (_k_points p') /\
  (length (_k_points p') <= S (length (_k_points p)))%nat.
Proof.
  intros Hok Hstep. destruct Hstep as [ikx p | p | p].
  - pose proof (keeps_solve_line Mats M_handle trywcc ikx p) as Hs.
    split; [exact (same_shape_lengths_ok _ _ Hs Hok) |].
    destruct Hs as (a1 & a2 & _). rewrite a1, a2.
    split; [reflexivity |]. split; [constructor | lia].
  - destruct (_check_neighbours p) as [p' r] eqn:E. cbn [fst].
    destruct (check_neighbours_outcome p p' r Hok E)
      as [(a1 & a2 & a3 & a4 & _) | (j & b1 & b2 & b3 & b4 & b5 & b6)].
    + rewrite a1. repeat split; try assumption; try apply a4;
        [constructor | lia].
    + rewrite b6, insert_length.
      split; [exact b4 |]. split; [exact b5 |].
      split; [constructor; constructor | lia].
  - pose proof (keeps_save_shape p) as Hs.
    split; [exact (same_shape_lengths_ok _ _ Hs Hok) |].
    destruct Hs as (a1 & a2 & _). rewrite a1, a2.
    split; [reflexivity |]. split; [constructor | lia].
Qed.

Lemma engine_steps_trans (p1 p2 p3 : Plane) :
  steps p1 p2 -> steps p2 p3 -> steps p1 p3.
Proof.
  intros H12 H23. induction H23 as [| p2 p3 p4 H IH Hs]; [exact H12 |].
  apply steps_more with p3; [apply IH; exact H12 | exact Hs].
Qed.

Lemma engine_steps_invariant (p p' : Plane) :
  lengths_ok p -> steps p p' ->
  lengths_ok p' /\ _cfg p' = _cfg p /\ grows (_k_points p) (_k_points p').
Proof.
  intros Hok Hsteps. induction Hsteps as [| p p' p'' H IH Hs].
  - split; [exact Hok |]. split; [reflexivity | constructor].
  - destruct (IH Hok) as (c1 & c2 & c3).
    destruct (engine_step_invariant p' p'' c1 Hs) as (d1 & d2 & d3 & _).
    split; [exact d1 |]. split; [congruence |].
    apply grows_trans with (_k_points p'); assumption.
Qed.

Lemma solve_pass_steps (l : list (nat * Q)) (p : Plane) :
  steps p (fst (mfor_each l line p)).
Proof.
  revert p. induction l as [| a l IH]; intros p; cbn [mfor_each].
  - constructor.
  - unfold mbind. pose proof (step_line Mats M_handle trywcc a p) as Hs.
    destruct (line a p) as [p1 [[] | e]]; cbn [fst] in *.
    + apply engine_steps_trans with p1; [| apply IH].
      apply steps_more with p; [constructor | exact Hs].
    + apply steps_more with p; [constructor | exact Hs].
Qed.

Lemma loop_body_steps (p : Plane) : steps p (fst (body p)).
Proof.
  unfold loop_body. unfold mbind at 1. unfold solve_pass.
  pose proof (solve_pass_steps (enumerate (_k_points p)) p) as Hp.
  destruct (mfor_each (enumerate (_k_points p)) line p) as [p1 [[] | e]];
    cbn [fst] in *; [| exact Hp].
  rewrite mbind_read.
  destruct (no_neighbour_check (_cfg p1)); cbn [negb].
  - rewrite mbind_read. destruct (verbose (_cfg p1)); exact Hp.
  - unfold mbind. pose proof (step_check Mats M_handle trywcc p1) as Hc.
    destruct (_check_neighbours p1) as [p2 [b | e]]; cbn [fst] in *;
      (apply steps_more with p1; [exact Hp | exact Hc]).
Qed.

Lemma wcc_loop_steps (fuel : nat) (p p' : Plane) (r : result unit) :
  loop fuel p = Some (p', r) -> steps p p'.
Proof.
  revert p. induction fuel as [| fuel IH]; intros p H; [discriminate H |].
  cbn [wcc_loop] in H.
  destruct (all (_neighbour_check p)).
  { injection H as <- <-. constructor. }
  pose proof (loop_body_steps p) as Hb.
  destruct (body p) as [p1 [[] | e]]; cbn [fst] in Hb.
  - apply engine_steps_trans with p1; [exact Hb | apply IH; exact H].
  - injection H as <- <-. exact Hb.
  - injection H as <- <-. exact Hb.
Qed.

End Surface.

Lemma parse_input_ok (Mats : Type) (kwargs : list kwarg) (p p1 : Plane)
  (u : unit) :
  parse_input kwargs p = (p1, Ok u) ->
  p1 = set_cfg (update (_defaults p) kwargs) p /\
  (8 <= num_strings (_cfg p1))%Z.
Proof.
  unfold parse_input. rewrite mbind_modify, mbind_read.
  cbn [_cfg set_cfg].
  destruct (Z.ltb_spec (num_strings (update (_defaults p) kwargs)) 2);
    [intros H'; discriminate H' |].
  destruct (Z.ltb_spec (num_strings (update (_defaults p) kwargs)) 8);
    [intros H'; discriminate H' |].
  intros H'. injection H' as <- _. split; [reflexivity | assumption].
Qed.

(** C9.  The lengths of the five lists of the surface: (a) the block that
    initialises them gives one neighbour flag less than lines and one WCC
    list, gap and status per line; (b) every step at which the state is
    observed (a line of the pass treated, a call of [_check_neighbours]
    returned or raised, a [_save]) keeps this, keeps or extends [_k_points]
    by insertions only, and never shortens it; (c) every run of the [while]
    loop is a sequence of such steps; (d) hence the plane returned by
    [wcc_calc] has matching lengths and its [_k_points] are the initial
    grid with lines inserted. *)
Theorem surface_lengths_invariant
  (Mats : Type) (M_handle : Q -> Z -> result Mats)
  (trywcc : Mats -> result (list Q * Q)) :
  (forall p, (2 <= num_strings (_cfg p))%Z ->
             lengths_ok (initialise p) /\
             length (_neighbour_check (initialise p))
             = (length (_k_points (initialise p)) - 1)%nat) /\
  (forall p p', lengths_ok p -> engine_step Mats M_handle trywcc p p' ->
                lengths_ok p' /\
                length (_neighbour_check p') = (length (_k_points p') - 1)%nat /\
                grows (_k_points p) (_k_points p') /\
                (length (_k_points p) <= length (_k_points p'))%nat) /\
  (forall fuel p p' r,
      wcc_loop Mats M_handle trywcc fuel p = Some (p', r) ->
      engine_steps Mats M_handle trywcc p p') /\
  (forall fuel kwargs p p' r,
      wcc_calc Mats M_handle trywcc fuel kwargs p = Some (p', Ok r) ->
      lengths_ok p' /\
      length (_neighbour_check p') = (length (_k_points p') - 1)%nat /\
      grows (linspace_half (num_strings (_cfg p'))) (_k_points p')).
Proof.
  split; [| split; [| split]].
  - intros p Hn. destruct (initialise_lengths_ok p Hn) as [Hok Hlen].
    split; [exact Hok |]. destruct Hok as (H1 & _). lia.
  - intros p p' Hok Hstep.
    destruct (engine_step_invariant Mats M_handle trywcc p p' Hok Hstep)
      as (a1 & a2 & a3 & a4).
    split; [exact a1 |]. split; [destruct a1 as (H1 & _); lia |].
    split; [exact a3 | apply grows_length; exact a3].
  - intros fuel p p' r. apply wcc_loop_steps.
  - intros fuel kwargs p p' r H. unfold wcc_calc in H.
    destruct (parse_input kwargs p) as [p1 [u | e]] eqn:Ep;
      [| discriminate H].
    destruct (parse_input_ok Mats kwargs p p1 u Ep) as [-> Hn].
    set (p1 := set_cfg (update (_defaults p) kwargs) p) in *.
    destruct (wcc_loop Mats M_handle trywcc fuel (initialise p1))
      as [[p2 [u' | e]] |] eqn:El; try discriminate H.
    injection H as <- _.
    destruct (initialise_lengths_ok p1) as [Hok _]; [lia |].
    apply wcc_loop_steps in El.
    destruct (engine_steps_invariant Mats M_handle trywcc _ _ Hok El)
      as (c1 & c2 & c3).
    pose proof (keeps_save_shape p2) as Hs.
    pose proof (same_shape_lengths_ok _ _ Hs c1) as Hok3.
    destruct Hs as (s1 & s2 & _).
    split; [exact Hok3 |]. split; [destruct Hok3 as (H1 & _); lia |].
    rewrite s1, s2, c2. exact c3.
Qed.

Lemma surface_lengths_invariant_witness :
  exists p' r,
    wcc_calc Z count_M_handle steady_trywcc 20 refining_kwargs fresh_plane
    = Some (p', Ok r) /\
    length (_k_points p') = 21%nat /\
    lengths_ok p' /\
    length (_neighbour_check p') = (length (_k_points p') - 1)%nat /\
    grows (linspace_half (num_strings (_cfg p'))) (_k_points p').
Proof.
  destruct (wcc_calc Z count_M_handle steady_trywcc 20 refining_kwargs
                     fresh_plane) as [[p' [r | e]] |] eqn:E;
    try (vm_compute in E; discriminate E).
  exists p', r. split; [reflexivity |].
  split; [vm_compute in E; injection E as <- _; reflexivity |].
  exact (proj2 (proj2 (proj2
           (surface_lengths_invariant Z count_M_handle steady_trywcc)))
           20%nat refining_kwargs fresh_plane p' r E).
Defined.

(** ** Termination of the surface engine *)

Lemma getitem_Ok_nth {A} (l : list A) (i : nat) (a d : A) :
  getitem l (Z.of_nat i) = Ok a -> (i < length l)%nat /\ nth i l d = a.
Proof.
  intros H. destruct (Nat.lt_ge_cases i (length l)) as [Hi | Hi].
  - rewrite (getitem_nth l i d Hi) in H. injection H as <-.
    split; [exact Hi | reflexivity].
  - rewrite getitem_out in H by exact Hi. discriminate H.
Qed.

Lemma assign_Ok {A} (f : Plane -> list A) (g : list A -> Plane -> Plane)
  (i : nat) (v : A) (p p' : Plane) (u : unit) :
  assign f g i v p = (p', Ok u) ->
  (i < length (f p))%nat /\ p' = g (replace_at i v (f p)) p.
Proof.
  unfold assign. intros H.
  destruct (Nat.lt_ge_cases i (length (f p))) as [Hi | Hi].
  - rewrite setitem_replace in H by exact Hi. injection H as <-.
    split; [exact Hi | reflexivity].
  - rewrite setitem_out in H by exact Hi. discriminate H.
Qed.

Section Termination.

Variable Mats : Type.
Variable M_handle : Q -> Z -> result Mats.
Variable trywcc : Mats -> result (list Q * Q).

Local Abbreviation line := (solve_line Mats M_handle trywcc).
Local Abbreviation pass := (solve_pass Mats M_handle trywcc).
Local Abbreviation body := (loop_body Mats M_handle trywcc).
Local Abbreviation loop := (wcc_loop Mats M_handle trywcc).

(** A line that was treated without an exception is solved afterwards, and
    the status of the other lines is as before. *)
Lemma solve_line_status (i : nat) (kx : Q) (p p' : Plane) (u : unit) :
  line (i, kx) p = (p', Ok u) ->
  nth i (_string_status p') false = true /\
  (forall j, j <> i -> nth j (_string_status p') false
                       = nth j (_string_status p) false).
Proof.
  unfold solve_line. unfold mbind at 1. unfold item at 1.
  destruct (getitem (_string_status p) (Z.of_nat i)) as [st | e] eqn:Es;
    [| intros H; discriminate H].
  destruct (getitem_Ok_nth _ _ _ false Es) as [Hi Hst].
  destruct st.
  { intros H. injection H as <- _. split; [exact Hst | reflexivity]. }
  unfold mbind at 1.
  destruct (_getwcc Mats M_handle trywcc (_cfg p) kx) as [w | e];
    [| intros H; discriminate H].
  unfold mbind at 1.
  destruct (assign _wcc_list set_wcc_list i w (log_solver_call kx p))
    as [p1 [u1 | e]] eqn:E1; [| intros H; discriminate H].
  apply assign_Ok in E1. destruct E1 as [_ ->].
  unfold mbind at 1. unfold item at 1.
  match goal with
  | |- context [ getitem ?l ?k ] => destruct (getitem l k) as [w' | e]
  end; [| intros H; discriminate H].
  unfold mbind at 1, lift at 1.
  destruct (_gapfind w') as [g | e]; [| intros H; discriminate H].
  unfold mbind at 1.
  match goal with
  | |- context [ assign _gaps set_gaps i ?v ?q ] =>
      destruct (assign _gaps set_gaps i v q) as [p2 [u2 | e]] eqn:E2
  end; [| intros H; discriminate H].
  apply assign_Ok in E2. destruct E2 as [_ ->].
  unfold mbind at 1.
  match goal with
  | |- context [ assign _string_status set_string_status i ?v ?q ] =>
      destruct (assign _string_status set_string_status i v q)
        as [p3 [u3 | e]] eqn:E3
  end; [| intros H; discriminate H].
  apply assign_Ok in E3. destruct E3 as [_ ->].
  intros H.
  assert (Hss : _string_status p'
                = replace_at i true (_string_status p)).
  { unfold _save in H.
    match type of H with
    | (if ?c then _ else _) = _ => destruct c
    end; injection H as <- _; reflexivity. }
  rewrite Hss. split.
  - rewrite nth_replace_at by exact Hi. rewrite Nat.eqb_refl. reflexivity.
  - intros j Hj. rewrite nth_replace_at by exact Hi.
    destruct (Nat.eqb_spec j i); [contradiction | reflexivity].
Qed.

Lemma solve_pass_from (l : list Q) :
  forall (i : nat) (p p' : Plane) (u : unit),
    (forall j, (j < i)%nat -> nth j (_string_status p) false = true) ->
    mfor_each (combine (seq i (length l)) l) line p = (p', Ok u) ->
    forall j, (j < i + length l)%nat ->
              nth j (_string_status p') false = true.
Proof.
  induction l as [| kx l IH]; intros i p p' u Hpre Hrun j Hj.
  - cbn in Hrun. injection Hrun as <- _. apply Hpre. cbn in Hj. lia.
  - cbn [length seq combine mfor_each] in Hrun. unfold mbind in Hrun.
    destruct (line (i, kx) p) as [p1 [u1 | e]] eqn:E1; [| discriminate Hrun].
    destruct (solve_line_status i kx p p1 u1 E1) as [Hi Hother].
    apply (IH (S i) p1 p' u); [| exact Hrun | cbn [length] in Hj; lia].
    intros k Hk. destruct (Nat.eq_dec k i) as [-> | Hne]; [exact Hi |].
    rewrite Hother by exact Hne. apply Hpre. lia.
Qed.

Lemma solve_pass_all_solved (p p' : Plane) (u : unit) :
  lengths_ok p -> pass p = (p', Ok u) -> all (_string_status p') = true.
Proof.
  intros Hok Hrun.
  pose proof (keeps_solve_pass Mats M_handle trywcc p) as Hs.
  rewrite Hrun in Hs. cbn [fst] in Hs.
  destruct Hs as (_ & _ & _ & _ & _ & Hlen).
  destruct Hok as (_ & _ & _ & H4).
  apply all_nth. intros j Hj.
  unfold solve_pass, enumerate in Hrun.
  apply (solve_pass_from (_k_points p) 0 p p' u);
    [intros k Hk; lia | exact Hrun |].
  cbn. lia.
Qed.

End Termination.

(** *** The potential of the line positions *)

Lemma pair_potential_nonneg (m d : Q) : 0 < m -> 0 <= pair_potential m d.
Proof.
  intros Hm. unfold pair_potential.
  destruct (Qltb d m) eqn:E; [apply Qle_refl |].
  apply Qltb_ge in E.
  assert (H : 1 <= 2 * d / m) by (apply Qle_shift_div_l; lra).
  lra.
Qed.

Lemma potential_nonneg (m : Q) (ks : list Q) : 0 < m -> 0 <= potential m ks.
Proof.
  intros Hm. induction ks as [| a ks IH]; [apply Qle_refl |].
  destruct ks as [| b t]; [apply Qle_refl |].
  change (0 <= pair_potential m (b - a) + potential m (b :: t)).
  pose proof (pair_potential_nonneg m (b - a) Hm). lra.
Qed.

Lemma Qltb_compat (a a' m : Q) : a == a' -> Qltb a m = Qltb a' m.
Proof.
  intros E. destruct (Qltb a' m) eqn:E'.
  - apply Qltb_lt. apply Qltb_lt in E'. lra.
  - apply Qltb_ge. apply Qltb_ge in E'. lra.
Qed.

(** Bisecting a pair that is not below the floor costs one unit. *)
Lemma pair_potential_halves (m d d1 d2 : Q) :
  0 < m -> Qltb d m = false -> d1 == d / 2 -> d2 == d / 2 ->
  pair_potential m d1 + pair_potential m d2 + 1 <= pair_potential m d.
Proof.
  intros Hm Hd E1 E2. unfold pair_potential. rewrite Hd.
  rewrite (Qltb_compat d2 d1 m) by lra.
  apply Qltb_ge in Hd.
  assert (Hone : 1 <= d / m) by (apply Qle_shift_div_l; lra).
  assert (Hd1 : 2 * d1 / m == d / m) by (rewrite E1; field; lra).
  assert (Hd2 : 2 * d2 / m == d / m) by (rewrite E2; field; lra).
  assert (Hdd : 2 * d / m == 2 * (d / m)) by (field; lra).
  destruct (Qltb d1 m); lra.
Qed.

Lemma potential_insert (m : Q) :
  0 < m ->
  forall (j : nat) (ks : list Q),
    (S j < length ks)%nat ->
    Qltb (nth (S j) ks 0 - nth j ks 0) m = false ->
    potential m (insert ks (S j) ((nth j ks 0 + nth (S j) ks 0) / 2)) + 1
    <= potential m ks.
Proof.
  intros Hm. induction j as [| j IH]; intros ks Hlen Hd.
  - destruct ks as [| a [| b t]]; cbn in Hlen; try lia.
    cbn [nth] in *. unfold insert. cbn [firstn skipn app].
    change (pair_potential m ((a + b) / 2 - a)
            + (pair_potential m (b - (a + b) / 2) + potential m (b :: t)) + 1
            <= pair_potential m (b - a) + potential m (b :: t)).
    pose proof (pair_potential_halves m (b - a) ((a + b) / 2 - a)
                  (b - (a + b) / 2) Hm Hd) as H.
    assert (E1 : (a + b) / 2 - a == (b - a) / 2) by field.
    assert (E2 : b - (a + b) / 2 == (b - a) / 2) by field.
    specialize (H E1 E2). lra.
  - destruct ks as [| a [| b t]]; cbn in Hlen; try lia.
    change (nth (S (S j)) (a :: b :: t) 0) with (nth (S j) (b :: t) 0) in *.
    change (nth (S j) (a :: b :: t) 0) with (nth j (b :: t) 0) in *.
    specialize (IH (b :: t) ltac:(cbn; lia) Hd).
    unfold insert in *. cbn [firstn skipn app] in *.
    match goal with
    | |- potential m (a :: b :: ?X) + 1 <= _ =>
        change (pair_potential m (b - a) + potential m (b :: X) + 1
                <= pair_potential m (b - a) + potential m (b :: t))
    end.
    lra.
Qed.

(** *** The [while] loop ends *)

Section Bound.

Variable Mats : Type.
Variable M_handle : Q -> Z -> result Mats.
Variable trywcc : Mats -> result (list Q * Q).

Local Abbreviation pass := (solve_pass Mats M_handle trywcc).
Local Abbreviation body := (loop_body Mats M_handle trywcc).
Local Abbreviation loop := (wcc_loop Mats M_handle trywcc).

(** One turn of the loop with neighbour checks on: it raises, or sets all
    flags, or inserts one line and lowers the potential by at least one. *)
Lemma loop_body_progress (p p' : Plane) (r : result loop_exit) :
  lengths_ok p ->
  no_neighbour_check (_cfg p) = false ->
  0 < min_neighbour_dist (_cfg p) ->
  body p = (p', r) ->
  (exists e, r = Raise e) \/
  (r = Ok Continue /\ lengths_ok p' /\ _cfg p' = _cfg p /\
   (all (_neighbour_check p') = true \/
    potential (min_neighbour_dist (_cfg p)) (_k_points p') + 1
    <= potential (min_neighbour_dist (_cfg p)) (_k_points p))).
Proof.
  intros Hok Hnnc Hm Hrun. unfold loop_body in Hrun.
  unfold mbind at 1 in Hrun.
  pose proof (keeps_solve_pass Mats M_handle trywcc p) as Hs.
  destruct (pass p) as [p1 [u | e]] eqn:Ep; cbn [fst] in Hs.
  2: { injection Hrun as <- <-. left. exists e. reflexivity. }
  pose proof (solve_pass_all_solved Mats M_handle trywcc p p1 u Hok Ep)
    as Hall.
  pose proof (same_shape_lengths_ok _ _ Hs Hok) as Hok1.
  destruct Hs as (Ec & Ek & _).
  rewrite mbind_read, Ec, Hnnc in Hrun. cbn [negb] in Hrun.
  unfold mbind in Hrun.
  destruct (_check_neighbours p1) as [p2 [b | e]] eqn:Ecn.
  2: { injection Hrun as <- <-. left. exists e. reflexivity. }
  cbn [ret] in Hrun. injection Hrun as <- <-. right.
  split; [reflexivity |].
  destruct (check_neighbours_outcome p1 p2 (Ok b) Hok1 Ecn)
    as [(a1 & a2 & a3 & a4 & a5 & a6) | (j & b1 & b2 & b3 & b4 & b5 & b6)].
  - split; [exact a4 |]. split; [congruence |]. left.
    destruct b; [apply a5; reflexivity |].
    rewrite a6 in Hall by reflexivity. discriminate Hall.
  - split; [exact b4 |]. split; [congruence |]. right.
    rewrite b6, <- Ek. rewrite Ec in b3.
    rewrite !Nat.add_1_r in *.
    apply potential_insert; [exact Hm | | exact b3].
    destruct Hok1 as (H1 & _). lia.
Qed.

Lemma wcc_loop_terminates (n : nat) :
  forall (p : Plane) (fuel : nat),
    lengths_ok p ->
    no_neighbour_check (_cfg p) = false ->
    0 < min_neighbour_dist (_cfg p) ->
    potential (min_neighbour_dist (_cfg p)) (_k_points p)
    <= inject_Z (Z.of_nat n) ->
    (n + 2 <= fuel)%nat ->
    loop fuel p <> None.
Proof.
  induction n as [| n IH]; intros p fuel Hok Hnnc Hm Hpot Hfuel;
    (destruct fuel as [| fuel]; [lia |]); cbn [wcc_loop];
    (destruct (all (_neighbour_check p)); [discriminate |]);
    destruct (body p) as [p' r] eqn:Eb;
    destruct (loop_body_progress p p' r Hok Hnnc Hm Eb)
      as [[e ->] | (-> & Hok' & Ec & [Hdone | Hless])];
    try discriminate.
  - destruct fuel as [| fuel]; [lia |]. cbn [wcc_loop].
    rewrite Hdone. discriminate.
  - pose proof (potential_nonneg (min_neighbour_dist (_cfg p))
                  (_k_points p') Hm) as Hnn.
    change (inject_Z (Z.of_nat 0)) with 0 in Hpot. lra.
  - destruct fuel as [| fuel]; [lia |]. cbn [wcc_loop].
    rewrite Hdone. discriminate.
  - apply IH; try assumption; try (rewrite Ec; assumption); [| lia].
    rewrite Ec. rewrite Nat2Z.inj_succ, <- Z.add_1_r, inject_Z_plus in Hpot.
    change (inject_Z 1) with 1 in Hpot. lra.
Qed.

End Bound.



(** ** The line solver *)

Lemma convcheck_true (tol : Q) (x y : list Q) :
  _convcheck tol x y = Ok true <->
  length x = length y /\ exists d, _convsum x y tol 7 = Ok d /\ d < 1.
Proof.
  unfold _convcheck. destruct (Nat.eqb_spec (length x) (length y)) as [E | E];
    cbn [negb].
  - destruct (_convsum x y tol 7) as [d | e]; cbn [bind].
    + split.
      * intros H. injection H as H. apply Qltb_lt in H.
        split; [exact E |]. exists d. split; [reflexivity | exact H].
      * intros (_ & d' & Hd & Hlt). injection Hd as <-.
        apply Qltb_lt in Hlt. rewrite Hlt. reflexivity.
    + split; [intros H; discriminate H |].
      intros (_ & d' & Hd & _). discriminate Hd.
  - split; [intros H; discriminate H | intros [H _]; contradiction].
Qed.

Section LineSolverFacts.

Variable Mats : Type.
Variable M_handle : Q -> Z -> result Mats.
Variable trywcc : Mats -> result (list Q * Q).

Local Abbreviation gloop := (getwcc_loop Mats M_handle trywcc).
Local Abbreviation turn := (turn_result Mats M_handle trywcc).
Local Abbreviation goes := (continues Mats M_handle trywcc).

Lemma getwcc_loop_verdict (cfg : Config) (kx : Q) (N niter : Z) (x : list Q)
  (min_sv : Q) (xf : list Q) (v : verdict) :
  gloop cfg kx N niter x min_sv = Ok (xf, v) ->
  exists (s : loop_state) (svf : Q),
    goes cfg kx (N, niter, x, min_sv) s /\
    turn cfg kx s = Ok (xf, svf) /\
    ((v = Finished /\ _convcheck (wcc_tol cfg) xf (snd (fst s)) = Ok true)
     \/ (v = FailedToConverge /\
         _convcheck (wcc_tol cfg) xf (snd (fst s)) = Ok false /\
         (snd (fst (fst s)) + 1 > max_iter cfg)%Z)).
Proof.
  funelim (gloop cfg kx N niter x min_sv); intros Hres;
    try discriminate Hres.
  - (* the convergence check succeeded *)
    injection Hres as <- <-.
    exists (N, niter, x, min_sv), min_sv'.
    split; [constructor |]. split; [assumption |].
    left. split; [reflexivity | assumption].
  - (* the check failed and the count exceeds max_iter *)
    injection Hres as <- <-.
    exists (N, niter, x, min_sv), min_sv'.
    split; [constructor |]. split; [assumption |].
    right. split; [reflexivity |]. split; [assumption |]. cbn [fst snd]. lia.
  - (* the loop goes on *)
    match goal with
    | IH : forall xf v, _ -> exists s svf, _ |- _ =>
        destruct (IH xf v Hres) as (s & svf & Hgo & Hturn & Hv)
    end.
    exists s, svf. split; [| split; assumption].
    eapply continues_turn; eassumption.
Qed.


End LineSolverFacts.



(** ** The invariant *)

Lemma range_nil (a b : Z) : (b <= a)%Z -> range a b = [].
Proof.
  intros H. unfold range. replace (Z.to_nat (b - a)) with 0%nat by lia.
  reflexivity.
Qed.

Lemma range_cons (a b : Z) : (a < b)%Z -> range a b = a :: range (a + 1) b.
Proof.
  intros H. unfold range.
  replace (Z.to_nat (b - a)) with (S (Z.to_nat (b - (a + 1)))) by lia.
  cbn [seq map]. f_equal; [lia |].
  rewrite <- seq_shift, map_map. apply map_ext. intros k. lia.
Qed.

Lemma skipn_nth_cons {A} (l : list A) (i : nat) (d : A) :
  (i < length l)%nat -> skipn i l = nth i l d :: skipn (S i) l.
Proof.
  revert i. induction l as [| a l IH]; intros i Hi; cbn in Hi; [lia |].
  destruct i as [| i]; [reflexivity |]. cbn [skipn nth]. apply IH. lia.
Qed.

Lemma fold_mul_snoc (l : list Z) (s : Z) :
  fold_left Z.mul (l ++ [s]) 1%Z = (fold_left Z.mul l 1 * s)%Z.
Proof. rewrite fold_left_app. reflexivity. Qed.

Lemma firstn_snoc {A} (l : list A) (n : nat) (d : A) :
  (n < length l)%nat -> firstn (S n) l = firstn n l ++ [nth n l d].
Proof.
  revert n. induction l as [| a l IH]; intros n Hn; cbn in Hn; [lia |].
  destruct n as [| n]; [reflexivity |].
  cbn [firstn nth app]. f_equal. apply IH. lia.
Qed.

Section InvariantLoops.

Variable gaps : list (option Q).
Variable wcc_list : list (list Q).

Local Abbreviation inner := (invariant_inner gaps wcc_list).

Variable i : nat.
Variable g g' : Q.
Variable ws : list Q.
Hypothesis Hg : getitem gaps (Z.of_nat i) = Ok (Some g).
Hypothesis Hg' : getitem gaps (Z.of_nat i + 1) = Ok (Some g').
Hypothesis Hws : getitem wcc_list (Z.of_nat i + 1) = Ok ws.

Lemma sgng_at_in (j : nat) :
  (j < length ws)%nat ->
  sgng_at gaps wcc_list (Z.of_nat i) (Z.of_nat j)
  = Ok (_sgng g g' (nth j ws 0)).
Proof.
  intros Hj. unfold sgng_at. rewrite Hg, Hg', Hws. cbn [bind].
  rewrite (getitem_nth ws j 0 Hj). reflexivity.
Qed.

Lemma sgng_at_out (j : nat) :
  (length ws <= j)%nat ->
  sgng_at gaps wcc_list (Z.of_nat i) (Z.of_nat j) = Raise IndexError.
Proof.
  intros Hj. unfold sgng_at. rewrite Hg, Hg', Hws. cbn [bind].
  rewrite (getitem_out ws j Hj). reflexivity.
Qed.

Lemma inner_loop_ok (n : nat) (inv0 : Z) :
  (n <= length ws)%nat ->
  for_each (range 0 (Z.of_nat n)) (inner (Z.of_nat i)) inv0
  = Ok (inv0 * fold_left Z.mul (map (_sgng g g') (firstn n ws)) 1)%Z.
Proof.
  induction n as [| n IH]; intros Hn.
  - cbn. f_equal. lia.
  - rewrite range_0_S, for_each_app, IH by lia. cbn [bind for_each].
    unfold invariant_inner at 1. rewrite sgng_at_in by lia. cbn [bind].
    rewrite (firstn_snoc ws n 0) by lia.
    rewrite map_app. cbn [map]. rewrite fold_mul_snoc. f_equal. ring.
Qed.

Lemma inner_loop_short (n : nat) (inv0 : Z) :
  (length ws < n)%nat ->
  for_each (range 0 (Z.of_nat n)) (inner (Z.of_nat i)) inv0
  = Raise IndexError.
Proof.
  induction n as [| n IH]; intros Hn; [lia |].
  rewrite range_0_S, for_each_app.
  destruct (Nat.eq_dec (length ws) n) as [E | E].
  - rewrite inner_loop_ok by lia. cbn [bind for_each].
    unfold invariant_inner at 1. rewrite sgng_at_out by lia. reflexivity.
  - rewrite IH by lia. reflexivity.
Qed.

End InvariantLoops.

Section InvariantOfLines.

Variable lines : list (Q * list Q).

Local Abbreviation gaps := (lines_gaps lines).
Local Abbreviation wccs := (lines_wccs lines).
Local Abbreviation outer := (invariant_outer gaps wccs).

Lemma lines_gap (i : nat) :
  (i < length lines)%nat ->
  getitem gaps (Z.of_nat i) = Ok (Some (fst (nth i lines nil_line))).
Proof.
  intros Hi. unfold lines_gaps.
  rewrite (getitem_nth _ i (Some (fst nil_line)))
    by (rewrite length_map; exact Hi).
  rewrite (map_nth (fun l => Some (fst l))). reflexivity.
Qed.

Lemma lines_wcc (i : nat) :
  (i < length lines)%nat ->
  getitem wccs (Z.of_nat i) = Ok (snd (nth i lines nil_line)).
Proof.
  intros Hi. unfold lines_wccs.
  rewrite (getitem_nth _ i (snd nil_line)) by (rewrite length_map; exact Hi).
  rewrite (map_nth snd). reflexivity.
Qed.

Lemma lines_row0 :
  (0 < length lines)%nat ->
  exists row0, getitem wccs 0 = Ok row0 /\ length row0 = width lines.
Proof.
  intros Hl. exists (snd (nth 0%nat lines nil_line)).
  split; [apply (lines_wcc 0 Hl) |].
  destruct lines; [cbn in Hl; lia | reflexivity].
Qed.

Lemma outer_step_ok (i : nat) (inv0 : Z) :
  (S i < length lines)%nat ->
  (width lines <= length (snd (nth (S i) lines nil_line)))%nat ->
  outer (Z.of_nat i) inv0
  = Ok (inv0 * fold_left Z.mul
                 (map (_sgng (fst (nth i lines nil_line))
                             (fst (nth (S i) lines nil_line)))
                      (firstn (width lines)
                              (snd (nth (S i) lines nil_line)))) 1)%Z.
Proof.
  intros Hi Hw. unfold invariant_outer.
  destruct lines_row0 as (row0 & Hr & Hlen); [lia |].
  rewrite Hr. cbn [bind]. rewrite Hlen.
  apply (inner_loop_ok gaps wccs i
           (fst (nth i lines nil_line)) (fst (nth (S i) lines nil_line))
           (snd (nth (S i) lines nil_line))).
  - apply lines_gap. lia.
  - replace (Z.of_nat i + 1)%Z with (Z.of_nat (S i)) by lia.
    apply lines_gap. exact Hi.
  - replace (Z.of_nat i + 1)%Z with (Z.of_nat (S i)) by lia.
    apply lines_wcc. exact Hi.
  - exact Hw.
Qed.

Lemma outer_step_short (i : nat) (inv0 : Z) :
  (S i < length lines)%nat ->
  (length (snd (nth (S i) lines nil_line)) < width lines)%nat ->
  outer (Z.of_nat i) inv0 = Raise IndexError.
Proof.
  intros Hi Hw. unfold invariant_outer.
  destruct lines_row0 as (row0 & Hr & Hlen); [lia |].
  rewrite Hr. cbn [bind]. rewrite Hlen.
  apply (inner_loop_short gaps wccs i
           (fst (nth i lines nil_line)) (fst (nth (S i) lines nil_line))
           (snd (nth (S i) lines nil_line))).
  - apply lines_gap. lia.
  - replace (Z.of_nat i + 1)%Z with (Z.of_nat (S i)) by lia.
    apply lines_gap. exact Hi.
  - replace (Z.of_nat i + 1)%Z with (Z.of_nat (S i)) by lia.
    apply lines_wcc. exact Hi.
  - exact Hw.
Qed.

Lemma sign_product_skipn (i : nat) :
  (S i < length lines)%nat ->
  sign_product _sgng (skipn i (truncate_lines (width lines) lines))
  = (fold_left Z.mul
       (map (_sgng (fst (nth i lines nil_line))
                   (fst (nth (S i) lines nil_line)))
            (firstn (width lines) (snd (nth (S i) lines nil_line)))) 1
     * sign_product _sgng (skipn (S i) (truncate_lines (width lines) lines)))%Z.
Proof.
  intros Hi. unfold truncate_lines.
  set (f := fun l : Q * list Q => (fst l, firstn (width lines) (snd l))).
  assert (Hlen : length (map f lines) = length lines) by apply length_map.
  rewrite (skipn_nth_cons (map f lines) i (f nil_line)) by lia.
  rewrite (skipn_nth_cons (map f lines) (S i) (f nil_line)) by lia.
  rewrite !(map_nth f). reflexivity.
Qed.

Lemma sign_product_last (i : nat) :
  S i = length lines ->
  sign_product _sgng (skipn i (truncate_lines (width lines) lines)) = 1%Z.
Proof.
  intros Hi. unfold truncate_lines.
  set (f := fun l : Q * list Q => (fst l, firstn (width lines) (snd l))).
  assert (Hlen : length (map f lines) = length lines) by apply length_map.
  rewrite (skipn_nth_cons (map f lines) i (f nil_line)) by lia.
  rewrite skipn_all2 by lia. destruct (nth i (map f lines) (f nil_line)).
  reflexivity.
Qed.

Lemma outer_loop_ok (k : nat) :
  forall (i : nat) (inv0 : Z),
    (i + k + 1 = length lines)%nat ->
    (forall t, (i < t < length lines)%nat ->
               (width lines <= length (snd (nth t lines nil_line)))%nat) ->
    for_each (range (Z.of_nat i) (Z.of_nat (length lines) - 1)) outer inv0
    = Ok (inv0 * sign_product _sgng
                   (skipn i (truncate_lines (width lines) lines)))%Z.
Proof.
  induction k as [| k IH]; intros i inv0 Hik Hw.
  - rewrite range_nil by lia. cbn [for_each].
    rewrite sign_product_last by lia. f_equal. lia.
  - rewrite range_cons by lia. cbn [for_each].
    rewrite outer_step_ok by (try apply Hw; lia).
    replace (Z.of_nat i + 1)%Z with (Z.of_nat (S i)) by lia.
    rewrite IH by (try lia; intros t Ht; apply Hw; lia).
    rewrite (sign_product_skipn i) by lia. f_equal. ring.
Qed.

Lemma outer_loop_short (k : nat) :
  forall (i : nat) (inv0 : Z),
    (i + k + 1 = length lines)%nat ->
    (exists t, (i < t < length lines)%nat /\
               (length (snd (nth t lines nil_line)) < width lines)%nat) ->
    for_each (range (Z.of_nat i) (Z.of_nat (length lines) - 1)) outer inv0
    = Raise IndexError.
Proof.
  induction k as [| k IH]; intros i inv0 Hik (t & Ht & Hshort); [lia |].
  rewrite range_cons by lia. cbn [for_each].
  destruct (Nat.lt_ge_cases (length (snd (nth (S i) lines nil_line)))
                            (width lines)) as [Hlt | Hge].
  - rewrite outer_step_short by (try exact Hlt; lia). reflexivity.
  - rewrite outer_step_ok by (try exact Hge; lia).
    replace (Z.of_nat i + 1)%Z with (Z.of_nat (S i)) by lia.
    apply IH; [lia |]. exists t. split; [| exact Hshort].
    destruct (Nat.eq_dec t (S i)) as [-> | Hne]; lia.
Qed.

End InvariantOfLines.

Lemma nth_in_tl {A} (l : list A) (t : nat) (d : A) :
  (0 < t < length l)%nat -> In (nth t l d) (tl l).
Proof.
  destruct l as [| a l]; cbn [length]; [lia |].
  destruct t as [| t]; [lia |]. intros Ht. cbn [nth tl].
  apply nth_In. lia.
Qed.

Lemma in_tl_nth {A} (l : list A) (x d : A) :
  In x (tl l) -> exists t, (0 < t < length l)%nat /\ nth t l d = x.
Proof.
  destruct l as [| a l]; cbn [tl]; [intros []|].
  intros Hin. destruct (In_nth l x d Hin) as (t & Ht & E).
  exists (S t). cbn [length nth]. split; [lia | exact E].
Qed.

(** [invariant] on solved lines none of which is shorter than the first:
    the product runs over the first [width] WCCs of each later line. *)
Lemma invariant_of_lines (cfg : Config) (ks : list Q)
  (lines : list (Q * list Q)) :
  (forall l, In l (tl lines) -> (width lines <= length (snd l))%nat) ->
  invariant (plane_of_lines cfg ks lines)
  = Ok (if (sign_product _sgng (truncate_lines (width lines) lines) =? -1)%Z
        then 1%Z else 0%Z).
Proof.
  intros Hw. unfold invariant, plane_of_lines.
  cbn [has_results negb _wcc_list _gaps]. unfold lines_wccs at 1.
  rewrite length_map.
  destruct lines as [| l0 rest] eqn:El.
  { reflexivity. }
  rewrite <- El in *.
  pose proof (outer_loop_ok lines (length lines - 1) 0 1) as H.
  cbv zeta in H. cbn [Z.of_nat] in H.
  rewrite H.
  - cbn [bind skipn]. rewrite Z.mul_1_l. reflexivity.
  - rewrite El. cbn [length]. lia.
  - intros t Ht. apply Hw. apply nth_in_tl. lia.
Qed.

(** [invariant] on solved lines one of which, after the first, is shorter
    than the first. *)
Lemma invariant_short_line (cfg : Config) (ks : list Q)
  (lines : list (Q * list Q)) :
  (exists l, In l (tl lines) /\ (length (snd l) < width lines)%nat) ->
  invariant (plane_of_lines cfg ks lines) = Raise IndexError.
Proof.
  intros (l & Hin & Hshort). unfold invariant, plane_of_lines.
  cbn [has_results negb _wcc_list _gaps]. unfold lines_wccs at 1.
  rewrite length_map.
  destruct (in_tl_nth lines l nil_line Hin) as (t & Ht & E).
  pose proof (outer_loop_short lines (length lines - 1) 0 1) as H.
  cbv zeta in H. cbn [Z.of_nat] in H.
  rewrite H.
  - reflexivity.
  - lia.
  - exists t. split; [lia |]. rewrite E. exact Hshort.
Qed.

Lemma truncate_lines_all (n : nat) (lines : list (Q * list Q)) :
  (forall l, In l lines -> length (snd l) = n) ->
  truncate_lines n lines = lines.
Proof.
  intros H. unfold truncate_lines.
  rewrite <- (map_id lines) at 2. apply map_ext_in.
  intros [g ws] Hin. cbn [fst snd]. f_equal.
  apply firstn_all2. specialize (H _ Hin). cbn in H. lia.
Qed.

(** *** The sign of a pair *)

Lemma sgng_sign_formula (g g' w : Q) :
  _sgng g g' w
  = if (sign_formula g g' w =? 0)%Z then 1%Z else sign_formula g g' w.
Proof.
  unfold _sgng, sign_formula, copysign1, sgn.
  set (v := (sin (2 * PI * Q2R (g' - g)) + sin (2 * PI * Q2R (w - g'))
             + sin (2 * PI * Q2R (g - w)))%R).
  destruct (Rle_dec 0 v) as [Hle | Hnle];
    destruct (Rlt_dec 0 v) as [Hlt | Hnlt]; try reflexivity; try lra.
  - destruct (Rlt_dec v 0); [lra | reflexivity].
  - destruct (Rlt_dec v 0); [reflexivity | lra].
Qed.

Lemma sines_flat :
  (sin (2 * PI * Q2R (0 - 0)) + sin (2 * PI * Q2R ((1 # 2) - 0))
   + sin (2 * PI * Q2R (0 - (1 # 2))))%R = 0%R.
Proof.
  replace (Q2R (0 - 0)) with 0%R by (unfold Q2R; cbn; lra).
  replace (Q2R ((1 # 2) - 0)) with (1 / 2)%R by (unfold Q2R; cbn; lra).
  replace (Q2R (0 - (1 # 2))) with (- (1 / 2))%R by (unfold Q2R; cbn; lra).
  replace (2 * PI * 0)%R with 0%R by lra.
  replace (2 * PI * (1 / 2))%R with PI by lra.
  replace (2 * PI * - (1 / 2))%R with (- PI)%R by lra.
  rewrite sin_0, sin_neg, sin_PI. lra.
Qed.

Lemma sines_jump :
  (sin (2 * PI * Q2R ((3 # 4) - 0)) + sin (2 * PI * Q2R ((1 # 4) - (3 # 4)))
   + sin (2 * PI * Q2R (0 - (1 # 4))))%R = (- 2)%R.
Proof.
  replace (Q2R ((3 # 4) - 0)) with (3 / 4)%R by (unfold Q2R; cbn; lra).
  replace (Q2R ((1 # 4) - (3 # 4))) with (- (1 / 2))%R
    by (unfold Q2R; cbn; lra).
  replace (Q2R (0 - (1 # 4))) with (- (1 / 4))%R by (unfold Q2R; cbn; lra).
  replace (2 * PI * (3 / 4))%R with (3 * (PI / 2))%R by lra.
  replace (2 * PI * - (1 / 2))%R with (- PI)%R by lra.
  replace (2 * PI * - (1 / 4))%R with (- (PI / 2))%R by lra.
  rewrite sin_3PI2, !sin_neg, sin_PI, sin_PI2. lra.
Qed.

Lemma sgng_flat : _sgng 0 0 (1 # 2) = 1%Z.
Proof.
  unfold _sgng, copysign1. rewrite sines_flat.
  destruct (Rle_dec 0 0); [reflexivity | lra].
Qed.

Lemma sign_formula_flat : sign_formula 0 0 (1 # 2) = 0%Z.
Proof.
  unfold sign_formula, sgn. rewrite sines_flat.
  destruct (Rlt_dec 0 0); [lra | reflexivity].
Qed.

Lemma sgng_jump : _sgng 0 (3 # 4) (1 # 4) = (-1)%Z.
Proof.
  unfold _sgng, copysign1. rewrite sines_jump.
  destruct (Rle_dec 0 (-2)); [lra | reflexivity].
Qed.

Lemma sign_formula_jump : sign_formula 0 (3 # 4) (1 # 4) = (-1)%Z.
Proof.
  unfold sign_formula, sgn. rewrite sines_jump.
  destruct (Rlt_dec 0 (-2)); [lra |].
  destruct (Rlt_dec (-2) 0); [reflexivity | lra].
Qed.

(** *** Lines of unequal cardinality *)

(** C5, as the code has it.  [invariant] makes no check of cardinalities:
    for every pair it runs [j] over the cardinality of the first line.  On
    solved lines none of which, after the first, has fewer WCCs than the
    first, it returns 0 or 1, computed from the first [width] WCCs of each
    later line only, so that surplus values have no effect; if a line after
    the first has fewer WCCs than the first, it raises [IndexError]. *)
Theorem invariant_no_cardinality_check (cfg : Config) (ks : list Q)
  (lines : list (Q * list Q)) :
  ((forall l, In l (tl lines) -> (width lines <= length (snd l))%nat) ->
   invariant (plane_of_lines cfg ks lines)
   = Ok (if (sign_product _sgng (truncate_lines (width lines) lines) =? -1)%Z
         then 1%Z else 0%Z)) /\
  ((exists l, In l (tl lines) /\ (length (snd l) < width lines)%nat) ->
   invariant (plane_of_lines cfg ks lines) = Raise IndexError).
Proof.
  split; [apply invariant_of_lines | apply invariant_short_line].
Qed.

Lemma invariant_no_cardinality_check_witness :
  invariant (plane_of_lines defaults [0; 1 # 2] unequal_lines)
  = Ok (if (sign_product _sgng
              (truncate_lines (width unequal_lines) unequal_lines) =? -1)%Z
        then 1%Z else 0%Z) /\
  invariant (plane_of_lines defaults [0; 1 # 2] (rev unequal_lines))
  = Raise IndexError.
Proof.
  split.
  - apply (proj1 (invariant_no_cardinality_check defaults [0; 1 # 2]
                    unequal_lines)).
    intros l [<- | []]. cbn. lia.
  - apply (proj2 (invariant_no_cardinality_check defaults [0; 1 # 2]
                    (rev unequal_lines))).
    exists (1 # 2, [0]). split; [left; reflexivity | cbn; lia].
Defined.

(** C5, counterexample.  On two solved lines with one and two WCCs,
    [invariant] returns a number, and the same one as on the lines with the
    second WCC of the second line removed. *)
Lemma invariant_truncation_counterexample :
  length (snd (nth 0 unequal_lines (0, [])))
  <> length (snd (nth 1 unequal_lines (0, []))) /\
  (exists v, invariant (plane_of_lines defaults [0; 1 # 2] unequal_lines)
             = Ok v /\ (v = 0 \/ v = 1)%Z) /\
  invariant (plane_of_lines defaults [0; 1 # 2] unequal_lines)
  = invariant (plane_of_lines defaults [0; 1 # 2] unequal_lines_cut).
Proof.
  assert (H1 : forall l, In l (tl unequal_lines) ->
                         (width unequal_lines <= length (snd l))%nat)
    by (intros l [<- | []]; cbn; lia).
  assert (H2 : forall l, In l (tl unequal_lines_cut) ->
                         (width unequal_lines_cut <= length (snd l))%nat)
    by (intros l [<- | []]; cbn; lia).
  split; [cbn; discriminate |]. split.
  - rewrite (invariant_of_lines _ _ _ H1).
    destruct (sign_product _ _ =? -1)%Z; eexists; split; eauto.
  - rewrite (invariant_of_lines _ _ _ H1), (invariant_of_lines _ _ _ H2).
    reflexivity.
Qed.

(** *** Lines of equal cardinality *)




(** * Further properties of the code *)

(** ** The gap finder on any list *)

Lemma Qfloor_unique (v : Q) (k : Z) :
  inject_Z k <= v -> v < inject_Z k + 1 -> Qfloor v = k.
Proof.
  intros Hl Hu.
  pose proof (Qfloor_le v) as Fl. pose proof (Qlt_floor v) as Fu.
  rewrite inject_Z_plus in Fu. change (inject_Z 1) with 1 in Fu.
  assert (H1 : inject_Z (Qfloor v) < inject_Z k + 1) by lra.
  assert (H2 : inject_Z k < inject_Z (Qfloor v) + 1) by lra.
  change 1 with (inject_Z 1) in H1, H2.
  rewrite <- inject_Z_plus in H1, H2.
  rewrite <- Zlt_Qlt in H1, H2. lia.
Qed.

Lemma Qmod1_unit (v : Q) : 0 <= v -> v < 1 -> Qmod1 v == v.
Proof.
  intros Hl Hu. unfold Qmod1. rewrite (Qfloor_unique v 0); [| exact Hl |].
  - change (inject_Z 0) with 0. ring.
  - change (inject_Z 0) with 0. lra.
Qed.

Lemma Qmod1_second (v : Q) : 1 <= v -> v < 2 -> Qmod1 v == v - 1.
Proof.
  intros Hl Hu. unfold Qmod1. rewrite (Qfloor_unique v 1).
  - change (inject_Z 1) with 1. ring.
  - change (inject_Z 1) with 1. exact Hl.
  - change (inject_Z 1) with 1. lra.
Qed.

(** X1.  [_gapfind] raises [IndexError] on the empty list, and on every
    non-empty list of WCCs in [[0, 1)] it returns a position in
    [[0, 1)]. *)
Theorem gapfind_defined (x : list Q) :
  (x = [] -> _gapfind x = Raise IndexError) /\
  (x <> [] -> Forall (fun w => 0 <= w /\ w < 1) x ->
   exists g, _gapfind x = Ok g /\ 0 <= g /\ g < 1).
Proof.
  split; [intros ->; reflexivity |].
  intros Hne _. destruct x as [| a x]; [contradiction |].
  destruct (gap_scan_result (sorted (a :: x))) as (p & _ & Hrun & _).
  { rewrite sorted_length. cbn. lia. }
  eexists. split; [exact Hrun |]. apply Qmod1_range.
Qed.

Lemma gapfind_defined_witness :
  exists g, _gapfind [1 # 4; 3 # 4] = Ok g /\ 0 <= g /\ g < 1.
Proof.
  apply (proj2 (gapfind_defined [1 # 4; 3 # 4])).
  - discriminate.
  - repeat (apply Forall_cons; [split; lra |]). apply Forall_nil.
Defined.

Lemma sorted_nth_le (l : list Q) :
  Sorted Qle l ->
  forall i j, (i <= j < length l)%nat -> nth i l 0 <= nth j l 0.
Proof.
  intros Hs. apply Sorted_StronglySorted in Hs;
    [| intros a b c; apply Qle_trans].
  induction Hs as [| a l Hs IH Hall]; intros i j Hij; cbn in Hij; [lia |].
  destruct i as [| i], j as [| j]; cbn [nth]; try lia.
  - apply Qle_refl.
  - rewrite Forall_forall in Hall. apply Hall. apply nth_In. lia.
  - apply IH. lia.
Qed.

Lemma widest_gap_positive (xs : list Q) (p : nat) :
  (0 < length xs)%nat ->
  (forall i, (i < length xs)%nat -> circ_gap xs i <= circ_gap xs p) ->
  0 < circ_gap xs p.
Proof.
  intros Hn Hmax. destruct (Qlt_le_dec 0 (circ_gap xs p)) as [H | H];
    [exact H | exfalso].
  assert (Hb : nth (length xs - 1) xs 0 <= nth 0%nat xs 0).
  { apply no_positive_gap_bound; [lia |].
    intros i Hi. apply Qle_trans with (circ_gap xs p); [apply Hmax; lia | exact H]. }
  assert (Hw := Hmax (length xs - 1)%nat ltac:(lia)).
  rewrite circ_gap_wrap in Hw. lra.
Qed.

Lemma Qhalf (d : Q) : d / 2 == (1 # 2) * d.
Proof. field. Qed.

(** X2.  For a non-empty list of WCCs in [[0, 1)], the position returned by
    [_gapfind] lies strictly inside the selected gap of the sorted list:
    between two consecutive elements, or, for the wrap-around gap, above
    the last or below the first element.  Hence it never coincides with a
    WCC of the list. *)
Theorem gapfind_avoids_wcc (x : list Q) :
  x <> [] ->
  Forall (fun w => 0 <= w /\ w < 1) x ->
  exists (g : Q) (p : nat),
    _gapfind x = Ok g /\
    (((S p < length x)%nat /\
      nth p (sorted x) 0 < g /\ g < nth (S p) (sorted x) 0)
     \/ (S p = length x /\
         (nth p (sorted x) 0 < g \/ g < nth 0%nat (sorted x) 0))) /\
    (forall w, In w x -> ~ g == w).
Proof.
  intros Hne Hall.
  assert (Hn : (0 < length (sorted x))%nat).
  { rewrite sorted_length. destruct x; [contradiction | cbn; lia]. }
  destruct (gap_scan_result (sorted x) Hn) as (p & Hp & Hrun & Hmax & _).
  pose proof (widest_gap_positive (sorted x) p Hn Hmax) as Hpos.
  pose proof (sorted_nth_le (sorted x) (sorted_ascending x)) as Hmono.
  assert (Hb : forall t, (t < length (sorted x))%nat ->
                         0 <= nth t (sorted x) 0 /\ nth t (sorted x) 0 < 1).
  { intros t Ht.
    pose proof (Permutation_Forall (sorted_perm x) Hall) as HF.
    rewrite Forall_forall in HF. apply HF. apply nth_In. exact Ht. }
  assert (Hlen : length (sorted x) = length x) by apply sorted_length.
  assert (Hin : forall w, In w x ->
                exists t, (t < length (sorted x))%nat /\ nth t (sorted x) 0 = w).
  { intros w Hw. apply (Permutation_in _ (sorted_perm x)) in Hw.
    destruct (In_nth (sorted x) w 0 Hw) as (t & Ht & E).
    exists t. split; [lia | exact E]. }
  exists (Qmod1 (nth p (sorted x) 0 + circ_gap (sorted x) p / 2)), p.
  split; [unfold _gapfind; exact Hrun |].
  rewrite <- Hlen. set (xs := sorted x) in *.
  destruct (Nat.ltb_spec (S p) (length xs)) as [Hinner | Hwrap].
  - (* a gap between two consecutive elements *)
    rewrite (circ_gap_inner xs p Hinner) in Hpos.
    rewrite (circ_gap_inner xs p Hinner).
    destruct (Hb p ltac:(lia)) as [Hp0 Hp1].
    destruct (Hb (S p) ltac:(lia)) as [Hq0 Hq1].
    pose proof (Qhalf (nth (S p) xs 0 - nth p xs 0)) as Hh.
    assert (E : Qmod1 (nth p xs 0 + (nth (S p) xs 0 - nth p xs 0) / 2)
                == nth p xs 0 + (nth (S p) xs 0 - nth p xs 0) / 2)
      by (apply Qmod1_unit; lra).
    split.
    + left. split; [lia |]. rewrite E. split; lra.
    + intros w Hw. destruct (Hin w Hw) as (t & Ht & <-). rewrite E.
      destruct (Nat.le_gt_cases t p) as [Hle | Hgt].
      * pose proof (Hmono t p ltac:(lia)). lra.
      * pose proof (Hmono (S p) t ltac:(lia)). lra.
  - (* the wrap-around gap *)
    assert (Ep : p = (length xs - 1)%nat) by lia.
    subst p. rewrite (circ_gap_wrap xs) in Hpos. rewrite (circ_gap_wrap xs).
    destruct (Hb 0%nat ltac:(lia)) as [Ha0 Ha1].
    destruct (Hb (length xs - 1)%nat ltac:(lia)) as [Hz0 Hz1].
    set (a := nth 0%nat xs 0) in *. set (z := nth (length xs - 1) xs 0) in *.
    pose proof (Qhalf (a - z + 1)) as Hh.
    destruct (Qlt_le_dec (z + (a - z + 1) / 2) 1) as [Hlow | Hhigh].
    + assert (E : Qmod1 (z + (a - z + 1) / 2) == z + (a - z + 1) / 2)
        by (apply Qmod1_unit; lra).
      split.
      * right. split; [lia |]. left. rewrite E. lra.
      * intros w Hw. destruct (Hin w Hw) as (t & Ht & <-). rewrite E.
        pose proof (Hmono t (length xs - 1)%nat ltac:(lia)) as Hle.
        fold z in Hle. lra.
    + assert (E : Qmod1 (z + (a - z + 1) / 2) == z + (a - z + 1) / 2 - 1)
        by (apply Qmod1_second; lra).
      split.
      * right. split; [lia |]. right. rewrite E. lra.
      * intros w Hw. destruct (Hin w Hw) as (t & Ht & <-). rewrite E.
        pose proof (Hmono 0%nat t ltac:(lia)) as Hle.
        fold a in Hle. lra.
Qed.

Lemma gapfind_avoids_wcc_witness :
  exists (g : Q) (p : nat),
    _gapfind [1 # 10; 6 # 10; 3 # 10] = Ok g /\
    (((S p < 3)%nat /\
      nth p (sorted [1 # 10; 6 # 10; 3 # 10]) 0 < g /\
      g < nth (S p) (sorted [1 # 10; 6 # 10; 3 # 10]) 0)
     \/ (S p = 3%nat /\
         (nth p (sorted [1 # 10; 6 # 10; 3 # 10]) 0 < g
          \/ g < nth 0%nat (sorted [1 # 10; 6 # 10; 3 # 10]) 0))) /\
    (forall w, In w [1 # 10; 6 # 10; 3 # 10] -> ~ g == w).
Proof.
  apply (gapfind_avoids_wcc [1 # 10; 6 # 10; 3 # 10]).
  - discriminate.
  - repeat (apply Forall_cons; [split; lra |]). apply Forall_nil.
Defined.

(** ** The neighbour check, one WCC at a time *)

Lemma Qmod1_compat (a b : Q) : a == b -> Qmod1 a == Qmod1 b.
Proof.
  intros E. unfold Qmod1. rewrite (Qfloor_comp _ _ E), E. reflexivity.
Qed.

Lemma min2_same (a b : Q) : a == b -> min2 a b == a.
Proof.
  intros E. unfold min2. destruct (Qltb b a); [symmetry; exact E | reflexivity].
Qed.

(** The number that [_check_single_direction] compares with [gap_tol], for
    a gap and a WCC in [[0, 1)]: the distance from the gap up to the WCC,
    going round the circle in the direction of increasing values. *)
Lemma check_direction_distance (w g : Q) :
  0 <= w -> w < 1 -> 0 <= g -> g < 1 ->
  min2 (Qmod1 (Qabs (1 + w - g))) (Qmod1 (Qabs (1 - g + w)))
  == if Qle_bool g w then w - g else 1 + w - g.
Proof.
  intros Hw0 Hw1 Hg0 Hg1.
  rewrite min2_same by apply check_direction_arguments_equal.
  rewrite (Qmod1_compat (Qabs (1 + w - g)) (1 + w - g))
    by (apply Qabs_pos; lra).
  destruct (Qle_bool g w) eqn:E.
  - apply Qle_bool_iff in E. rewrite Qmod1_second by lra. ring.
  - assert (Hlt : w < g).
    { apply Qnot_le_lt. rewrite <- Qle_bool_iff. congruence. }
    apply Qmod1_unit; lra.
Qed.

(** X3.  For a gap and WCCs in [[0, 1)], [_check_single_direction] never
    raises, and (in exact arithmetic) it succeeds exactly when every WCC at
    or above the gap is at least [gap_tol] above it and every WCC below the
    gap is at least [gap_tol] above it after adding 1: the distance is
    measured from the gap upwards only.  On doubles the two sums are
    rounded, so that within a rounding error of [gap_tol] the outcome can
    be the other one ([check_direction_rounds_down]). *)
Theorem check_direction_upward_only (tol g : Q) (wcc : list Q) :
  0 <= g -> g < 1 ->
  Forall (fun w => 0 <= w /\ w < 1) wcc ->
  (exists b, _check_single_direction tol wcc (Some g) = Ok b) /\
  (_check_single_direction tol wcc (Some g) = Ok true <->
   forall w, In w wcc ->
             (g <= w -> tol <= w - g) /\ (w < g -> tol <= 1 + w - g)).
Proof.
  intros Hg0 Hg1 Hall. induction Hall as [| w wcc [Hw0 Hw1] Hall IH].
  - split; [exists true; reflexivity |].
    split; [intros _ w [] | reflexivity].
  - cbn [_check_single_direction].
    pose proof (check_direction_distance w g Hw0 Hw1 Hg0 Hg1) as Hd.
    rewrite (Qltb_compat _ _ tol Hd).
    destruct IH as [Hex IH].
    destruct (Qltb (if Qle_bool g w then w - g else 1 + w - g) tol) eqn:E.
    + split; [exists false; reflexivity |].
      split; [intros H; discriminate H |].
      intros H. exfalso. destruct (H w (or_introl eq_refl)) as [Hup Hdown].
      apply Qltb_lt in E. destruct (Qle_bool g w) eqn:Egw.
      * apply Qle_bool_iff in Egw. specialize (Hup Egw). lra.
      * assert (Hlt : w < g).
        { apply Qnot_le_lt. rewrite <- Qle_bool_iff. congruence. }
        specialize (Hdown Hlt). lra.
    + split; [exact Hex |]. rewrite IH. apply Qltb_ge in E.
      split.
      * intros H v [<- | Hin]; [| apply H; exact Hin].
        destruct (Qle_bool g w) eqn:Egw.
        -- apply Qle_bool_iff in Egw. split; [intros _; exact E | lra].
        -- assert (Hlt : w < g).
           { apply Qnot_le_lt. rewrite <- Qle_bool_iff. congruence. }
           split; [lra | intros _; exact E].
      * intros H v Hin. apply H. right. exact Hin.
Qed.

Lemma check_direction_upward_only_witness :
  (exists b, _check_single_direction (2 # 100) [49 # 100; 9 # 10]
                                     (Some (1 # 2)) = Ok b) /\
  (_check_single_direction (2 # 100) [49 # 100; 9 # 10] (Some (1 # 2))
   = Ok true <->
   forall w, In w [49 # 100; 9 # 10] ->
             ((1 # 2) <= w -> (2 # 100) <= w - (1 # 2)) /\
             (w < (1 # 2) -> (2 # 100) <= 1 + w - (1 # 2))).
Proof.
  apply (check_direction_upward_only (2 # 100) (1 # 2) [49 # 100; 9 # 10]).
  - lra.
  - lra.
  - repeat (apply Forall_cons; [split; lra |]). apply Forall_nil.
Defined.

(** ** The convergence metric as a difference of densities *)

Lemma for_each_map {A B S} (f : A -> B) (l : list A)
  (body : B -> S -> result S) (s : S) :
  for_each (map f l) body s = for_each l (fun a => body (f a)) s.
Proof.
  revert s. induction l as [| a l IH]; intros s; cbn; [reflexivity |].
  destruct (body (f a) s); [apply IH | reflexivity].
Qed.

Lemma for_each_ext {A S} (l : list A) (b1 b2 : A -> S -> result S) (s : S) :
  (forall a s', b1 a s' = b2 a s') -> for_each l b1 s = for_each l b2 s.
Proof.
  intros E. revert s. induction l as [| a l IH]; intros s; cbn;
    [reflexivity |].
  rewrite E. destruct (b2 a s); [apply IH | reflexivity].
Qed.

Lemma bumps_app (op : Q -> Q -> Q) (l1 l2 : list (Z * Q)) (val : list Q) :
  bumps op (l1 ++ l2) val = (v <- bumps op l1 val ;; bumps op l2 v).
Proof. unfold bumps. apply for_each_app. Qed.

Lemma for_each_mod (op : Q -> Q -> Q) (N : Z) (c : Z -> Z) (w : Z -> Q)
  (l : list Z) (val : list Q) :
  N <> 0%Z ->
  for_each l (fun i v => k <- int_mod (c i) N ;; bump op v k (w i)) val
  = bumps op (map (fun i => ((c i mod N)%Z, w i)) l) val.
Proof.
  intros HN. unfold bumps. rewrite for_each_map. apply for_each_ext.
  intros i v. unfold int_mod. destruct (Z.eqb_spec N 0); [contradiction |].
  reflexivity.
Qed.

Lemma triangle_bumps (op : Q -> Q -> Q) (N N0 : Z) (x : Q) (val : list Q) :
  N <> 0%Z -> triangle op N N0 x val = bumps op (stamp N N0 x) val.
Proof.
  intros HN. unfold triangle, stamp. rewrite bumps_app.
  rewrite (for_each_mod op N (fun i => (int (inject_Z N * x) - i)%Z)
             (fun i => 1 - inject_Z i / inject_Z N0)) by exact HN.
  destruct (bumps op _ val) as [v |]; [| reflexivity].
  cbn [bind].
  apply (for_each_mod op N (fun i => (int (inject_Z N * x) + i)%Z)
           (fun i => 1 - inject_Z i / inject_Z N0)). exact HN.
Qed.

Lemma for_each_triangle (op : Q -> Q -> Q) (N N0 : Z) (xs : list Q)
  (val : list Q) :
  N <> 0%Z ->
  for_each xs (triangle op N N0) val
  = bumps op (flat_map (stamp N N0) xs) val.
Proof.
  intros HN. revert val. induction xs as [| x xs IH]; intros val;
    [reflexivity |].
  cbn [for_each flat_map]. rewrite bumps_app, triangle_bumps by exact HN.
  destruct (bumps op (stamp N N0 x) val) as [v |]; [apply IH | reflexivity].
Qed.

Lemma bump_spec (op : Q -> Q -> Q) (val : list Q) (k : Z) (d : Q) :
  (0 <= k < Z.of_nat (length val))%Z ->
  bump op val k d
  = Ok (replace_at (Z.to_nat k) (op (nth (Z.to_nat k) val 0) d) val).
Proof.
  intros Hk. unfold bump.
  replace k with (Z.of_nat (Z.to_nat k)) at 1 by lia.
  rewrite (getitem_nth val (Z.to_nat k) 0) by lia. cbn [bind].
  apply setitem_replace. lia.
Qed.

Lemma bumps_spec (op : Q -> Q -> Q) (s : Q) :
  (forall a b, op a b == a + s * b) ->
  forall (l : list (Z * Q)) (val : list Q),
    (forall kd, In kd l -> (0 <= fst kd < Z.of_nat (length val))%Z) ->
    exists val',
      bumps op l val = Ok val' /\ length val' = length val /\
      forall j, (j < length val)%nat ->
                nth j val' 0 == nth j val 0 + s * bin_weight l j.
Proof.
  intros Hop. induction l as [| [k d] l IH]; intros val Hin.
  - exists val. split; [reflexivity |]. split; [reflexivity |].
    intros j Hj. cbn [bin_weight]. ring.
  - assert (Hk : (0 <= k < Z.of_nat (length val))%Z)
      by (apply (Hin (k, d)); left; reflexivity).
    unfold bumps. cbn [for_each fst snd]. rewrite bump_spec by exact Hk.
    set (v1 := replace_at (Z.to_nat k) (op (nth (Z.to_nat k) val 0) d) val).
    assert (Hl1 : length v1 = length val)
      by (apply replace_at_length; lia).
    destruct (IH v1) as (val' & Hrun & Hlen & Hnth).
    { intros kd Hkd. rewrite Hl1. apply Hin. right. exact Hkd. }
    exists val'. split; [exact Hrun |]. split; [congruence |].
    intros j Hj. rewrite Hnth by lia. unfold v1.
    rewrite nth_replace_at by lia. cbn [bin_weight].
    destruct (Nat.eqb_spec j (Z.to_nat k)) as [-> | Hne].
    + rewrite Z2Nat.id by lia. rewrite Z.eqb_refl, Hop. ring.
    + destruct (Z.eqb_spec (Z.of_nat j) k) as [E | _]; [lia | ring].
Qed.

Lemma stamp_in_range (N N0 : Z) (x : Q) (kd : Z * Q) :
  (0 < N)%Z -> In kd (stamp N N0 x) -> (0 <= fst kd < N)%Z.
Proof.
  intros HN Hin. unfold stamp in Hin. apply in_app_or in Hin.
  destruct Hin as [Hin | Hin]; apply in_map_iff in Hin;
    destruct Hin as (i & <- & _); cbn [fst]; apply Z.mod_pos_bound; exact HN.
Qed.

Lemma bin_weight_app (l1 l2 : list (Z * Q)) (j : nat) :
  bin_weight (l1 ++ l2) j == bin_weight l1 j + bin_weight l2 j.
Proof.
  induction l1 as [| [k d] l1 IH]; cbn [app bin_weight]; [ring |].
  rewrite IH. ring.
Qed.

Lemma density_cons (N N0 : Z) (x : Q) (xs : list Q) (j : nat) :
  density N N0 (x :: xs) j
  == bin_weight (stamp N N0 x) j + density N N0 xs j.
Proof. unfold density. cbn [flat_map]. apply bin_weight_app. Qed.

Lemma density_perm (N N0 : Z) (xs ys : list Q) (j : nat) :
  Permutation xs ys -> density N N0 xs j == density N N0 ys j.
Proof.
  induction 1 as [| x xs ys _ IH | x y xs | xs ys zs _ IH1 _ IH2].
  - reflexivity.
  - rewrite !density_cons, IH. reflexivity.
  - rewrite !density_cons. ring.
  - rewrite IH1. exact IH2.
Qed.

(** The histogram that [_convsum] holds before it sums the absolute
    values: bin [j] contains the density of [listA] minus that of [listB]. *)
Lemma convsum_histogram (listA listB : list Q) (N N0 : Z) :
  (0 < N)%Z ->
  exists val,
    (v <- for_each listA (triangle Qplus N N0) (repeat 0 (Z.to_nat N)) ;;
     for_each listB (triangle Qminus N N0) v) = Ok val /\
    length val = Z.to_nat N /\
    forall j, (j < Z.to_nat N)%nat ->
              nth j val 0 == density N N0 listA j - density N N0 listB j.
Proof.
  intros HN. rewrite for_each_triangle by lia.
  assert (Hr : forall xs (v : list Q) kd,
             length v = Z.to_nat N -> In kd (flat_map (stamp N N0) xs) ->
             (0 <= fst kd < Z.of_nat (length v))%Z).
  { intros xs v kd Hv Hin. apply in_flat_map in Hin.
    destruct Hin as (x & _ & Hin).
    pose proof (stamp_in_range N N0 x kd HN Hin). lia. }
  destruct (bumps_spec Qplus 1 ltac:(intros; ring)
              (flat_map (stamp N N0) listA) (repeat 0 (Z.to_nat N)))
    as (v1 & Hrun1 & Hlen1 & Hnth1).
  { intros kd. apply Hr. apply repeat_length. }
  rewrite repeat_length in Hlen1.
  destruct (bumps_spec Qminus (-1) ltac:(intros; ring)
              (flat_map (stamp N N0) listB) v1)
    as (v2 & Hrun2 & Hlen2 & Hnth2).
  { intros kd. apply Hr. exact Hlen1. }
  exists v2. rewrite Hrun1. cbn [bind].
  split; [rewrite for_each_triangle by lia; exact Hrun2 |].
  split; [congruence |].
  intros j Hj. rewrite Hnth2 by lia.
  rewrite Hnth1 by (rewrite repeat_length; lia).
  rewrite nth_repeat. unfold density. ring.
Qed.

Lemma int_ge_1 (r : Q) : 1 <= r -> (1 <= int r)%Z.
Proof.
  destruct r as [a b]. unfold Qle, int. cbn [Qnum Qden].
  intros H. assert (0 < a ÷ Z.pos b)%Z; [| lia].
  apply Z.quot_str_pos. lia.
Qed.

Lemma int_small (r : Q) : 0 <= r -> r < 1 -> int r = 0%Z.
Proof.
  destruct r as [a b]. unfold Qle, Qlt, int. cbn [Qnum Qden].
  intros H0 H1. apply Z.quot_small. lia.
Qed.

Lemma bins_pos (epsilon : Q) (N0 : Z) :
  0 < epsilon -> epsilon <= 1 # 2 -> (0 < N0)%Z -> (0 < bins epsilon N0)%Z.
Proof.
  intros H0 H1 HN0. unfold bins.
  assert (1 <= int (1 / (2 * epsilon)))%Z; [| lia].
  apply int_ge_1. apply Qle_shift_div_l; lra.
Qed.

Lemma Qeq_bool_false (a b : Q) : ~ a == b -> Qeq_bool a b = false.
Proof.
  intros H. destruct (Qeq_bool a b) eqn:E; [| reflexivity].
  apply Qeq_bool_iff in E. contradiction.
Qed.

Lemma convsum_value (listA listB : list Q) (epsilon : Q) (N0 : Z) :
  ~ epsilon == 0 -> (0 < bins epsilon N0)%Z ->
  exists val,
    _convsum listA listB epsilon N0
    = Ok (fold_left Qplus (map Qabs val) 0 / inject_Z N0) /\
    length val = Z.to_nat (bins epsilon N0) /\
    forall j, (j < Z.to_nat (bins epsilon N0))%nat ->
              nth j val 0 == density (bins epsilon N0) N0 listA j
                             - density (bins epsilon N0) N0 listB j.
Proof.
  intros He HN. unfold _convsum.
  rewrite Qeq_bool_false by (intros E; apply He; lra).
  cbn [bind]. fold (bins epsilon N0).
  destruct (Z.ltb_spec (bins epsilon N0) 0) as [Hneg | _]; [lia |].
  cbn [bind].
  destruct (convsum_histogram listA listB (bins epsilon N0) N0 HN)
    as (val & Hrun & Hlen & Hnth).
  exists val. split; [| split; assumption].
  destruct (for_each listA _ _) as [v |]; [| discriminate Hrun].
  cbn [bind] in *. rewrite Hrun. reflexivity.
Qed.

Lemma sum_abs_zero (v : list Q) (acc : Q) :
  (forall j, (j < length v)%nat -> nth j v 0 == 0) ->
  fold_left Qplus (map Qabs v) acc == acc.
Proof.
  revert acc. induction v as [| a v IH]; intros acc H; [reflexivity |].
  cbn [map fold_left]. rewrite IH.
  - pose proof (H 0%nat ltac:(cbn; lia)) as Ha. cbn [nth] in Ha.
    rewrite Ha. cbn. ring.
  - intros j Hj. apply (H (S j)). cbn [length]. lia.
Qed.

Lemma sum_abs_nonneg (v : list Q) (acc : Q) :
  0 <= acc -> 0 <= fold_left Qplus (map Qabs v) acc.
Proof.
  revert acc. induction v as [| a v IH]; intros acc H; [exact H |].
  cbn [map fold_left]. apply IH. pose proof (Qabs_nonneg a). lra.
Qed.

Lemma sum_abs_opp (u v : list Q) :
  length u = length v ->
  (forall j, (j < length u)%nat -> nth j u 0 == - nth j v 0) ->
  forall acc acc', acc == acc' ->
    fold_left Qplus (map Qabs u) acc == fold_left Qplus (map Qabs v) acc'.
Proof.
  revert v. induction u as [| a u IH]; intros [| b v] Hlen H acc acc' Hacc;
    cbn [length] in Hlen; try discriminate Hlen; [exact Hacc |].
  cbn [map fold_left]. apply IH.
  - lia.
  - intros j Hj. apply (H (S j)). cbn [length]. lia.
  - pose proof (H 0%nat ltac:(cbn; lia)) as Hab. cbn [nth] in Hab.
    rewrite Hacc, Hab, Qabs_opp. reflexivity.
Qed.

(** X4, in exact arithmetic.  For [2^-20 <= wcc_tol <= 1/2], two WCC lists
    that hold the same values, in any order, pass the convergence check,
    and their metric value is 0.  (On doubles the bins are filled in
    another order for the one list than for the other, and a residue of
    the order of the rounding error can remain.) *)
Theorem convcheck_same_wccs (tol : Q) (x y : list Q) :
  1 # 2 ^ 20 <= tol -> tol <= 1 # 2 -> Permutation x y ->
  _convcheck tol x y = Ok true /\
  exists d, _convsum x y tol 7 = Ok d /\ d == 0.
Proof.
  intros Hlow H1 Hperm.
  assert (H0 : 0 < tol)
    by (apply Qlt_le_trans with (1 # 2 ^ 20); [reflexivity | exact Hlow]).
  destruct (convsum_value x y tol 7) as (val & Hrun & Hlen & Hnth).
  { lra. }
  { apply bins_pos; [exact H0 | exact H1 | lia]. }
  assert (Hs : fold_left Qplus (map Qabs val) 0 == 0).
  { apply sum_abs_zero. intros j Hj. rewrite Hnth by lia.
    rewrite (density_perm _ _ x y j Hperm). ring. }
  assert (Hd : fold_left Qplus (map Qabs val) 0 / inject_Z 7 == 0).
  { rewrite Hs. reflexivity. }
  split.
  - unfold _convcheck. rewrite (Permutation_length Hperm), Nat.eqb_refl.
    cbn [negb]. rewrite Hrun. cbn [bind].
    rewrite (Qltb_compat _ 0 1 Hd). reflexivity.
  - eexists. split; [exact Hrun | exact Hd].
Qed.

Lemma convcheck_same_wccs_witness :
  _convcheck (1 # 100) [0; 1 # 2] [1 # 2; 0] = Ok true /\
  exists d, _convsum [0; 1 # 2] [1 # 2; 0] (1 # 100) 7 = Ok d /\ d == 0.
Proof.
  apply (convcheck_same_wccs (1 # 100) [0; 1 # 2] [1 # 2; 0]).
  - vm_compute. discriminate.
  - discriminate.
  - apply perm_swap.
Defined.

(** X5, in exact arithmetic.  For [2^-20 <= epsilon <= 1/2] the metric
    [_convsum] (with the default [N0 = 7]) is defined on all pairs of
    lists, is not negative and does not depend on the order of its two
    arguments, and the convergence check gives the same answer in both
    orders.  (On doubles the two values can differ by rounding errors.) *)
Theorem convsum_symmetric (eps : Q) (x y : list Q) :
  1 # 2 ^ 20 <= eps -> eps <= 1 # 2 ->
  (exists d d', _convsum x y eps 7 = Ok d /\ _convsum y x eps 7 = Ok d' /\
                d == d' /\ 0 <= d) /\
  _convcheck eps x y = _convcheck eps y x.
Proof.
  intros Hlow H1.
  assert (H0 : 0 < eps)
    by (apply Qlt_le_trans with (1 # 2 ^ 20); [reflexivity | exact Hlow]).
  assert (HN : (0 < bins eps 7)%Z) by (apply bins_pos; [exact H0 | exact H1 | lia]).
  destruct (convsum_value x y eps 7) as (u & Hu & Hlu & Hnu);
    [lra | exact HN |].
  destruct (convsum_value y x eps 7) as (v & Hv & Hlv & Hnv);
    [lra | exact HN |].
  assert (Hs : fold_left Qplus (map Qabs u) 0 == fold_left Qplus (map Qabs v) 0).
  { apply sum_abs_opp; [congruence | | reflexivity].
    intros j Hj. rewrite Hnu, Hnv by lia. ring. }
  assert (Hd : fold_left Qplus (map Qabs u) 0 / inject_Z 7
               == fold_left Qplus (map Qabs v) 0 / inject_Z 7)
    by (rewrite Hs; reflexivity).
  split.
  - eexists. eexists. split; [exact Hu |]. split; [exact Hv |].
    split; [exact Hd |].
    pose proof (sum_abs_nonneg u 0 ltac:(lra)) as Hnn.
    apply Qle_shift_div_l; [reflexivity | lra].
  - unfold _convcheck. rewrite (Nat.eqb_sym (length y) (length x)).
    destruct (length x =? length y)%nat; cbn [negb]; [| reflexivity].
    rewrite Hu, Hv. cbn [bind]. rewrite (Qltb_compat _ _ 1 Hd). reflexivity.
Qed.

Lemma convsum_symmetric_witness :
  (exists d d', _convsum [0] [1 # 100] (1 # 100) 7 = Ok d /\
                _convsum [1 # 100] [0] (1 # 100) 7 = Ok d' /\
                d == d' /\ 0 <= d) /\
  _convcheck (1 # 100) [0] [1 # 100] = _convcheck (1 # 100) [1 # 100] [0].
Proof.
  apply (convsum_symmetric (1 # 100) [0] [1 # 100]).
  - vm_compute. discriminate.
  - discriminate.
Defined.

Lemma int_le_m1 (r : Q) : r <= - (1) -> (int r <= -1)%Z.
Proof.
  destruct r as [a b]. unfold Qle, int. cbn [Qnum Qden Qopp].
  intros H. replace a with (- - a)%Z by lia.
  rewrite Z.quot_opp_l by lia.
  assert (0 < (- a) ÷ Z.pos b)%Z; [| lia].
  apply Z.quot_str_pos. lia.
Qed.

Lemma triangle_no_bins (op : Q -> Q -> Q) (x : Q) (val : list Q) :
  triangle op 0 7 x val = Raise ZeroDivisionError.
Proof. reflexivity. Qed.

(** X6.  The edge cases of [_convcheck]: lists of different lengths never
    converge and never raise, whatever [wcc_tol] is; on lists of equal
    length a zero [wcc_tol] raises [ZeroDivisionError], a [wcc_tol] in
    [[-1/2, -2^-60]] raises [ValueError] (a negative number of bins, one
    that fits a machine integer), and a [wcc_tol] above 1/2 raises
    [ZeroDivisionError] as soon as the lists are not empty (there are no
    bins). *)
Theorem convcheck_edge_cases (tol : Q) (x y : list Q) :
  (length x <> length y -> _convcheck tol x y = Ok false) /\
  (length x = length y -> tol == 0 ->
   _convcheck tol x y = Raise ZeroDivisionError) /\
  (length x = length y -> - (1 # 2) <= tol -> tol <= - (1 # 2 ^ 60) ->
   _convcheck tol x y
   = Raise (ValueError "negative dimensions are not allowed")) /\
  (length x = length y -> x <> [] -> 1 # 2 < tol ->
   _convcheck tol x y = Raise ZeroDivisionError).
Proof.
  unfold _convcheck. repeat split.
  - intros Hne. destruct (Nat.eqb_spec (length x) (length y));
      [contradiction | reflexivity].
  - intros -> Ht. rewrite Nat.eqb_refl. cbn [negb]. unfold _convsum.
    assert (E : Qeq_bool (2 * tol) 0 = true)
      by (apply Qeq_bool_iff; rewrite Ht; reflexivity).
    rewrite E. reflexivity.
  - intros -> Hl Hu'. rewrite Nat.eqb_refl. cbn [negb]. unfold _convsum.
    assert (Hu : tol < 0)
      by (apply Qle_lt_trans with (- (1 # 2 ^ 60));
          [exact Hu' | reflexivity]).
    rewrite Qeq_bool_false by lra. cbn [bind].
    assert (Hr : 1 / (2 * tol) <= - (1)).
    { assert (E : 1 / (2 * tol) == - (1 / (- (2 * tol)))) by (field; lra).
      assert (H1 : 1 <= 1 / (- (2 * tol))) by (apply Qle_shift_div_l; lra).
      lra. }
    apply int_le_m1 in Hr.
    destruct (Z.ltb_spec (7 * int (1 / (2 * tol))) 0) as [_ | H]; [| lia].
    reflexivity.
  - intros -> Hne Ht. rewrite Nat.eqb_refl. cbn [negb]. unfold _convsum.
    rewrite Qeq_bool_false by lra. cbn [bind].
    assert (Hr : int (1 / (2 * tol)) = 0%Z).
    { apply int_small.
      - apply Qlt_le_weak. apply Qlt_shift_div_l; lra.
      - apply Qlt_shift_div_r; lra. }
    rewrite Hr. cbn [Z.mul Z.ltb Z.compare bind Z.to_nat repeat].
    destruct x as [| a x]; [contradiction |].
    cbn [for_each]. rewrite triangle_no_bins. reflexivity.
Qed.

Lemma convcheck_edge_cases_witness :
  _convcheck 0 [0] [0; 1 # 2] = Ok false /\
  _convcheck 0 [0] [1 # 2] = Raise ZeroDivisionError /\
  _convcheck (- (1 # 4)) [0] [1 # 2]
  = Raise (ValueError "negative dimensions are not allowed") /\
  _convcheck (3 # 4) [0] [1 # 2] = Raise ZeroDivisionError.
Proof.
  pose proof (convcheck_edge_cases 0 [0] [0; 1 # 2]) as (H1 & _).
  pose proof (convcheck_edge_cases 0 [0] [1 # 2]) as (_ & H2 & _).
  pose proof (convcheck_edge_cases (- (1 # 4)) [0] [1 # 2]) as (_ & _ & H3 & _).
  pose proof (convcheck_edge_cases (3 # 4) [0] [1 # 2]) as (_ & _ & _ & H4).
  split; [apply H1; cbn; lia |].
  split; [apply H2; reflexivity |].
  split; [apply H3; [reflexivity | discriminate | vm_compute; discriminate] |].
  apply H4; [reflexivity | discriminate | reflexivity].
Defined.

(** ** The refinement loop is bounded *)

Section RefinementBound.

Variable Mats : Type.
Variable M_handle : Q -> Z -> result Mats.
Variable trywcc : Mats -> result (list Q * Q).

Local Abbreviation goes := (continues Mats M_handle trywcc).
Local Abbreviation turn := (turn_result Mats M_handle trywcc).

Lemma next_N_step (N niter : Z) (min_sv : Q) :
  (N + 2 <= next_N N niter min_sv <= N + 4)%Z.
Proof. unfold next_N. destruct (_ && _)%bool; lia. Qed.

Lemma continues_bounds (cfg : Config) (kx : Q) (s s' : loop_state) :
  goes cfg kx s s' ->
  (snd (fst (fst s)) <= snd (fst (fst s')))%Z /\
  (fst (fst (fst s)) + 2 * (snd (fst (fst s')) - snd (fst (fst s)))
   <= fst (fst (fst s')))%Z /\
  (fst (fst (fst s'))
   <= fst (fst (fst s)) + 4 * (snd (fst (fst s')) - snd (fst (fst s))))%Z /\
  (s' = s \/ snd (fst (fst s')) <= max_iter cfg)%Z.
Proof.
  induction 1 as [s | N niter x min_sv x' min_sv' s' Ht Hc Hle Hgo IH].
  - repeat split; try lia. left. reflexivity.
  - cbn [fst snd] in *.
    pose proof (next_N_step N niter min_sv) as HN.
    destruct IH as (I1 & I2 & I3 & I4).
    repeat split; try lia. right.
    destruct I4 as [-> | I4]; [cbn [fst snd]; lia | exact I4].
Qed.

(** X7.  When [_getwcc] iterates and returns, the WCCs it returns were
    computed in turn number [niter + 1] with [0 <= niter <= max(0,
    max_iter)], from a provider called with a number of steps [N] between
    [10 + 2 niter] and [12 + 4 niter]: the refinement never asks for more
    than [12 + 4 max(0, max_iter)] steps. *)
Theorem getwcc_refinement_bounded (cfg : Config) (kx : Q) (xf : list Q)
  (v : verdict) :
  no_iter cfg = false ->
  getwcc_run Mats M_handle trywcc cfg kx = Ok (xf, v) ->
  exists (N niter : Z) (allM : Mats) (sv : Q),
    M_handle kx N = Ok allM /\
    _trywcc Mats trywcc cfg allM = Ok (xf, sv) /\
    (0 <= niter <= Z.max 0 (max_iter cfg))%Z /\
    (10 + 2 * niter <= N <= 12 + 4 * niter)%Z /\
    (N <= 12 + 4 * Z.max 0 (max_iter cfg))%Z.
Proof.
  intros Hiter Hrun. unfold getwcc_run in Hrun.
  destruct (M_handle kx 8) as [allM0 | e] eqn:EM; [| discriminate Hrun].
  cbn [bind] in Hrun.
  destruct (_trywcc Mats trywcc cfg allM0) as [[x0 sv0] | e] eqn:ET;
    [| discriminate Hrun].
  cbn [bind] in Hrun. rewrite Hiter in Hrun.
  destruct (getwcc_loop_verdict Mats M_handle trywcc cfg kx 8 0 x0 sv0 xf v
              Hrun) as ([[[N niter] xp] svp] & svf & Hgo & Hturn & _).
  destruct (continues_bounds cfg kx _ _ Hgo) as (B1 & B2 & B3 & B4).
  cbn [fst snd] in B1, B2, B3, B4.
  assert (Hn : (niter <= Z.max 0 (max_iter cfg))%Z).
  { destruct B4 as [E | B4]; [injection E as _ -> _ _; lia | lia]. }
  pose proof (next_N_step N niter svp) as HN.
  unfold turn_result in Hturn.
  destruct (M_handle kx (next_N N niter svp)) as [allM | e] eqn:EM';
    [| discriminate Hturn].
  cbn [bind] in Hturn.
  exists (next_N N niter svp), niter, allM, svf.
  split; [exact EM' |]. split; [exact Hturn |]. lia.
Qed.

End RefinementBound.

Lemma getwcc_refinement_bounded_witness :
  exists (N niter : Z) (allM : Z) (sv : Q),
    count_M_handle 0 N = Ok allM /\
    _trywcc Z drift_trywcc defaults allM = Ok ([1 # 100], sv) /\
    (0 <= niter <= Z.max 0 (max_iter defaults))%Z /\
    (10 + 2 * niter <= N <= 12 + 4 * niter)%Z /\
    (N <= 12 + 4 * Z.max 0 (max_iter defaults))%Z.
Proof.
  apply (getwcc_refinement_bounded Z count_M_handle drift_trywcc defaults 0
           [1 # 100] Finished).
  - reflexivity.
  - vm_compute. reflexivity.
Defined.

(** ** Options and checkpoints through [wcc_calc] *)

Lemma same_options_refl (p : Plane) : same_options p p.
Proof. repeat split. Qed.

Lemma same_options_trans (p1 p2 p3 : Plane) :
  same_options p1 p2 -> same_options p2 p3 -> same_options p1 p3.
Proof.
  intros (a1 & a2 & a3 & a4) (b1 & b2 & b3 & b4).
  repeat split; try congruence.
  intros H. rewrite b4 by (rewrite a2; exact H). apply a4. exact H.
Qed.

Lemma keeps_modify (R : Plane -> Plane -> Prop) (f : Plane -> Plane) :
  (forall p, R p (f p)) -> keeps R (modify f).
Proof. intros H p. apply H. Qed.

Lemma keeps_assign {A} (R : Plane -> Plane -> Prop)
  (f : Plane -> list A) (g : list A -> Plane -> Plane) (i : nat) (v : A) :
  (forall p, R p p) -> (forall l p, R p (g l p)) -> keeps R (assign f g i v).
Proof.
  intros Hr H p. unfold assign.
  destruct (setitem (f p) i v); [apply H | apply Hr].
Qed.

Lemma keeps_save_options : keeps same_options _save.
Proof.
  intros p. unfold _save. destruct (use_pickle (_cfg p)) eqn:E; cbn [fst].
  - repeat split. intros H. rewrite E in H. discriminate H.
  - apply same_options_refl.
Qed.

Ltac options_step :=
  first
    [ apply (keeps_bind same_options same_options_trans)
    | apply (keeps_ret same_options same_options_refl)
    | apply (keeps_raise same_options same_options_refl)
    | apply (keeps_lift same_options same_options_refl)
    | apply (keeps_read same_options same_options_refl)
    | apply (keeps_item same_options same_options_refl)
    | apply (keeps_assert same_options same_options_refl)
    | apply keeps_save_options
    | apply keeps_modify; intros ?; repeat split; intros; reflexivity
    | apply keeps_assign;
      [apply same_options_refl
      | intros ? ?; repeat split; intros; reflexivity] ].

Lemma keeps_bisect_options (i : nat) : keeps same_options (bisect i).
Proof. unfold bisect. repeat (options_step; try intros ?). Qed.

Lemma keeps_scan_options (items : list (nat * bool)) :
  keeps same_options (check_neighbours_scan items).
Proof.
  induction items as [| [i status] rest IH]; cbn [check_neighbours_scan].
  - options_step.
  - destruct status; [exact IH |].
    options_step; [options_step |]. intros si.
    options_step; [destruct si; options_step |]. intros sj.
    destruct (si && sj)%bool; [| options_step].
    options_step; [intros p; apply same_options_refl |]. intros ok.
    destruct ok.
    + options_step; [options_step | intros _; exact IH].
    + options_step; [options_step |]. intros kj.
      options_step; [options_step |]. intros ki.
      options_step; [options_step |]. intros md.
      destruct (Qltb (kj - ki) md).
      * options_step; [options_step | intros _; exact IH].
      * options_step; [apply keeps_bisect_options | intros _; options_step].
Qed.

Lemma keeps_check_neighbours_options : keeps same_options _check_neighbours.
Proof. intros p. apply keeps_scan_options. Qed.

Section OptionsThroughCalc.

Variable Mats : Type.
Variable M_handle : Q -> Z -> result Mats.
Variable trywcc : Mats -> result (list Q * Q).

Lemma keeps_solve_line_options (ikx : nat * Q) :
  keeps same_options (solve_line Mats M_handle trywcc ikx).
Proof.
  destruct ikx as [i kx]. unfold solve_line.
  options_step; [options_step |]. intros [|]; [options_step |].
  options_step; [intros p; repeat split; intros; reflexivity |]. intros w.
  repeat (options_step; try intros ?).
Qed.

Lemma keeps_loop_body_options :
  keeps same_options (loop_body Mats M_handle trywcc).
Proof.
  unfold loop_body.
  options_step.
  { intros p. unfold solve_pass.
    apply (keeps_mfor_each same_options same_options_refl same_options_trans).
    apply keeps_solve_line_options. }
  intros _. options_step; [options_step |]. intros nnc.
  destruct (negb nnc).
  - options_step; [apply keeps_check_neighbours_options |].
    intros _. options_step.
  - options_step; [options_step |]. intros [|]; options_step.
Qed.

Lemma wcc_loop_options (fuel : nat) (p p' : Plane) (r : result unit) :
  wcc_loop Mats M_handle trywcc fuel p = Some (p', r) -> same_options p p'.
Proof.
  revert p. induction fuel as [| fuel IH]; intros p H; [discriminate H |].
  cbn [wcc_loop] in H.
  destruct (all (_neighbour_check p)).
  { injection H as <- _. apply same_options_refl. }
  pose proof (keeps_loop_body_options p) as Hb.
  destruct (loop_body Mats M_handle trywcc p) as [p1 [[] | e]];
    cbn [fst] in Hb.
  - apply same_options_trans with p1; [exact Hb | apply IH; exact H].
  - injection H as <- _. exact Hb.
  - injection H as <- _. exact Hb.
Qed.

End OptionsThroughCalc.

Lemma parse_input_state (Mats : Type) (kwargs : list kwarg) (p : Plane) :
  fst (parse_input kwargs p) = set_cfg (update (_defaults p) kwargs) p.
Proof.
  unfold parse_input. rewrite mbind_modify, mbind_read. cbn [_cfg set_cfg].
  destruct (_ <? 2)%Z; [reflexivity |].
  destruct (_ <? 8)%Z; reflexivity.
Qed.

Lemma update_app (c : Config) (k1 k2 : list kwarg) :
  update (update c k1) k2 = update c (k1 ++ k2).
Proof. unfold update. symmetry. apply fold_left_app. Qed.

Section CalcOptions.

Variable Mats : Type.
Variable M_handle : Q -> Z -> result Mats.
Variable trywcc : Mats -> result (list Q * Q).

(** The state in which [wcc_calc] ends, related to the one it starts the
    loop from. *)
Lemma wcc_calc_result (fuel : nat) (kwargs : list kwarg) (p p' : Plane)
  (r : Snapshot) :
  wcc_calc Mats M_handle trywcc fuel kwargs p = Some (p', Ok r) ->
  exists p2 u,
    (8 <= num_strings (update (_defaults p) kwargs))%Z /\
    wcc_loop Mats M_handle trywcc fuel
      (initialise (set_cfg (update (_defaults p) kwargs) p)) = Some (p2, Ok u) /\
    p' = fst (_save p2) /\
    r = (_k_points p2, _wcc_list p2, _gaps p2).
Proof.
  intros H. unfold wcc_calc in H.
  destruct (parse_input kwargs p) as [p1 [u | e]] eqn:Ep; [| discriminate H].
  destruct (parse_input_ok Mats kwargs p p1 u Ep) as [-> Hn].
  cbn [_cfg set_cfg] in Hn.
  destruct (wcc_loop Mats M_handle trywcc fuel _) as [[p2 [u' | e]] |] eqn:El;
    try discriminate H.
  injection H as <- <-. exists p2, u'.
  split; [exact Hn |]. split; [reflexivity |]. split; [reflexivity |].
  unfold _save. destruct (use_pickle (_cfg p2)); reflexivity.
Qed.

Lemma wcc_calc_options (fuel : nat) (kwargs : list kwarg)
  (p p' : Plane) (r : result Snapshot) :
  wcc_calc Mats M_handle trywcc fuel kwargs p = Some (p', r) ->
  _defaults p' = _defaults p /\
  _cfg p' = update (_defaults p) kwargs.
Proof.
  intros H. unfold wcc_calc in H.
  pose proof (parse_input_state Mats kwargs p) as Hs.
  destruct (parse_input kwargs p) as [p1 [u | e]]; cbn [fst] in Hs; subst p1.
  2: { injection H as <- _. split; reflexivity. }
  destruct (wcc_loop Mats M_handle trywcc fuel _) as [[p2 [u' | e]] |] eqn:El;
    try discriminate H.
  - apply wcc_loop_options in El. destruct El as (a1 & a2 & _).
    cbn [initialise _defaults _cfg set_cfg] in a1, a2.
    pose proof (keeps_save_options p2) as (b1 & b2 & _).
    cbv zeta in H. injection H as <- _. split; congruence.
  - apply wcc_loop_options in El. destruct El as (a1 & a2 & _).
    cbn [initialise _defaults _cfg set_cfg] in a1, a2.
    injection H as <- _. split; congruence.
Qed.

(** X8.  Keyword arguments given to [wcc_calc] apply to that call only:
    whatever the call does, it leaves [_defaults] as it was, and the
    options it has used are [_defaults] updated with the keyword
    arguments, so that a later call without keyword arguments uses the
    defaults of the plane again. *)
Theorem wcc_calc_kwargs_local (fuel : nat) (kwargs : list kwarg)
  (p p' : Plane) (r : result Snapshot) :
  wcc_calc Mats M_handle trywcc fuel kwargs p = Some (p', r) ->
  _defaults p' = _defaults p /\
  _cfg p' = update (_defaults p) kwargs /\
  forall fuel' p'' r',
    wcc_calc Mats M_handle trywcc fuel' [] p' = Some (p'', r') ->
    _cfg p'' = _defaults p.
Proof.
  intros H. destruct (wcc_calc_options fuel kwargs p p' r H) as [Hd Hc].
  split; [exact Hd |]. split; [exact Hc |].
  intros fuel' p'' r' H'.
  destruct (wcc_calc_options fuel' [] p' p'' r' H') as [_ Hc'].
  rewrite Hc', Hd. reflexivity.
Qed.

(** X9.  A call of [wcc_calc] that returns leaves the plane with results:
    [get_res] then gives what the call returned.  With [use_pickle] the
    pickle file holds that result, and any plane that loads this file
    answers [get_res] and [invariant] as the plane that ran; without
    [use_pickle] the pickle file is not touched. *)
Theorem wcc_calc_checkpoint (fuel : nat) (kwargs : list kwarg)
  (p p' : Plane) (r : Snapshot) :
  wcc_calc Mats M_handle trywcc fuel kwargs p = Some (p', Ok r) ->
  get_res p' = Ok r /\
  (use_pickle (update (_defaults p) kwargs) = true ->
   pickle_file p' = Some r /\
   forall q0, pickle_file q0 = pickle_file p' ->
              exists q, load q0 = Loaded q /\ get_res q = Ok r /\
                        invariant q = invariant p') /\
  (use_pickle (update (_defaults p) kwargs) = false ->
   pickle_file p' = pickle_file p).
Proof.
  intros H.
  destruct (wcc_calc_result fuel kwargs p p' r H)
    as (p2 & u & _ & Hloop & -> & ->).
  apply wcc_loop_options in Hloop.
  destruct Hloop as (a1 & a2 & a3 & a4).
  cbn [initialise _cfg has_results set_cfg pickle_file] in a2, a3, a4.
  assert (Hres : has_results (fst (_save p2)) = true).
  { unfold _save. destruct (use_pickle (_cfg p2)); exact a3. }
  assert (Hlists : _k_points (fst (_save p2)) = _k_points p2 /\
                   _wcc_list (fst (_save p2)) = _wcc_list p2 /\
                   _gaps (fst (_save p2)) = _gaps p2).
  { unfold _save. destruct (use_pickle (_cfg p2)); repeat split. }
  destruct Hlists as (Lk & Lw & Lg).
  split; [| split].
  - unfold get_res. rewrite Hres, Lk, Lw, Lg. reflexivity.
  - intros Hp. rewrite <- a2 in Hp.
    assert (Hfile : pickle_file (fst (_save p2))
                    = Some (_k_points p2, _wcc_list p2, _gaps p2)).
    { unfold _save. rewrite Hp. reflexivity. }
    split; [exact Hfile |].
    intros q0 Hq0. rewrite Hfile in Hq0.
    unfold load. rewrite Hq0. eexists. split; [reflexivity |].
    split; [reflexivity |].
    unfold invariant. cbn [has_results _wcc_list _gaps].
    rewrite Hres, Lw, Lg. reflexivity.
  - intros Hp. unfold _save. rewrite a2, Hp. cbn [fst].
    apply a4. exact Hp.
Qed.

(** X10.  A call of [wcc_calc] whose merged [num_strings] is below 2 raises
    [ValueError('num_strings must be at least 2')] before anything is
    computed: the provider is not called, and [get_res], [invariant] and
    the pickle file are as before the call, so the results of an earlier
    calculation stay available. *)
Theorem wcc_calc_rejected (fuel : nat) (kwargs : list kwarg) (p : Plane) :
  (num_strings (update (_defaults p) kwargs) < 2)%Z ->
  exists p',
    wcc_calc Mats M_handle trywcc fuel kwargs p
    = Some (p', Raise (ValueError "num_strings must be at least 2")) /\
    get_res p' = get_res p /\
    invariant p' = invariant p /\
    pickle_file p' = pickle_file p /\
    solver_calls p' = solver_calls p.
Proof.
  intros Hn. unfold wcc_calc, parse_input.
  rewrite mbind_modify, mbind_read. cbn [_cfg set_cfg].
  destruct (Z.ltb_spec (num_strings (update (_defaults p) kwargs)) 2);
    [| lia].
  eexists. split; [reflexivity |]. repeat split.
Qed.

End CalcOptions.

Lemma wcc_calc_kwargs_local_witness :
  exists p' r,
    wcc_calc Z count_M_handle steady_trywcc 3 [kw_verbose false] fresh_plane
    = Some (p', r) /\
    _defaults p' = _defaults fresh_plane /\
    _cfg p' = update (_defaults fresh_plane) [kw_verbose false] /\
    forall fuel' p'' r',
      wcc_calc Z count_M_handle steady_trywcc fuel' [] p' = Some (p'', r') ->
      _cfg p'' = _defaults fresh_plane.
Proof.
  destruct (wcc_calc Z count_M_handle steady_trywcc 3 [kw_verbose false]
                     fresh_plane) as [[p' r] |] eqn:E;
    [| vm_compute in E; discriminate E].
  exists p', r. split; [reflexivity |].
  exact (wcc_calc_kwargs_local Z count_M_handle steady_trywcc 3
           [kw_verbose false] fresh_plane p' r E).
Defined.

Lemma wcc_calc_checkpoint_witness :
  exists p' r,
    wcc_calc Z count_M_handle steady_trywcc 3 [] fresh_plane
    = Some (p', Ok r) /\
    get_res p' = Ok r /\
    (use_pickle (update (_defaults fresh_plane) []) = true ->
     pickle_file p' = Some r /\
     forall q0, pickle_file q0 = pickle_file p' ->
                exists q, load q0 = Loaded q /\ get_res q = Ok r /\
                          invariant q = invariant p') /\
    (use_pickle (update (_defaults fresh_plane) []) = false ->
     pickle_file p' = pickle_file fresh_plane).
Proof.
  destruct (wcc_calc Z count_M_handle steady_trywcc 3 [] fresh_plane)
    as [[p' [r | e]] |] eqn:E; try (vm_compute in E; discriminate E).
  exists p', r. split; [reflexivity |].
  exact (wcc_calc_checkpoint Z count_M_handle steady_trywcc 3 []
           fresh_plane p' r E).
Defined.

Lemma wcc_calc_rejected_witness :
  exists p',
    wcc_calc Z count_M_handle steady_trywcc 3 [kw_num_strings 1] fresh_plane
    = Some (p', Raise (ValueError "num_strings must be at least 2")) /\
    get_res p' = get_res fresh_plane /\
    invariant p' = invariant fresh_plane /\
    pickle_file p' = pickle_file fresh_plane /\
    solver_calls p' = solver_calls fresh_plane.
Proof.
  apply (wcc_calc_rejected Z count_M_handle steady_trywcc 3
           [kw_num_strings 1] fresh_plane).
  cbn. lia.
Defined.

(** ** [Z2PackSystem.plane] *)

Lemma fold_new_plane_defaults (kwargs : list kwarg) :
  _defaults (new_plane kwargs) = update defaults kwargs.
Proof. reflexivity. Qed.

(** X11.  With a creator of providers that does not raise,
    [Z2PackSystem.plane] raises [ValueError] exactly when the string
    direction equals the direction of the plane position.  Otherwise it
    returns a plane without results, and every [wcc_calc] on that plane
    runs with the defaults of [Z2PackPlane] overridden first by the keyword
    arguments of the system, then by those of [plane], then by those of the
    call. *)
Theorem plane_options_precedence (Mats : Type) (sys : System Mats)
  (string_dir plane_pos_dir : Z) (plane_pos : Q) (kwargs : list kwarg) :
  (string_dir = plane_pos_dir <->
   plane sys string_dir plane_pos_dir plane_pos kwargs
   = Raise (ValueError "strings cannot be perpendicular to the plane")) /\
  (string_dir <> plane_pos_dir ->
   exists pl,
     plane sys string_dir plane_pos_dir plane_pos kwargs
     = Ok (pl, _M_handle_creator sys string_dir plane_pos_dir plane_pos) /\
     get_res pl = Raise (RuntimeError "WCC not yet calculated") /\
     forall M_handle trywcc fuel kwargs_call p' r,
       wcc_calc Mats M_handle trywcc fuel kwargs_call pl = Some (p', r) ->
       _cfg p' = update defaults (sys_defaults sys ++ kwargs ++ kwargs_call)).
Proof.
  unfold plane. destruct (Z.eqb_spec string_dir plane_pos_dir) as [E | E].
  - split; [split; [reflexivity | intros _; exact E] |].
    intros H. contradiction.
  - split; [split; [intros H; contradiction | intros H; discriminate H] |].
    intros _. eexists. split; [reflexivity |]. split; [reflexivity |].
    intros M_handle trywcc fuel kwargs_call p' r H.
    destruct (wcc_calc_options Mats M_handle trywcc fuel kwargs_call _ p' r H)
      as [_ Hc].
    rewrite Hc, fold_new_plane_defaults, app_assoc.
    apply update_app.
Qed.

Lemma plane_options_precedence_witness :
  exists pl,
    plane count_system 0 1 0 [kw_verbose false]
    = Ok (pl, _M_handle_creator count_system 0 1 0) /\
    get_res pl = Raise (RuntimeError "WCC not yet calculated") /\
    forall M_handle trywcc fuel kwargs_call p' r,
      wcc_calc Z M_handle trywcc fuel kwargs_call pl = Some (p', r) ->
      _cfg p' = update defaults (sys_defaults count_system
                                 ++ [kw_verbose false] ++ kwargs_call).
Proof.
  apply (proj2 (plane_options_precedence Z count_system 0 1 0
                  [kw_verbose false])).
  discriminate.
Defined.

(** ** The state of the surface when [wcc_calc] returns *)

Lemma nth_insert {A} (l : list A) (k j : nat) (v d : A) :
  (k <= length l)%nat ->
  nth j (insert l k v) d
  = if (j <? k)%nat then nth j l d
    else if (j =? k)%nat then v else nth (j - 1) l d.
Proof.
  intros Hk. unfold insert.
  assert (Hf : length (firstn k l) = k) by (rewrite length_firstn; lia).
  destruct (Nat.ltb_spec j k) as [Hlt | Hge].
  - rewrite app_nth1 by lia.
    rewrite <- (firstn_skipn k l) at 2. rewrite app_nth1 by lia. reflexivity.
  - rewrite app_nth2 by lia. rewrite Hf.
    destruct (Nat.eqb_spec j k) as [-> | Hne].
    + rewrite Nat.sub_diag. reflexivity.
    + destruct (j - k)%nat as [| m] eqn:E; [lia |]. cbn [nth].
      rewrite nth_skipn. f_equal. lia.
Qed.

Lemma Sorted_Qlt_nth (l : list Q) :
  Sorted Qlt l <->
  forall i, (S i < length l)%nat -> nth i l 0 < nth (S i) l 0.
Proof.
  induction l as [| a l IH].
  - split; [intros _ i Hi; cbn in Hi; lia | constructor].
  - split.
    + intros H i Hi. inversion H as [| a' l' Hs Hh]; subst.
      destruct i as [| i].
      * destruct l as [| b l]; [cbn in Hi; lia |].
        inversion Hh; subst. assumption.
      * cbn [nth]. apply IH; [exact Hs | cbn [length] in Hi; lia].
    + intros H. constructor.
      * apply IH. intros i Hi. apply (H (S i)). cbn [length]. lia.
      * destruct l as [| b l]; constructor.
        apply (H 0%nat). cbn [length]. lia.
Qed.

Lemma nth_range_0 (n : Z) (i : nat) :
  (i < Z.to_nat n)%nat -> nth i (range 0 n) 0%Z = Z.of_nat i.
Proof.
  intros Hi. unfold range. rewrite Z.sub_0_r.
  set (f := fun k : nat => (0 + Z.of_nat k)%Z).
  change 0%Z with (f 0%nat) at 1.
  rewrite map_nth, seq_nth by exact Hi. unfold f. lia.
Qed.

Lemma nth_linspace_half (n : Z) (i : nat) :
  (i < Z.to_nat n)%nat ->
  nth i (linspace_half n) 0
  = inject_Z (Z.of_nat i) * ((1 # 2) / inject_Z (n - 1)).
Proof.
  intros Hi. unfold linspace_half.
  set (f := fun k : Z => inject_Z k * ((1 # 2) / inject_Z (n - 1))).
  rewrite (nth_indep _ 0 (f 0%Z))
    by (rewrite length_map, range_0_len; exact Hi).
  rewrite map_nth, nth_range_0 by exact Hi. reflexivity.
Qed.

Lemma linspace_half_length (n : Z) : length (linspace_half n) = Z.to_nat n.
Proof. unfold linspace_half. rewrite length_map. apply range_0_len. Qed.

Lemma linspace_half_spans (n : Z) :
  (2 <= n)%Z -> spans_half (linspace_half n).
Proof.
  intros Hn. unfold spans_half.
  assert (Hpos : 0 < inject_Z (n - 1)).
  { change 0 with (inject_Z 0). rewrite <- Zlt_Qlt. lia. }
  assert (Hstep : 0 < (1 # 2) / inject_Z (n - 1)).
  { apply Qlt_shift_div_l; [exact Hpos | lra]. }
  split; [| split].
  - apply Sorted_Qlt_nth. intros i Hi. rewrite linspace_half_length in Hi.
    rewrite !nth_linspace_half by lia.
    rewrite Nat2Z.inj_succ, <- Z.add_1_r, inject_Z_plus.
    change (inject_Z 1) with 1. nra.
  - rewrite nth_linspace_half by lia. change (inject_Z (Z.of_nat 0)) with 0.
    lra.
  - rewrite linspace_half_length, nth_linspace_half by lia.
    replace (Z.of_nat (Z.to_nat n - 1)) with (n - 1)%Z by lia.
    field. lra.
Qed.

Lemma insert_midpoint_spans (ks : list Q) (j : nat) :
  spans_half ks -> (j + 1 < length ks)%nat ->
  spans_half (insert ks (j + 1)
                     ((nth j ks 0 + nth (j + 1) ks 0) / 2)).
Proof.
  intros (Hs & H0 & Hl) Hj. unfold spans_half.
  rewrite Sorted_Qlt_nth in Hs.
  pose proof (Hs j) as Hjj. rewrite <- Nat.add_1_r in Hjj.
  specialize (Hjj Hj).
  pose proof (Qhalf (nth j ks 0 + nth (j + 1) ks 0)) as Hh.
  split; [| split].
  - apply Sorted_Qlt_nth. intros i Hi. rewrite insert_length in Hi.
    rewrite !nth_insert by lia.
    destruct (Nat.ltb_spec i (j + 1)), (Nat.ltb_spec (S i) (j + 1));
      try lia.
    + apply Hs. lia.
    + destruct (Nat.eqb_spec (S i) (j + 1)); [| lia].
      replace i with j by lia. lra.
    + destruct (Nat.eqb_spec i (j + 1)) as [-> | Hne].
      * destruct (Nat.eqb_spec (S (j + 1)) (j + 1)); [lia |].
        replace (S (j + 1) - 1)%nat with (j + 1)%nat by lia. lra.
      * destruct (Nat.eqb_spec (S i) (j + 1)); [lia |].
        replace (S i - 1)%nat with (S (i - 1)) by lia.
        apply Hs. lia.
  - rewrite nth_insert by lia.
    destruct (Nat.ltb_spec 0 (j + 1)); [exact H0 | lia].
  - rewrite insert_length, nth_insert by lia.
    destruct (Nat.ltb_spec (S (length ks) - 1) (j + 1)); [lia |].
    destruct (Nat.eqb_spec (S (length ks) - 1) (j + 1)); [lia |].
    replace (S (length ks) - 1 - 1)%nat with (length ks - 1)%nat by lia.
    exact Hl.
Qed.

Section SurfaceState.

Variable Mats : Type.
Variable M_handle : Q -> Z -> result Mats.
Variable trywcc : Mats -> result (list Q * Q).

Local Abbreviation sline := (solve_line Mats M_handle trywcc).
Local Abbreviation spass := (solve_pass Mats M_handle trywcc).
Local Abbreviation sbody := (loop_body Mats M_handle trywcc).
Local Abbreviation sloop := (wcc_loop Mats M_handle trywcc).

(** What treating line [i] does when it does not raise: nothing if the
    line is solved, else the sorted WCCs and their gap are stored and the
    line is marked as solved, after one call of the line solver. *)
Lemma solve_line_effect (i : nat) (kx : Q) (p p' : Plane) (u : unit) :
  sline (i, kx) p = (p', Ok u) ->
  (nth i (_string_status p) false = true /\ p' = p)
  \/ (nth i (_string_status p) false = false /\
      exists x g,
        _gapfind (sorted x) = Ok g /\
        (i < length (_wcc_list p))%nat /\
        (i < length (_gaps p))%nat /\
        (i < length (_string_status p))%nat /\
        _cfg p' = _cfg p /\
        _k_points p' = _k_points p /\
        _neighbour_check p' = _neighbour_check p /\
        _wcc_list p' = replace_at i (sorted x) (_wcc_list p) /\
        _gaps p' = replace_at i (Some g) (_gaps p) /\
        _string_status p' = replace_at i true (_string_status p) /\
        solver_calls p' = solver_calls p ++ [kx]).
Proof.
  unfold solve_line. unfold mbind at 1. unfold item at 1.
  destruct (getitem (_string_status p) (Z.of_nat i)) as [st | e] eqn:Es;
    [| intros H; discriminate H].
  destruct (getitem_Ok_nth _ _ _ false Es) as [Hi Hst].
  destruct st.
  { intros H. injection H as <- _. left. split; [exact Hst | reflexivity]. }
  unfold mbind at 1. unfold _getwcc.
  destruct (getwcc_run Mats M_handle trywcc (_cfg p) kx) as [[x v] | e];
    cbn [bind fst]; [| intros H; discriminate H].
  unfold mbind at 1.
  destruct (assign _wcc_list set_wcc_list i (sorted x) (log_solver_call kx p))
    as [p1 [u1 | e]] eqn:E1; [| intros H; discriminate H].
  apply assign_Ok in E1. destruct E1 as [Hiw ->].
  cbn [_wcc_list log_solver_call] in Hiw.
  rewrite (mbind_item _ i [])
    by (cbn [_wcc_list set_wcc_list log_solver_call];
        rewrite replace_at_length by exact Hiw; exact Hiw).
  cbn [_wcc_list set_wcc_list log_solver_call].
  rewrite nth_replace_at by exact Hiw. rewrite Nat.eqb_refl.
  unfold mbind at 1, lift at 1.
  destruct (_gapfind (sorted x)) as [g | e] eqn:Eg;
    [| intros H; discriminate H].
  unfold mbind at 1.
  match goal with
  | |- context [ assign _gaps set_gaps i ?v ?q ] =>
      destruct (assign _gaps set_gaps i v q) as [p2 [u2 | e]] eqn:E2
  end; [| intros H; discriminate H].
  apply assign_Ok in E2. destruct E2 as [Hig ->].
  cbn [_gaps set_wcc_list log_solver_call] in Hig.
  unfold mbind at 1.
  match goal with
  | |- context [ assign _string_status set_string_status i ?v ?q ] =>
      destruct (assign _string_status set_string_status i v q)
        as [p3 [u3 | e]] eqn:E3
  end; [| intros H; discriminate H].
  apply assign_Ok in E3. destruct E3 as [_ ->].
  intros H. right. split; [exact Hst |]. exists x, g.
  split; [exact Eg |]. split; [exact Hiw |]. split; [exact Hig |].
  split; [exact Hi |].
  unfold _save in H.
  match type of H with
  | (if ?c then _ else _) = _ => destruct c
  end; injection H as <- _; repeat split.
Qed.

Lemma solve_line_inv (i : nat) (kx : Q) (p p' : Plane) (u : unit) :
  sline (i, kx) p = (p', Ok u) -> surface_inv p -> surface_inv p'.
Proof.
  intros Hrun (Hok & Hn & Hsp & Hsol & Hfl).
  destruct (solve_line_effect i kx p p' u Hrun)
    as [[_ ->] | (Hst & x & g & Eg & Hiw & Hig & His & Ec & Ek & En & Ew
                  & Egp & Ess & _)].
  { split; [exact Hok |]. split; [exact Hn |]. split; [exact Hsp |].
    split; [exact Hsol | exact Hfl]. }
  unfold surface_inv.
  split.
  { unfold lengths_ok. rewrite Ek, En, Ew, Egp, Ess.
    rewrite !replace_at_length by assumption. exact Hok. }
  split; [rewrite Ec, Ek; exact Hn |].
  split; [rewrite Ek; exact Hsp |].
  split.
  - unfold solved_lines_ok. intros j Hj.
    rewrite Ess in Hj. rewrite nth_replace_at in Hj by exact His.
    unfold line_solved. rewrite Ess, Ew, Egp.
    rewrite !nth_replace_at by assumption.
    destruct (Nat.eqb_spec j i) as [E | Hne].
    + split; [reflexivity |]. split; [apply sorted_ascending |].
      exists g. split; [reflexivity | exact Eg].
    + apply Hsol. exact Hj.
  - intros j Hj. rewrite En in Hj. destruct (Hfl j Hj) as (a & b & c).
    assert (Hne : j <> i) by (intros ->; congruence).
    assert (Hne1 : (j + 1)%nat <> i) by (intros <-; congruence).
    rewrite Ess. rewrite !nth_replace_at by assumption.
    destruct (Nat.eqb_spec j i); [contradiction |].
    destruct (Nat.eqb_spec (j + 1) i); [contradiction |].
    split; [exact a |]. split; [exact b |].
    unfold pair_settled in *. rewrite Ec, Ek, Ew, Egp.
    rewrite !nth_replace_at by assumption.
    destruct (Nat.eqb_spec j i); [contradiction |].
    destruct (Nat.eqb_spec (j + 1) i); [contradiction |].
    exact c.
Qed.

Lemma mfor_each_inv {A} (I : Plane -> Prop) (body : A -> M unit) :
  (forall a p p' u, body a p = (p', Ok u) -> I p -> I p') ->
  forall l p p' u, mfor_each l body p = (p', Ok u) -> I p -> I p'.
Proof.
  intros Hbody l. induction l as [| a l IH]; intros p p' u Hrun Hp.
  - cbn in Hrun. injection Hrun as <- _. exact Hp.
  - cbn [mfor_each] in Hrun. unfold mbind in Hrun.
    destruct (body a p) as [p1 [u1 | e]] eqn:E1; [| discriminate Hrun].
    apply (IH p1 p' u Hrun). apply (Hbody a p p1 u1 E1 Hp).
Qed.

Lemma solve_pass_inv (p p' : Plane) (u : unit) :
  spass p = (p', Ok u) -> surface_inv p ->
  surface_inv p' /\ all (_string_status p') = true.
Proof.
  intros Hrun Hp. split.
  - unfold solve_pass in Hrun.
    refine (mfor_each_inv surface_inv sline _ _ p p' u Hrun Hp).
    intros [i kx]. apply solve_line_inv.
  - apply (solve_pass_all_solved Mats M_handle trywcc p p' u);
      [apply Hp | exact Hrun].
Qed.

End SurfaceState.

Lemma set_neighbour_check_same (p : Plane) :
  set_neighbour_check (_neighbour_check p) p = p.
Proof. destruct p. reflexivity. Qed.

Lemma flags_set_refl (i : nat) (p : Plane) :
  flags_set i p (_neighbour_check p).
Proof.
  split; [reflexivity |]. split; [reflexivity |].
  split; [intros j H; exact H | intros j H; left; exact H].
Qed.

Lemma flags_set_replace (i : nat) (p : Plane) :
  (i < length (_neighbour_check p))%nat ->
  nth i (_string_status p) false = true ->
  nth (i + 1) (_string_status p) false = true ->
  pair_settled p i ->
  flags_set i p (replace_at i true (_neighbour_check p)).
Proof.
  intros Hi Hs Hs1 Hset. unfold flags_set.
  rewrite replace_at_length by exact Hi.
  split; [reflexivity |]. split; [| split].
  - intros j Hj. rewrite nth_replace_at by exact Hi.
    destruct (Nat.eqb_spec j i); [lia | reflexivity].
  - intros j Hj. rewrite nth_replace_at by exact Hi.
    destruct (Nat.eqb_spec j i); [reflexivity | exact Hj].
  - intros j Hj. rewrite nth_replace_at in Hj by exact Hi.
    destruct (Nat.eqb_spec j i) as [E | Hne]; [right | left; exact Hj].
    subst j. split; [lia |]. split; [exact Hs |]. split; [exact Hs1 | exact Hset].
Qed.

(** What [_check_neighbours] does from index [i] on. *)
Lemma scan_effect_holds (l : list bool) :
  forall (i : nat) (p p' : Plane) (r : result bool),
    skipn i (_neighbour_check p) = l ->
    lengths_ok p ->
    check_neighbours_scan (enum_from i l) p = (p', r) ->
    scan_effect i p p' r.
Proof.
  induction l as [| status rest IH]; intros i p p' r Hskip Hok Hrun.
  - cbn in Hrun. injection Hrun as <- <-.
    exists (_neighbour_check p). split; [apply flags_set_refl |]. left.
    split; [symmetry; apply set_neighbour_check_same |].
    split; [| intros H; discriminate H].
    intros _ j Hj.
    assert (Hl : length (skipn i (_neighbour_check p)) = 0%nat)
      by (rewrite Hskip; reflexivity).
    rewrite length_skipn in Hl. lia.
  - rewrite enum_from_cons in Hrun. cbn [check_neighbours_scan] in Hrun.
    destruct (skipn_cons_inv _ _ _ _ false Hskip) as (Hi & Hnth & Hrest).
    pose proof Hok as (H1 & H2 & H3 & H4).
    (* the scan goes on after flag [i] has been found or set to True *)
    assert (Hcont :
      forall f1,
        flags_set i p f1 ->
        nth i f1 false = true ->
        skipn (S i) f1 = rest ->
        check_neighbours_scan (enum_from (S i) rest)
                              (set_neighbour_check f1 p) = (p', r) ->
        scan_effect i p p' r).
    { intros f1 (F1 & F2 & F3 & F4) Hnth1 Hrest1 Hrun1.
      assert (Hok1 : lengths_ok (set_neighbour_check f1 p)).
      { unfold lengths_ok.
        cbn [_k_points _wcc_list _gaps _neighbour_check _string_status
             set_neighbour_check].
        rewrite F1. exact Hok. }
      destruct (IH (S i) (set_neighbour_check f1 p) p' r Hrest1 Hok1 Hrun1)
        as (f & (G1 & G2 & G3 & G4) & Hout).
      cbn [_neighbour_check _string_status set_neighbour_check] in G1, G2,
        G3, G4.
      exists f. split.
      - split; [congruence |]. split; [| split].
        + intros j Hj. rewrite G2 by lia. apply F2. exact Hj.
        + intros j Hj. apply G3. apply F3. exact Hj.
        + intros j Hj. destruct (G4 j Hj) as [Hf1 | (Hle & a & b & c)].
          * apply F4. exact Hf1.
          * right. split; [lia |]. split; [exact a |].
            split; [exact b | exact c].
      - destruct Hout as [(-> & Ht & Hf) | (j & Hj & Hjf & Hopen & -> & ->)].
        + left. split; [reflexivity |]. split.
          * intros Hr j Hj. destruct (Nat.eq_dec j i) as [-> | Hne].
            -- rewrite G2 by lia. exact Hnth1.
            -- apply Ht; [exact Hr | lia].
          * intros Hr. destruct (Hf Hr) as (j & Hj & Hjf & Hss).
            exists j. split; [lia |]. split; [exact Hjf | exact Hss].
        + right. exists j. split; [lia |]. split; [exact Hjf |].
          split; [exact Hopen |]. split; reflexivity. }
    destruct status.
    + apply (Hcont (_neighbour_check p));
        [apply flags_set_refl | exact Hnth | exact Hrest |].
      rewrite set_neighbour_check_same. exact Hrun.
    + (* the scan ends here without a change *)
      assert (Hstop :
        forall r0, (r0 = Ok true -> False) ->
                   (r0 = Ok false ->
                    nth i (_string_status p) false = false
                    \/ nth (i + 1) (_string_status p) false = false) ->
                   scan_effect i p p r0).
      { intros r0 Ht Hf. exists (_neighbour_check p).
        split; [apply flags_set_refl |]. left.
        split; [symmetry; apply set_neighbour_check_same |].
        split; [intros Hr; destruct (Ht Hr) |].
        intros Hr. exists i. split; [lia |]. split; [exact Hnth |].
        apply Hf. exact Hr. }
      rewrite (mbind_item _ i false) in Hrun by lia.
      destruct (nth i (_string_status p) false) eqn:Esi.
      2: { rewrite mbind_ret in Hrun. cbn in Hrun. injection Hrun as <- <-.
           apply Hstop; [intros Hr; discriminate Hr |].
           intros _. left. reflexivity. }
      rewrite (mbind_item _ (i + 1) false) in Hrun by lia.
      destruct (nth (i + 1) (_string_status p) false) eqn:Esj.
      2: { cbn in Hrun. injection Hrun as <- <-.
           apply Hstop; [intros Hr; discriminate Hr |].
           intros _. right. reflexivity. }
      cbn [andb] in Hrun. unfold mbind at 1 in Hrun.
      unfold _check_single_neighbour at 1 in Hrun. cbv beta in Hrun.
      rewrite (getitem_nth _ (i + 1) []) in Hrun by lia.
      rewrite (getitem_nth _ i None) in Hrun by lia.
      cbn [bind] in Hrun.
      destruct (_check_single_direction (gap_tol (_cfg p))
                  (nth (i + 1) (_wcc_list p) []) (nth i (_gaps p) None))
        as [ok | e] eqn:Ec.
      2: { injection Hrun as <- <-.
           apply Hstop; intros Hr; discriminate Hr. }
      destruct ok.
      * rewrite mbind_assign in Hrun by exact Hi.
        apply (Hcont (replace_at i true (_neighbour_check p)));
          [ apply flags_set_replace; try assumption; left; exact Ec
          | rewrite nth_replace_at by exact Hi; rewrite Nat.eqb_refl;
            reflexivity
          | rewrite skipn_replace_at by exact Hi; exact Hrest
          | exact Hrun ].
      * rewrite (mbind_item _ (i + 1) 0) in Hrun by lia.
        rewrite (mbind_item _ i 0) in Hrun by lia.
        rewrite mbind_read in Hrun.
        destruct (Qltb _ _) eqn:Ed in Hrun.
        -- rewrite mbind_assign in Hrun by exact Hi.
           apply (Hcont (replace_at i true (_neighbour_check p)));
             [ apply flags_set_replace; try assumption; right;
               apply Qltb_lt; exact Ed
             | rewrite nth_replace_at by exact Hi; rewrite Nat.eqb_refl;
               reflexivity
             | rewrite skipn_replace_at by exact Hi; exact Hrest
             | exact Hrun ].
        -- unfold mbind in Hrun. rewrite bisect_eq in Hrun by assumption.
           cbn [ret] in Hrun. injection Hrun as <- <-.
           exists (_neighbour_check p).
           split; [apply flags_set_refl |]. right. exists i.
           split; [lia |]. split; [exact Hnth |].
           split; [| split; [reflexivity |
                             rewrite set_neighbour_check_same; reflexivity]].
           split; [exact Esi |]. split; [exact Esj |].
           split; [exact Ec | apply Qltb_ge; exact Ed].
Qed.

Lemma check_neighbours_effect (p p' : Plane) (r : result bool) :
  lengths_ok p -> _check_neighbours p = (p', r) -> scan_effect 0 p p' r.
Proof.
  intros Hok Hrun. unfold _check_neighbours in Hrun.
  rewrite enumerate_enum_from in Hrun.
  exact (scan_effect_holds _ 0 p p' r eq_refl Hok Hrun).
Qed.

Lemma nth_insert_lt {A} (l : list A) (k j : nat) (v d : A) :
  (j < k <= length l)%nat -> nth j (insert l k v) d = nth j l d.
Proof.
  intros H. rewrite nth_insert by lia.
  destruct (Nat.ltb_spec j k); [reflexivity | lia].
Qed.

Lemma nth_insert_eq {A} (l : list A) (k : nat) (v d : A) :
  (k <= length l)%nat -> nth k (insert l k v) d = v.
Proof.
  intros H. rewrite nth_insert by lia.
  destruct (Nat.ltb_spec k k); [lia |]. rewrite Nat.eqb_refl. reflexivity.
Qed.

Lemma nth_insert_gt {A} (l : list A) (k j : nat) (v d : A) :
  (k < j)%nat -> (k <= length l)%nat ->
  nth j (insert l k v) d = nth (j - 1) l d.
Proof.
  intros H Hk. rewrite nth_insert by lia.
  destruct (Nat.ltb_spec j k); [lia |].
  destruct (Nat.eqb_spec j k); [lia | reflexivity].
Qed.

Lemma nth_true_lt (l : list bool) (i : nat) :
  nth i l false = true -> (i < length l)%nat.
Proof.
  intros H. destruct (Nat.lt_ge_cases i (length l)) as [Hi | Hi];
    [exact Hi |].
  rewrite nth_overflow in H by exact Hi. discriminate H.
Qed.

Lemma all_true_nth (l : list bool) (i : nat) :
  all l = true -> (i < length l)%nat -> nth i l false = true.
Proof.
  intros H Hi. unfold all in H. rewrite forallb_forall in H.
  apply H. apply nth_In. exact Hi.
Qed.

(** Setting flags as a scan does keeps the invariant of the surface. *)
Lemma flags_set_inv (i : nat) (p : Plane) (f : list bool) :
  surface_inv p -> flags_set i p f ->
  surface_inv (set_neighbour_check f p).
Proof.
  intros (Hok & Hn & Hsp & Hsol & Hfl) (F1 & F2 & F3 & F4).
  split.
  { unfold lengths_ok.
    cbn [_k_points _wcc_list _gaps _neighbour_check _string_status
         set_neighbour_check].
    rewrite F1. exact Hok. }
  split; [exact Hn |]. split; [exact Hsp |]. split; [exact Hsol |].
  intros j Hj. cbn [_neighbour_check set_neighbour_check] in Hj.
  destruct (F4 j Hj) as [Hnc | (_ & a & b & c)].
  - exact (Hfl j Hnc).
  - split; [exact a |]. split; [exact b | exact c].
Qed.

(** Bisecting a pair whose flag is not set keeps the invariant of the
    surface. *)
Lemma bisected_inv (j : nat) (p : Plane) :
  surface_inv p ->
  (j < length (_neighbour_check p))%nat ->
  nth j (_neighbour_check p) false = false ->
  surface_inv (bisected j p).
Proof.
  intros (Hok & Hn & Hsp & Hsol & Hfl) Hj Hjf.
  pose proof Hok as (H1 & H2 & H3 & H4).
  split; [apply bisected_lengths_ok; exact Hok |].
  split.
  { cbn [bisected _cfg _k_points]. rewrite insert_length. lia. }
  split.
  { cbn [bisected _k_points]. apply insert_midpoint_spans; [exact Hsp | lia]. }
  split.
  - unfold solved_lines_ok, line_solved.
    cbn [bisected _string_status _wcc_list _gaps].
    intros m Hm.
    destruct (lt_eq_lt_dec m (j + 1)) as [[Hlt | Heq] | Hgt].
    + rewrite nth_insert_lt in Hm by lia.
      rewrite !nth_insert_lt by lia. exact (Hsol m Hm).
    + subst m. rewrite nth_insert_eq in Hm by lia. discriminate Hm.
    + rewrite nth_insert_gt in Hm by lia.
      rewrite !nth_insert_gt by lia. exact (Hsol (m - 1)%nat Hm).
  - cbn [bisected _neighbour_check _string_status].
    intros m Hm. unfold pair_settled.
    cbn [bisected _cfg _k_points _wcc_list _gaps].
    destruct (lt_eq_lt_dec m (j + 1)) as [[Hlt | Heq] | Hgt].
    + rewrite nth_insert_lt in Hm by lia.
      assert (Hne : m <> j) by (intros ->; congruence).
      destruct (Hfl m Hm) as (a & b & c).
      rewrite !nth_insert_lt by lia.
      split; [exact a |]. split; [exact b | exact c].
    + subst m. rewrite nth_insert_eq in Hm by lia. discriminate Hm.
    + rewrite nth_insert_gt in Hm by lia.
      pose proof (nth_true_lt _ _ Hm) as Hlen.
      destruct (Hfl (m - 1)%nat Hm) as (a & b & c).
      rewrite !nth_insert_gt by lia.
      replace (m + 1 - 1)%nat with (m - 1 + 1)%nat by lia.
      split; [exact a |]. split; [exact b | exact c].
Qed.

(** [_check_neighbours] keeps the invariant of the surface and the options,
    however it ends. *)
Lemma check_neighbours_inv (p p' : Plane) (r : result bool) :
  surface_inv p -> _check_neighbours p = (p', r) ->
  surface_inv p' /\ _cfg p' = _cfg p.
Proof.
  intros Hp Hrun.
  destruct (check_neighbours_effect p p' r (proj1 Hp) Hrun)
    as (f & Hf & [(-> & _) | (j & Hj & Hjf & _ & _ & ->)]).
  - split; [apply (flags_set_inv 0); assumption | reflexivity].
  - split; [| reflexivity].
    apply bisected_inv;
      [ apply (flags_set_inv 0); assumption
      | cbn [_neighbour_check set_neighbour_check]; lia
      | exact Hjf ].
Qed.

(** When all flags are set, all lines are solved and all pairs settled. *)
Lemma all_flags_settled (p : Plane) :
  surface_inv p -> all (_neighbour_check p) = true ->
  all (_string_status p) = true /\
  forall i, (i + 1 < length (_k_points p))%nat -> pair_settled p i.
Proof.
  intros (Hok & Hn & Hsp & Hsol & Hfl) Hall.
  pose proof Hok as (H1 & H2 & H3 & H4).
  split.
  - apply all_nth. intros i Hi.
    destruct (Nat.eq_dec i 0) as [-> | Hne].
    + apply (Hfl 0%nat). apply all_true_nth; [exact Hall | lia].
    + replace i with (i - 1 + 1)%nat by lia.
      apply (Hfl (i - 1)%nat). apply all_true_nth; [exact Hall | lia].
  - intros i Hi. apply (Hfl i). apply all_true_nth; [exact Hall | lia].
Qed.

Lemma initialise_inv (p : Plane) :
  (2 <= num_strings (_cfg p))%Z -> surface_inv (initialise p).
Proof.
  intros Hn. destruct (initialise_lengths_ok p Hn) as [Hok Hlen].
  split; [exact Hok |].
  split; [rewrite Hlen; cbn [initialise _cfg]; lia |].
  split; [apply linspace_half_spans; exact Hn |].
  split.
  - intros i Hi. cbn [initialise _string_status] in Hi.
    rewrite nth_repeat in Hi. discriminate Hi.
  - intros i Hi. cbn [initialise _neighbour_check] in Hi.
    rewrite nth_repeat in Hi. discriminate Hi.
Qed.

Lemma save_inv (p : Plane) : surface_inv p -> surface_inv (fst (_save p)).
Proof.
  intros H. unfold _save. destruct (use_pickle (_cfg p)); exact H.
Qed.

Section SurfaceReturn.

Variable Mats : Type.
Variable M_handle : Q -> Z -> result Mats.
Variable trywcc : Mats -> result (list Q * Q).

Local Abbreviation rpass := (solve_pass Mats M_handle trywcc).
Local Abbreviation rbody := (loop_body Mats M_handle trywcc).
Local Abbreviation rloop := (wcc_loop Mats M_handle trywcc).
Local Abbreviation rcalc := (wcc_calc Mats M_handle trywcc).

Lemma loop_body_inv (p p' : Plane) (x : loop_exit) :
  rbody p = (p', Ok x) -> surface_inv p ->
  surface_inv p' /\ _cfg p' = _cfg p /\
  (no_neighbour_check (_cfg p) = true -> all (_string_status p') = true).
Proof.
  intros Hrun Hp. unfold loop_body in Hrun. unfold mbind at 1 in Hrun.
  pose proof (keeps_solve_pass Mats M_handle trywcc p) as Hs.
  destruct (rpass p) as [p1 [u | e]] eqn:Ep; cbn [fst] in Hs;
    [| discriminate Hrun].
  destruct (solve_pass_inv Mats M_handle trywcc p p1 u Ep Hp) as [Hp1 Hall].
  destruct Hs as (Ec & _).
  rewrite mbind_read, Ec in Hrun.
  destruct (no_neighbour_check (_cfg p)); cbn [negb] in Hrun.
  - rewrite mbind_read in Hrun.
    assert (p' = p1) as ->
      by (destruct (verbose (_cfg p1)); injection Hrun as <- _; reflexivity).
    split; [exact Hp1 |]. split; [exact Ec | intros _; exact Hall].
  - unfold mbind in Hrun.
    destruct (_check_neighbours p1) as [p2 [b | e]] eqn:Ecn;
      [| discriminate Hrun].
    cbn [ret] in Hrun. injection Hrun as <- _.
    destruct (check_neighbours_inv p1 p2 (Ok b) Hp1 Ecn) as [Hp2 Ec2].
    split; [exact Hp2 |]. split; [congruence | intros H; discriminate H].
Qed.

Lemma wcc_loop_inv (fuel : nat) :
  forall (p p' : Plane) (u : unit),
    rloop fuel p = Some (p', Ok u) -> surface_inv p ->
    surface_inv p' /\ _cfg p' = _cfg p /\
    all (_string_status p') = true /\
    (no_neighbour_check (_cfg p) = false ->
     all (_neighbour_check p') = true).
Proof.
  induction fuel as [| fuel IH]; intros p p' u Hrun Hp;
    [discriminate Hrun |].
  cbn [wcc_loop] in Hrun.
  destruct (all (_neighbour_check p)) eqn:Eall.
  { injection Hrun as <- _. split; [exact Hp |]. split; [reflexivity |].
    split; [apply all_flags_settled; assumption | intros _; exact Eall]. }
  destruct (rbody p) as [p1 [x | e]] eqn:Eb; [| discriminate Hrun].
  destruct (loop_body_inv p p1 x Eb Hp) as (Hp1 & Ec & Hnn).
  destruct x.
  - destruct (IH p1 p' u Hrun Hp1) as (a & b & c & d).
    split; [exact a |]. split; [congruence |]. split; [exact c |].
    rewrite <- Ec. exact d.
  - injection Hrun as <- _.
    split; [exact Hp1 |]. split; [exact Ec |].
    unfold loop_body in Eb. unfold mbind at 1 in Eb.
    pose proof (keeps_solve_pass Mats M_handle trywcc p) as Hs.
    destruct (rpass p) as [p2 [u2 | e]]; cbn [fst] in Hs;
      [| discriminate Eb].
    destruct Hs as (Ec2 & _).
    rewrite mbind_read, Ec2 in Eb.
    destruct (no_neighbour_check (_cfg p)); cbn [negb] in Eb.
    + split; [apply Hnn; reflexivity | intros H; discriminate H].
    + unfold mbind in Eb.
      destruct (_check_neighbours p2) as [p3 [b | e]]; discriminate Eb.
Qed.

(** The state in which [wcc_calc] returns. *)
Lemma wcc_calc_final (fuel : nat) (kwargs : list kwarg) (p p' : Plane)
  (r : Snapshot) :
  rcalc fuel kwargs p = Some (p', Ok r) ->
  r = (_k_points p', _wcc_list p', _gaps p') /\
  _cfg p' = update (_defaults p) kwargs /\
  surface_inv p' /\
  all (_string_status p') = true /\
  (no_neighbour_check (_cfg p') = false ->
   all (_neighbour_check p') = true).
Proof.
  intros H. unfold wcc_calc in H.
  destruct (parse_input kwargs p) as [p1 [u | e]] eqn:Ep;
    [| discriminate H].
  destruct (parse_input_ok Mats kwargs p p1 u Ep) as [-> Hn].
  set (p1 := set_cfg (update (_defaults p) kwargs) p) in *.
  destruct (rloop fuel (initialise p1)) as [[p2 [u' | e]] |] eqn:El;
    try discriminate H.
  injection H as <- <-.
  assert (Hinit : surface_inv (initialise p1)) by (apply initialise_inv; lia).
  destruct (wcc_loop_inv fuel _ p2 u' El Hinit) as (a & b & c & d).
  assert (Hsave : _cfg (fst (_save p2)) = _cfg p2 /\
                  _string_status (fst (_save p2)) = _string_status p2 /\
                  _neighbour_check (fst (_save p2)) = _neighbour_check p2)
    by (unfold _save; destruct (use_pickle (_cfg p2)); repeat split).
  destruct Hsave as (s1 & s2 & s3).
  split; [reflexivity |]. split; [rewrite s1, b; reflexivity |].
  split; [apply save_inv; exact a |].
  split; [rewrite s2; exact c |].
  rewrite s1, s3, b. exact d.
Qed.

End SurfaceReturn.

(** X12.  [_check_neighbours] on a surface with matching list lengths, when
    it returns: the value returned is [all(self._neighbour_check)] of the
    state it leaves, and it either leaves the lines as they are or inserts
    exactly one line, an unsolved one at the midpoint of an open pair (two
    solved lines that fail the gap check and are not closer than
    [min_neighbour_dist]), and then returns [False]. *)
Theorem check_neighbours_returns_all (p p' : Plane) (b : bool) :
  lengths_ok p ->
  _check_neighbours p = (p', Ok b) ->
  all (_neighbour_check p') = b /\
  ((_k_points p' = _k_points p /\ _wcc_list p' = _wcc_list p /\
    _gaps p' = _gaps p /\ _string_status p' = _string_status p)
   \/ (b = false /\
       exists j,
         pair_open p j /\
         _k_points p'
         = insert (_k_points p) (j + 1)
             ((nth j (_k_points p) 0 + nth (j + 1) (_k_points p) 0) / 2) /\
         _wcc_list p' = insert (_wcc_list p) (j + 1) [] /\
         _gaps p' = insert (_gaps p) (j + 1) None /\
         _string_status p' = insert (_string_status p) (j + 1) false)).
Proof.
  intros Hok Hrun.
  destruct (check_neighbours_effect p p' (Ok b) Hok Hrun)
    as (f & (F1 & _) & [(-> & Ht & Hf) | (j & Hj & Hjf & Hopen & Hb & ->)]).
  - split; [| left; repeat split].
    cbn [_neighbour_check set_neighbour_check].
    destruct b.
    + apply all_nth. intros j Hj. apply Ht; [reflexivity | lia].
    + destruct (Hf eq_refl) as (j & Hj & Hjf & _).
      apply (nth_false_not_all f j); [lia | exact Hjf].
  - injection Hb as ->. split.
    + cbn [bisected _neighbour_check set_neighbour_check].
      apply (nth_false_not_all _ (j + 1)).
      * rewrite insert_length. lia.
      * apply nth_insert_eq. lia.
    + right. split; [reflexivity |]. exists j.
      split; [exact Hopen |]. repeat split.
Qed.

Lemma check_neighbours_returns_all_witness :
  exists p' b,
    _check_neighbours quiet_after_pass = (p', Ok b) /\
    all (_neighbour_check p') = b /\
    ((_k_points p' = _k_points quiet_after_pass /\
      _wcc_list p' = _wcc_list quiet_after_pass /\
      _gaps p' = _gaps quiet_after_pass /\
      _string_status p' = _string_status quiet_after_pass)
     \/ (b = false /\
         exists j,
           pair_open quiet_after_pass j /\
           _k_points p'
           = insert (_k_points quiet_after_pass) (j + 1)
               ((nth j (_k_points quiet_after_pass) 0
                 + nth (j + 1) (_k_points quiet_after_pass) 0) / 2) /\
           _wcc_list p' = insert (_wcc_list quiet_after_pass) (j + 1) [] /\
           _gaps p' = insert (_gaps quiet_after_pass) (j + 1) None /\
           _string_status p'
           = insert (_string_status quiet_after_pass) (j + 1) false)).
Proof.
  destruct (_check_neighbours quiet_after_pass) as [p' [b | e]] eqn:E;
    [| vm_compute in E; discriminate E].
  exists p', b. split; [reflexivity |].
  apply (check_neighbours_returns_all quiet_after_pass p' b);
    [| exact E].
  unfold lengths_ok. vm_compute. repeat split.
Defined.

Section SurfaceResult.

Variable Mats : Type.
Variable M_handle : Q -> Z -> result Mats.
Variable trywcc : Mats -> result (list Q * Q).

(** X13.  In the result [(k_points, wcc_list, gaps)] that [wcc_calc]
    returns, every line is solved: the three lists have one entry per
    line, the WCCs of each line are in ascending order, and the gap of each
    line is the value that [_gapfind] returns for the WCCs of that line (no
    gap is left [None]). *)
Theorem wcc_calc_lines_solved (fuel : nat) (kwargs : list kwarg)
  (p p' : Plane) (ks : list Q) (wccs : list (list Q))
  (gaps : list (option Q)) :
  wcc_calc Mats M_handle trywcc fuel kwargs p = Some (p', Ok (ks, wccs, gaps)) ->
  length wccs = length ks /\ length gaps = length ks /\
  forall i, (i < length ks)%nat ->
            Sorted Qle (nth i wccs []) /\
            exists g, nth i gaps None = Some g /\
                      _gapfind (nth i wccs []) = Ok g.
Proof.
  intros H.
  destruct (wcc_calc_final Mats M_handle trywcc fuel kwargs p p' _ H)
    as (Hr & _ & (Hok & _ & _ & Hsol & _) & Hall & _).
  injection Hr as -> -> ->.
  destruct Hok as (H1 & H2 & H3 & H4).
  split; [exact H2 |]. split; [exact H3 |].
  intros i Hi.
  destruct (Hsol i) as (_ & Hs & Hg);
    [apply all_true_nth; [exact Hall | lia] |].
  split; [exact Hs | exact Hg].
Qed.

(** X14.  When [wcc_calc] returns and neighbour checks were on, every pair
    of neighbouring lines of the result is settled: the gap of the line is
    at least [gap_tol] away from every WCC of the next line (the check of
    [_check_single_direction] passes on the returned lists), or the two
    lines are closer than [min_neighbour_dist]. *)
Theorem wcc_calc_neighbours_settled (fuel : nat) (kwargs : list kwarg)
  (p p' : Plane) (ks : list Q) (wccs : list (list Q))
  (gaps : list (option Q)) :
  wcc_calc Mats M_handle trywcc fuel kwargs p = Some (p', Ok (ks, wccs, gaps)) ->
  no_neighbour_check (update (_defaults p) kwargs) = false ->
  forall i, (i + 1 < length ks)%nat ->
            _check_single_direction (gap_tol (update (_defaults p) kwargs))
                                    (nth (i + 1) wccs []) (nth i gaps None)
            = Ok true
            \/ nth (i + 1) ks 0 - nth i ks 0
               < min_neighbour_dist (update (_defaults p) kwargs).
Proof.
  intros H Hnn.
  destruct (wcc_calc_final Mats M_handle trywcc fuel kwargs p p' _ H)
    as (Hr & Hc & Hinv & _ & Hall).
  injection Hr as -> -> ->.
  rewrite Hc in Hall. specialize (Hall Hnn).
  destruct (all_flags_settled p' Hinv Hall) as [_ Hset].
  intros i Hi. specialize (Hset i Hi). unfold pair_settled in Hset.
  rewrite Hc in Hset. exact Hset.
Qed.

(** X15.  The line positions that [wcc_calc] returns are strictly
    ascending (in exact arithmetic), start at 0 and end at 1/2, and there
    are at least [num_strings] of them. *)
Theorem wcc_calc_k_points_span (fuel : nat) (kwargs : list kwarg)
  (p p' : Plane) (ks : list Q) (wccs : list (list Q))
  (gaps : list (option Q)) :
  wcc_calc Mats M_handle trywcc fuel kwargs p = Some (p', Ok (ks, wccs, gaps)) ->
  spans_half ks /\
  (num_strings (update (_defaults p) kwargs) <= Z.of_nat (length ks))%Z.
Proof.
  intros H.
  destruct (wcc_calc_final Mats M_handle trywcc fuel kwargs p p' _ H)
    as (Hr & Hc & (_ & Hn & Hsp & _) & _).
  injection Hr as -> -> ->.
  split; [exact Hsp |]. rewrite Hc in Hn. lia.
Qed.

End SurfaceResult.

Lemma wcc_calc_lines_solved_witness :
  exists p' ks wccs gaps,
    wcc_calc Z count_M_handle steady_trywcc 3 [] fresh_plane
    = Some (p', Ok (ks, wccs, gaps)) /\
    length wccs = length ks /\ length gaps = length ks /\
    forall i, (i < length ks)%nat ->
              Sorted Qle (nth i wccs []) /\
              exists g, nth i gaps None = Some g /\
                        _gapfind (nth i wccs []) = Ok g.
Proof.
  destruct (wcc_calc Z count_M_handle steady_trywcc 3 [] fresh_plane)
    as [[p' [[[ks wccs] gaps] | e]] |] eqn:E;
    try (vm_compute in E; discriminate E).
  exists p', ks, wccs, gaps. split; [reflexivity |].
  exact (wcc_calc_lines_solved Z count_M_handle steady_trywcc 3 []
           fresh_plane p' ks wccs gaps E).
Defined.

Lemma wcc_calc_neighbours_settled_witness :
  exists p' ks wccs gaps,
    wcc_calc Z count_M_handle steady_trywcc 20 refining_kwargs fresh_plane
    = Some (p', Ok (ks, wccs, gaps)) /\
    forall i, (i + 1 < length ks)%nat ->
              _check_single_direction
                (gap_tol (update (_defaults fresh_plane) refining_kwargs))
                (nth (i + 1) wccs []) (nth i gaps None)
              = Ok true
              \/ nth (i + 1) ks 0 - nth i ks 0
                 < min_neighbour_dist
                     (update (_defaults fresh_plane) refining_kwargs).
Proof.
  destruct (wcc_calc Z count_M_handle steady_trywcc 20 refining_kwargs
                     fresh_plane)
    as [[p' [[[ks wccs] gaps] | e]] |] eqn:E;
    try (vm_compute in E; discriminate E).
  exists p', ks, wccs, gaps. split; [reflexivity |].
  apply (wcc_calc_neighbours_settled Z count_M_handle steady_trywcc 20
           refining_kwargs fresh_plane p' ks wccs gaps E).
  reflexivity.
Defined.

Lemma wcc_calc_k_points_span_witness :
  exists p' ks wccs gaps,
    wcc_calc Z count_M_handle steady_trywcc 20 refining_kwargs fresh_plane
    = Some (p', Ok (ks, wccs, gaps)) /\
    spans_half ks /\
    (num_strings (update (_defaults fresh_plane) refining_kwargs)
     <= Z.of_nat (length ks))%Z.
Proof.
  destruct (wcc_calc Z count_M_handle steady_trywcc 20 refining_kwargs
                     fresh_plane)
    as [[p' [[[ks wccs] gaps] | e]] |] eqn:E;
    try (vm_compute in E; discriminate E).
  exists p', ks, wccs, gaps. split; [reflexivity |].
  exact (wcc_calc_k_points_span Z count_M_handle steady_trywcc 20
           refining_kwargs fresh_plane p' ks wccs gaps E).
Defined.

(** ** A provider that fails *)

Lemma parse_input_eq (Mats : Type) (kwargs : list kwarg) (p : Plane) :
  (8 <= num_strings (update (_defaults p) kwargs))%Z ->
  parse_input kwargs p = (set_cfg (update (_defaults p) kwargs) p, Ok tt).
Proof.
  intros Hn. unfold parse_input. rewrite mbind_modify, mbind_read.
  cbn [_cfg set_cfg].
  destruct (Z.ltb_spec (num_strings (update (_defaults p) kwargs)) 2);
    [lia |].
  destruct (Z.ltb_spec (num_strings (update (_defaults p) kwargs)) 8);
    [lia | reflexivity].
Qed.

Lemma for_each_idle {A S} (l : list A) (body : A -> S -> result S) (s : S) :
  (forall a, body a s = Ok s) -> for_each l body s = Ok s.
Proof.
  intros H. induction l as [| a l IH]; [reflexivity |].
  cbn [for_each]. rewrite H. exact IH.
Qed.

(** On a surface whose first line has no WCCs, [invariant] multiplies
    nothing and returns 0. *)
Lemma invariant_unsolved (p : Plane) (rest : list (list Q)) :
  has_results p = true -> _wcc_list p = [] :: rest -> invariant p = Ok 0%Z.
Proof.
  intros Hr Hw. unfold invariant. rewrite Hr, Hw. cbn [negb].
  rewrite for_each_idle; [reflexivity |].
  intros i. unfold invariant_outer. reflexivity.
Qed.

Section ProviderFails.

Variable Mats : Type.
Variable M_handle : Q -> Z -> result Mats.
Variable trywcc : Mats -> result (list Q * Q).

(** X16.  When the provider raises at every line, [wcc_calc] with an
    accepted [num_strings] raises the exception of the provider at the
    first line.  The surface is left initialised and unsolved: [get_res]
    returns the initial lines with empty WCC lists and gaps [None], the
    pickle file is untouched, and [invariant] returns 0 rather than
    raising. *)
Theorem wcc_calc_provider_failure (e : exn) (fuel : nat)
  (kwargs : list kwarg) (p : Plane) :
  (forall kx N, M_handle kx N = Raise e) ->
  (8 <= num_strings (update (_defaults p) kwargs))%Z ->
  exists p',
    wcc_calc Mats M_handle trywcc (S fuel) kwargs p = Some (p', Raise e) /\
    get_res p'
    = Ok (linspace_half (num_strings (update (_defaults p) kwargs)),
          repeat [] (Z.to_nat (num_strings (update (_defaults p) kwargs))),
          repeat None (Z.to_nat (num_strings (update (_defaults p) kwargs)))) /\
    pickle_file p' = pickle_file p /\
    invariant p' = Ok 0%Z.
Proof.
  intros HM Hn. unfold wcc_calc.
  rewrite (parse_input_eq Mats) by exact Hn.
  set (cfg := update (_defaults p) kwargs) in *.
  set (p1 := set_cfg cfg p).
  cbn [wcc_loop].
  assert (Hnc : all (_neighbour_check (initialise p1)) = false).
  { apply (nth_false_not_all _ 0);
      cbn [initialise _neighbour_check p1 set_cfg _cfg];
      [rewrite repeat_length; lia | apply nth_repeat]. }
  rewrite Hnc.
  unfold loop_body. unfold mbind at 1. unfold solve_pass.
  pose proof (linspace_half_length (num_strings cfg)) as Hlen.
  assert (Hks : _k_points (initialise p1) = linspace_half (num_strings cfg))
    by reflexivity.
  rewrite Hks.
  destruct (linspace_half (num_strings cfg)) as [| k0 ks] eqn:Ek;
    [cbn [length] in Hlen; lia |].
  unfold enumerate. cbn [length seq combine mfor_each]. unfold mbind at 1.
  unfold solve_line. rewrite (mbind_item _ 0 false)
    by (cbn [initialise _string_status p1 set_cfg _cfg];
        rewrite repeat_length; lia).
  assert (Hss : nth 0 (_string_status (initialise p1)) false = false)
    by (cbn [initialise _string_status]; apply nth_repeat).
  rewrite Hss. unfold mbind at 1.
  unfold _getwcc, getwcc_run. rewrite HM. cbn [bind].
  eexists. split; [reflexivity |].
  split; [unfold get_res; cbn; rewrite Ek; reflexivity |].
  split; [reflexivity |].
  assert (Hrep : exists rest,
             repeat (@nil Q) (Z.to_nat (num_strings cfg)) = [] :: rest).
  { destruct (Z.to_nat (num_strings cfg)) as [| m] eqn:Em; [lia |].
    exists (repeat [] m). reflexivity. }
  destruct Hrep as [rest Hrest].
  apply (invariant_unsolved _ rest); [reflexivity |].
  cbn [log_solver_call initialise _wcc_list p1 set_cfg _cfg]. exact Hrest.
Qed.

End ProviderFails.

Lemma wcc_calc_provider_failure_witness :
  exists p',
    wcc_calc Z failing_M_handle steady_trywcc 1 [] fresh_plane
    = Some (p', Raise (RuntimeError "no matrices")) /\
    get_res p'
    = Ok (linspace_half (num_strings (update (_defaults fresh_plane) [])),
          repeat [] (Z.to_nat (num_strings
                                 (update (_defaults fresh_plane) []))),
          repeat None (Z.to_nat (num_strings
                                   (update (_defaults fresh_plane) [])))) /\
    pickle_file p' = pickle_file fresh_plane /\
    invariant p' = Ok 0%Z.
Proof.
  apply (wcc_calc_provider_failure Z failing_M_handle steady_trywcc
           (RuntimeError "no matrices") 0 [] fresh_plane).
  - intros kx N. reflexivity.
  - cbn. lia.
Defined.

(** ** [invariant] after [wcc_calc] *)

Lemma map_fst_combine {A B} (a : list A) (b : list B) :
  length a = length b -> map fst (combine a b) = a.
Proof.
  revert b. induction a as [| x a IH]; intros [| y b] H; try discriminate H;
    [reflexivity |].
  cbn [combine map fst]. f_equal. apply IH. injection H as H. exact H.
Qed.

Lemma map_snd_combine {A B} (a : list A) (b : list B) :
  length a = length b -> map snd (combine a b) = b.
Proof.
  revert b. induction a as [| x a IH]; intros [| y b] H; try discriminate H;
    [reflexivity |].
  cbn [combine map snd]. f_equal. apply IH. injection H as H. exact H.
Qed.

Lemma map_Some_values (gaps : list (option Q)) :
  (forall g, In g gaps -> exists q, g = Some q) ->
  map Some (map (fun g => match g with Some q => q | None => 0 end) gaps)
  = gaps.
Proof.
  intros H. rewrite map_map. rewrite <- (map_id gaps) at 2.
  apply map_ext_in. intros g Hg. destruct (H g Hg) as [q ->]. reflexivity.
Qed.

Lemma width_first_line (lines : list (Q * list Q)) :
  width lines = length (nth 0 (lines_wccs lines) []).
Proof. destruct lines as [| l lines]; reflexivity. Qed.

Lemma invariant_reads_lines (p : Plane) (lines : list (Q * list Q)) :
  has_results p = true ->
  _gaps p = lines_gaps lines -> _wcc_list p = lines_wccs lines ->
  invariant p = invariant (plane_of_lines (_cfg p) (_k_points p) lines).
Proof.
  intros Hr Hg Hw. unfold invariant, plane_of_lines.
  cbn [has_results _wcc_list _gaps]. rewrite Hr, Hg, Hw. reflexivity.
Qed.

Section InvariantAfterCalc.

Variable Mats : Type.
Variable M_handle : Q -> Z -> result Mats.
Variable trywcc : Mats -> result (list Q * Q).

Lemma wcc_calc_has_results (fuel : nat) (kwargs : list kwarg) (p p' : Plane)
  (r : Snapshot) :
  wcc_calc Mats M_handle trywcc fuel kwargs p = Some (p', Ok r) ->
  has_results p' = true.
Proof.
  intros H.
  destruct (wcc_calc_result Mats M_handle trywcc fuel kwargs p p' r H)
    as (p2 & u & _ & Hloop & -> & _).
  apply wcc_loop_options in Hloop. destruct Hloop as (_ & _ & a3 & _).
  cbn [initialise has_results] in a3.
  unfold _save. destruct (use_pickle (_cfg p2)); exact a3.
Qed.

(** X17.  After [wcc_calc] has returned a result all of whose lines have
    the same number of WCCs, [invariant] does not raise: it returns 1 if
    the product of [_sgng] over the neighbouring pairs of returned lines
    and the WCCs of the second line of each pair is -1, and 0 otherwise. *)
Theorem wcc_calc_then_invariant (fuel : nat) (kwargs : list kwarg)
  (p p' : Plane) (ks : list Q) (wccs : list (list Q))
  (gaps : list (option Q)) :
  wcc_calc Mats M_handle trywcc fuel kwargs p = Some (p', Ok (ks, wccs, gaps)) ->
  (forall w, In w wccs -> length w = length (nth 0 wccs [])) ->
  exists lines,
    lines_gaps lines = gaps /\ lines_wccs lines = wccs /\
    invariant p'
    = Ok (if (sign_product _sgng lines =? -1)%Z then 1%Z else 0%Z).
Proof.
  intros H Heq.
  pose proof (wcc_calc_has_results fuel kwargs p p' _ H) as Hres.
  destruct (wcc_calc_final Mats M_handle trywcc fuel kwargs p p' _ H)
    as (Hr & _ & (Hok & _ & _ & Hsol & _) & Hall & _).
  injection Hr as -> -> ->.
  destruct Hok as (H1 & H2 & H3 & H4).
  set (values := map (fun g => match g with Some q => q | None => 0 end)
                     (_gaps p')).
  exists (combine values (_wcc_list p')).
  assert (Hlen : length values = length (_wcc_list p'))
    by (unfold values; rewrite length_map; congruence).
  assert (Hg : lines_gaps (combine values (_wcc_list p')) = _gaps p').
  { unfold lines_gaps. rewrite <- (map_map fst Some).
    rewrite map_fst_combine by exact Hlen.
    apply map_Some_values. intros g Hin.
    destruct (In_nth _ _ None Hin) as (i & Hi & <-).
    destruct (Hsol i) as (_ & _ & q & Hq & _);
      [apply all_true_nth; [exact Hall | lia] |].
    exists q. exact Hq. }
  assert (Hw : lines_wccs (combine values (_wcc_list p')) = _wcc_list p')
    by (apply map_snd_combine; exact Hlen).
  split; [exact Hg |]. split; [exact Hw |].
  rewrite (invariant_reads_lines p' (combine values (_wcc_list p')))
    by (try exact Hres; symmetry; assumption).
  assert (Hwidth : forall l, In l (combine values (_wcc_list p')) ->
                             length (snd l)
                             = width (combine values (_wcc_list p'))).
  { intros l Hin. rewrite width_first_line, Hw. apply Heq.
    rewrite <- Hw. apply in_map. exact Hin. }
  rewrite invariant_of_lines.
  - rewrite truncate_lines_all by exact Hwidth. reflexivity.
  - intros l Hin. rewrite (Hwidth l); [lia |].
    destruct (combine values (_wcc_list p')); [destruct Hin |].
    right. exact Hin.
Qed.

End InvariantAfterCalc.

Lemma wcc_calc_then_invariant_witness :
  exists p' ks wccs gaps lines,
    wcc_calc Z count_M_handle steady_trywcc 3 [] fresh_plane
    = Some (p', Ok (ks, wccs, gaps)) /\
    lines_gaps lines = gaps /\ lines_wccs lines = wccs /\
    invariant p'
    = Ok (if (sign_product _sgng lines =? -1)%Z then 1%Z else 0%Z).
Proof.
  destruct (wcc_calc Z count_M_handle steady_trywcc 3 [] fresh_plane)
    as [[p' [[[ks wccs] gaps] | e]] |] eqn:E;
    try (vm_compute in E; discriminate E).
  assert (Hw : forall w, In w wccs -> length w = length (nth 0 wccs [])).
  { pose proof E as E'. vm_compute in E'. injection E' as _ _ <- _.
    intros w Hin. cbn [In] in Hin.
    repeat (destruct Hin as [<- | Hin]; [reflexivity |]). destruct Hin. }
  destruct (wcc_calc_then_invariant Z count_M_handle steady_trywcc 3 []
              fresh_plane p' ks wccs gaps E Hw) as (lines & a & b & c).
  exists p', ks, wccs, gaps, lines.
  split; [reflexivity |]. split; [exact a |]. split; [exact b | exact c].
Defined.

(** ** The calls of the line solver *)

Lemma solved_replace (ks : list Q) :
  forall (ss : list bool) (i : nat),
    length ks = length ss -> (i < length ss)%nat ->
    nth i ss false = false ->
    Permutation (map fst (filter snd (combine ks (replace_at i true ss))))
                (nth i ks 0 :: map fst (filter snd (combine ks ss))).
Proof.
  induction ks as [| k ks IH]; intros [| s ss] i Hlen Hi Hnth;
    try discriminate Hlen; [cbn in Hi; lia |].
  injection Hlen as Hlen. destruct i as [| i].
  - cbn in Hnth. subst s. unfold replace_at.
    cbn [firstn skipn app combine filter snd map fst nth]. reflexivity.
  - unfold replace_at. cbn [firstn skipn app combine nth].
    change (firstn i ss ++ true :: skipn (S i) ss)
      with (replace_at i true ss).
    cbn [length] in Hi. cbn [nth] in Hnth.
    specialize (IH ss i Hlen ltac:(lia) Hnth).
    cbn [filter snd]. destruct s; cbn [map fst].
    + rewrite IH. apply perm_swap.
    + exact IH.
Qed.

Lemma solved_insert (k : nat) :
  forall (ks : list Q) (ss : list bool) (m : Q),
    length ks = length ss ->
    map fst (filter snd (combine (insert ks k m) (insert ss k false)))
    = map fst (filter snd (combine ks ss)).
Proof.
  induction k as [| k IH]; intros ks ss m Hlen.
  - reflexivity.
  - destruct ks as [| a ks], ss as [| s ss]; try discriminate Hlen;
      [reflexivity |].
    injection Hlen as Hlen. unfold insert. cbn [firstn skipn app combine].
    change (firstn k ks ++ m :: skipn k ks) with (insert ks k m).
    change (firstn k ss ++ false :: skipn k ss) with (insert ss k false).
    cbn [filter snd]. destruct s; cbn [map fst]; rewrite IH by exact Hlen;
      reflexivity.
Qed.

Lemma solved_all (ks : list Q) :
  forall ss : list bool,
    length ks = length ss -> all ss = true ->
    map fst (filter snd (combine ks ss)) = ks.
Proof.
  induction ks as [| k ks IH]; intros [| s ss] Hlen Hall;
    try discriminate Hlen; [reflexivity |].
  injection Hlen as Hlen. unfold all in Hall. cbn [forallb] in Hall.
  apply andb_prop in Hall. destruct Hall as [-> Hall].
  cbn [combine filter snd map fst]. f_equal. apply IH; assumption.
Qed.

Lemma solved_none (ks : list Q) (n : nat) :
  map fst (filter snd (combine ks (repeat false n))) = [].
Proof.
  revert n. induction ks as [| k ks IH]; intros [| n]; try reflexivity.
  cbn [repeat combine filter snd]. apply IH.
Qed.

Lemma calls_inv_set_flags (c0 : list Q) (p : Plane) (f : list bool) :
  calls_inv c0 p -> calls_inv c0 (set_neighbour_check f p).
Proof. intros H. exact H. Qed.

Lemma calls_inv_bisected (c0 : list Q) (p : Plane) (j : nat) :
  lengths_ok p -> calls_inv c0 p -> calls_inv c0 (bisected j p).
Proof.
  intros (_ & _ & _ & H4) (l & Hl & Hp). exists l. split; [exact Hl |].
  unfold solved_positions. cbn [bisected _k_points _string_status].
  rewrite solved_insert by congruence. exact Hp.
Qed.

Lemma calls_inv_save (c0 : list Q) (p : Plane) :
  calls_inv c0 p -> calls_inv c0 (fst (_save p)).
Proof.
  intros H. unfold _save. destruct (use_pickle (_cfg p)); exact H.
Qed.

Lemma check_neighbours_calls (c0 : list Q) (p p' : Plane) (r : result bool) :
  lengths_ok p -> calls_inv c0 p -> _check_neighbours p = (p', r) ->
  calls_inv c0 p'.
Proof.
  intros Hok Hc Hrun.
  destruct (check_neighbours_effect p p' r Hok Hrun)
    as (f & (F1 & _) & [(-> & _) | (j & _ & _ & _ & _ & ->)]).
  - exact Hc.
  - apply calls_inv_bisected; [| exact Hc].
    unfold lengths_ok.
    cbn [_k_points _wcc_list _gaps _neighbour_check _string_status
         set_neighbour_check].
    rewrite F1. exact Hok.
Qed.

Section SolverCalls.

Variable Mats : Type.
Variable M_handle : Q -> Z -> result Mats.
Variable trywcc : Mats -> result (list Q * Q).

Local Abbreviation cline := (solve_line Mats M_handle trywcc).
Local Abbreviation cpass := (solve_pass Mats M_handle trywcc).
Local Abbreviation cbody := (loop_body Mats M_handle trywcc).
Local Abbreviation cloop := (wcc_loop Mats M_handle trywcc).

Lemma solve_line_calls (c0 : list Q) (i : nat) (p p' : Plane) (u : unit) :
  lengths_ok p -> calls_inv c0 p ->
  cline (i, nth i (_k_points p) 0) p = (p', Ok u) ->
  calls_inv c0 p'.
Proof.
  intros (_ & _ & _ & H4) (l & Hl & Hp) Hrun.
  destruct (solve_line_effect Mats M_handle trywcc i _ p p' u Hrun)
    as [[_ ->] | (Hst & x & g & _ & _ & _ & His & _ & Ek & _ & _ & _ & Ess
                  & Esc)].
  { exists l. split; assumption. }
  exists (l ++ [nth i (_k_points p) 0]).
  split; [rewrite Esc, Hl, app_assoc; reflexivity |].
  unfold solved_positions. rewrite Ek, Ess.
  rewrite solved_replace by (try exact Hst; try exact His; congruence).
  rewrite <- Permutation_cons_append. apply perm_skip. exact Hp.
Qed.

Lemma solve_pass_calls_from (c0 : list Q) (l : list Q) :
  forall (i : nat) (p p' : Plane) (u : unit),
    skipn i (_k_points p) = l ->
    lengths_ok p -> calls_inv c0 p ->
    mfor_each (enum_from i l) cline p = (p', Ok u) ->
    calls_inv c0 p'.
Proof.
  induction l as [| kx l IH]; intros i p p' u Hskip Hok Hc Hrun.
  - cbn in Hrun. injection Hrun as <- _. exact Hc.
  - rewrite enum_from_cons in Hrun. cbn [mfor_each] in Hrun.
    unfold mbind in Hrun.
    destruct (skipn_cons_inv _ _ _ _ 0 Hskip) as (Hi & Hnth & Hrest).
    pose proof (keeps_solve_line Mats M_handle trywcc (i, kx) p) as Hs.
    destruct (cline (i, kx) p) as [p1 [u1 | e]] eqn:E1; cbn [fst] in Hs;
      [| discriminate Hrun].
    rewrite <- Hnth in E1.
    pose proof (solve_line_calls c0 i p p1 u1 Hok Hc E1) as Hc1.
    pose proof (same_shape_lengths_ok _ _ Hs Hok) as Hok1.
    destruct Hs as (_ & Ek & _).
    apply (IH (S i) p1 p' u); try assumption.
    rewrite Ek. exact Hrest.
Qed.

Lemma loop_body_calls (c0 : list Q) (p p' : Plane) (x : loop_exit) :
  lengths_ok p -> calls_inv c0 p -> cbody p = (p', Ok x) ->
  lengths_ok p' /\ calls_inv c0 p'.
Proof.
  intros Hok Hc Hrun. unfold loop_body in Hrun. unfold mbind at 1 in Hrun.
  pose proof (keeps_solve_pass Mats M_handle trywcc p) as Hs.
  destruct (cpass p) as [p1 [u | e]] eqn:Ep; cbn [fst] in Hs;
    [| discriminate Hrun].
  pose proof (same_shape_lengths_ok _ _ Hs Hok) as Hok1.
  assert (Hc1 : calls_inv c0 p1).
  { unfold solve_pass in Ep. rewrite enumerate_enum_from in Ep.
    exact (solve_pass_calls_from c0 _ 0 p p1 u eq_refl Hok Hc Ep). }
  rewrite mbind_read in Hrun.
  destruct (no_neighbour_check (_cfg p1)); cbn [negb] in Hrun.
  - rewrite mbind_read in Hrun.
    assert (p' = p1) as ->
      by (destruct (verbose (_cfg p1)); injection Hrun as <- _; reflexivity).
    split; assumption.
  - unfold mbind in Hrun.
    destruct (_check_neighbours p1) as [p2 [b | e]] eqn:Ecn;
      [| discriminate Hrun].
    cbn [ret] in Hrun. injection Hrun as <- _.
    split; [| exact (check_neighbours_calls c0 p1 p2 _ Hok1 Hc1 Ecn)].
    destruct (check_neighbours_outcome p1 p2 _ Hok1 Ecn)
      as [(_ & _ & _ & a4 & _) | (j & _ & _ & _ & b4 & _)]; assumption.
Qed.

Lemma wcc_loop_calls (c0 : list Q) (fuel : nat) :
  forall (p p' : Plane) (u : unit),
    lengths_ok p -> calls_inv c0 p -> cloop fuel p = Some (p', Ok u) ->
    calls_inv c0 p'.
Proof.
  induction fuel as [| fuel IH]; intros p p' u Hok Hc Hrun;
    [discriminate Hrun |].
  cbn [wcc_loop] in Hrun.
  destruct (all (_neighbour_check p)).
  { injection Hrun as <- _. exact Hc. }
  destruct (cbody p) as [p1 [x | e]] eqn:Eb; [| discriminate Hrun].
  destruct (loop_body_calls c0 p p1 x Hok Hc Eb) as [Hok1 Hc1].
  destruct x.
  - exact (IH p1 p' u Hok1 Hc1 Hrun).
  - injection Hrun as <- _. exact Hc1.
Qed.

(** X18.  When [wcc_calc] returns, the line solver [_getwcc] has been
    called exactly once for every line of the result, at the position of
    that line, and for nothing else: the positions of the calls made during
    the call are a rearrangement of the returned [k_points]. *)
Theorem wcc_calc_solves_each_line_once (fuel : nat) (kwargs : list kwarg)
  (p p' : Plane) (ks : list Q) (wccs : list (list Q))
  (gaps : list (option Q)) :
  wcc_calc Mats M_handle trywcc fuel kwargs p = Some (p', Ok (ks, wccs, gaps)) ->
  exists calls,
    solver_calls p' = solver_calls p ++ calls /\ Permutation calls ks.
Proof.
  intros H.
  destruct (wcc_calc_final Mats M_handle trywcc fuel kwargs p p' _ H)
    as (Hr & _ & (Hok & _) & Hall & _).
  injection Hr as -> _ _.
  destruct (wcc_calc_result Mats M_handle trywcc fuel kwargs p p' _ H)
    as (p2 & u & Hn & Hloop & -> & _).
  set (p1 := set_cfg (update (_defaults p) kwargs) p) in *.
  assert (Hc0 : calls_inv (solver_calls p) (initialise p1)).
  { exists []. split; [cbn; rewrite app_nil_r; reflexivity |].
    unfold solved_positions. cbn [initialise _k_points _string_status].
    rewrite solved_none. constructor. }
  destruct (initialise_lengths_ok p1) as [Hok1 _];
    [cbn [p1 set_cfg _cfg]; lia |].
  pose proof (wcc_loop_calls _ fuel _ p2 u Hok1 Hc0 Hloop) as Hc2.
  apply calls_inv_save in Hc2. destruct Hc2 as (l & Hl & Hp).
  exists l. split; [exact Hl |].
  unfold solved_positions in Hp.
  destruct Hok as (_ & _ & _ & H4).
  rewrite solved_all in Hp by (try exact Hall; congruence). exact Hp.
Qed.

End SolverCalls.

Lemma wcc_calc_solves_each_line_once_witness :
  exists p' ks wccs gaps calls,
    wcc_calc Z count_M_handle steady_trywcc 20 refining_kwargs fresh_plane
    = Some (p', Ok (ks, wccs, gaps)) /\
    solver_calls p' = solver_calls fresh_plane ++ calls /\
    Permutation calls ks.
Proof.
  destruct (wcc_calc Z count_M_handle steady_trywcc 20 refining_kwargs
                     fresh_plane)
    as [[p' [[[ks wccs] gaps] | e]] |] eqn:E;
    try (vm_compute in E; discriminate E).
  destruct (wcc_calc_solves_each_line_once Z count_M_handle steady_trywcc 20
              refining_kwargs fresh_plane p' ks wccs gaps E)
    as (calls & a & b).
  exists p', ks, wccs, gaps, calls.
  split; [reflexivity |]. split; [exact a | exact b].
Defined.

(** ** A single pass *)

Section SinglePass.

Variable Mats : Type.
Variable M_handle : Q -> Z -> result Mats.
Variable trywcc : Mats -> result (list Q * Q).

(** X19.  With [no_neighbour_check] and [verbose] both on, [wcc_calc] ends
    after one pass over the initial lines, whatever the provider does: one
    turn of the [while] loop suffices for it to return or raise.  When it
    returns, the lines are the [num_strings] initial ones, none was
    inserted. *)
Theorem wcc_calc_single_pass (fuel : nat) (kwargs : list kwarg) (p : Plane) :
  no_neighbour_check (update (_defaults p) kwargs) = true ->
  verbose (update (_defaults p) kwargs) = true ->
  exists p' r,
    wcc_calc Mats M_handle trywcc (S fuel) kwargs p = Some (p', r) /\
    forall ks wccs gaps,
      r = Ok (ks, wccs, gaps) ->
      ks = linspace_half (num_strings (update (_defaults p) kwargs)) /\
      length wccs = Z.to_nat (num_strings (update (_defaults p) kwargs)).
Proof.
  intros Hnn Hv. unfold wcc_calc.
  pose proof (parse_input_state Mats kwargs p) as Hs.
  destruct (parse_input kwargs p) as [p1 [u | e]] eqn:Ep; cbn [fst] in Hs.
  2: { eexists. eexists. split; [reflexivity |].
       intros ks wccs gaps Hr. discriminate Hr. }
  destruct (parse_input_ok Mats kwargs p p1 u Ep) as [_ Hn]. subst p1.
  cbn [set_cfg _cfg] in Hn.
  set (cfg := update (_defaults p) kwargs) in *.
  set (p1 := set_cfg cfg p).
  cbn [wcc_loop].
  assert (Hnc : all (_neighbour_check (initialise p1)) = false).
  { apply (nth_false_not_all _ 0);
      cbn [initialise _neighbour_check p1 set_cfg _cfg];
      [rewrite repeat_length; lia | apply nth_repeat]. }
  rewrite Hnc. unfold loop_body. unfold mbind at 1.
  pose proof (keeps_solve_pass Mats M_handle trywcc (initialise p1)) as Hp.
  destruct (solve_pass Mats M_handle trywcc (initialise p1))
    as [p2 [u2 | e]]; cbn [fst] in Hp.
  2: { eexists. eexists. split; [reflexivity |].
       intros ks wccs gaps Hr. discriminate Hr. }
  destruct Hp as (Ec & Ek & _ & Ew & _).
  cbn [initialise _cfg _k_points _wcc_list p1 set_cfg] in Ec, Ek, Ew.
  rewrite repeat_length in Ew.
  rewrite mbind_read, Ec, Hnn. cbn [negb]. rewrite mbind_read, Ec, Hv.
  cbn [ret]. eexists. eexists. split; [reflexivity |].
  intros ks wccs gaps Hr. injection Hr as <- <- _.
  unfold _save. destruct (use_pickle (_cfg p2));
    cbn [fst _k_points _wcc_list set_pickle_file]; split; assumption.
Qed.

End SinglePass.

Lemma wcc_calc_single_pass_witness :
  exists p' r,
    wcc_calc Z count_M_handle steady_trywcc 1 [kw_no_neighbour_check true]
             fresh_plane = Some (p', r) /\
    forall ks wccs gaps,
      r = Ok (ks, wccs, gaps) ->
      ks = linspace_half
             (num_strings (update (_defaults fresh_plane)
                                  [kw_no_neighbour_check true])) /\
      length wccs
      = Z.to_nat (num_strings (update (_defaults fresh_plane)
                                      [kw_no_neighbour_check true])).
Proof.
  apply (wcc_calc_single_pass Z count_M_handle steady_trywcc 0
           [kw_no_neighbour_check true] fresh_plane); reflexivity.
Defined.

(** ** What [_sgng] measures *)

Lemma sines_product (a b : R) :
  (sin (2 * a) + sin (2 * b) - sin (2 * (a + b))
   = 4 * sin a * sin b * sin (a + b))%R.
Proof.
  rewrite !sin_2a, sin_plus, cos_plus.
  pose proof (sin2_cos2 a) as Ha. pose proof (sin2_cos2 b) as Hb.
  unfold Rsqr in Ha, Hb.
  set (sa := sin a) in *. set (ca := cos a) in *.
  set (sb := sin b) in *. set (cb := cos b) in *.
  assert (E : (2 * sa * ca + 2 * sb * cb
               - 2 * (sa * cb + ca * sb) * (ca * cb - sa * sb)
               - 4 * sa * sb * (sa * cb + ca * sb)
               = 2 * sa * ca * (1 - (sb * sb + cb * cb))
                 + 2 * sb * cb * (1 - (sa * sa + ca * ca)))%R) by ring.
  rewrite Ha, Hb in E. lra.
Qed.

Lemma sin_pi_sign (d : R) :
  (-1 < d < 1)%R ->
  ((0 < d -> 0 < sin (PI * d)) /\ (d < 0 -> sin (PI * d) < 0)
   /\ (d = 0 -> sin (PI * d) = 0))%R.
Proof.
  intros [Hl Hu]. pose proof PI_RGT_0 as Hpi.
  split; [| split].
  - intros Hd. apply sin_gt_0; nra.
  - intros Hd. replace (PI * d)%R with (- (PI * - d))%R by ring.
    rewrite sin_neg.
    assert (0 < sin (PI * - d))%R by (apply sin_gt_0; nra). lra.
  - intros ->. rewrite Rmult_0_r. apply sin_0.
Qed.

(** The sum of sines of [_sgng], as a product. *)
Lemma sgng_sum_product (z zplus x : Q) :
  (sin (2 * PI * Q2R (zplus - z)) + sin (2 * PI * Q2R (x - zplus))
   + sin (2 * PI * Q2R (z - x))
   = 4 * sin (PI * (Q2R zplus - Q2R z)) * sin (PI * (Q2R x - Q2R zplus))
     * sin (PI * (Q2R x - Q2R z)))%R.
Proof.
  rewrite !Qreals.Q2R_minus.
  set (Z0 := Q2R z). set (Z1 := Q2R zplus). set (X := Q2R x).
  replace (2 * PI * (Z1 - Z0))%R with (2 * (PI * (Z1 - Z0)))%R by ring.
  replace (2 * PI * (X - Z1))%R with (2 * (PI * (X - Z1)))%R by ring.
  replace (2 * PI * (Z0 - X))%R
    with (- (2 * (PI * (Z1 - Z0) + PI * (X - Z1))))%R by ring.
  rewrite sin_neg.
  replace (PI * (X - Z0))%R with (PI * (Z1 - Z0) + PI * (X - Z1))%R by ring.
  rewrite <- sines_product. ring.
Qed.

(** [_sgng] is -1 exactly for the three orders in which [x] lies between
    [z] and [zplus]. *)
Lemma sgng_order (z zplus x : Q) :
  0 <= z -> z < 1 -> 0 <= zplus -> zplus < 1 -> 0 <= x -> x < 1 ->
  (_sgng z zplus x = (-1)%Z <->
   (z < x /\ x < zplus) \/ (zplus < z /\ z < x) \/ (x < zplus /\ zplus < z))
  /\ (_sgng z zplus x = (-1)%Z \/ _sgng z zplus x = 1%Z).
Proof.
  intros Hz0 Hz1 Hp0 Hp1 Hx0 Hx1.
  split; [| unfold _sgng, copysign1; destruct (Rle_dec _ _); auto].
  unfold _sgng. rewrite sgng_sum_product.
  apply Qreals.Qle_Rle in Hz0, Hp0, Hx0. apply Qreals.Qlt_Rlt in Hz1, Hp1, Hx1.
  change (Q2R 0) with (0 / 1)%R in Hz0, Hp0, Hx0.
  change (Q2R 1) with (1 / 1)%R in Hz1, Hp1, Hx1.
  assert (Hord :
    ((z < x /\ x < zplus) \/ (zplus < z /\ z < x) \/ (x < zplus /\ zplus < z))
    <-> ((Q2R z < Q2R x /\ Q2R x < Q2R zplus)
         \/ (Q2R zplus < Q2R z /\ Q2R z < Q2R x)
         \/ (Q2R x < Q2R zplus /\ Q2R zplus < Q2R z))%R).
  { split; intros [[a b] | [[a b] | [a b]]];
      [ left | right; left | right; right
      | left | right; left | right; right ];
      split; first [apply Qreals.Qlt_Rlt; assumption | apply Qreals.Rlt_Qlt; assumption]. }
  rewrite Hord. clear Hord.
  set (Z0 := Q2R z) in *. set (Z1 := Q2R zplus) in *. set (X := Q2R x) in *.
  destruct (sin_pi_sign (Z1 - Z0)) as (a1 & a2 & a3); [lra |].
  destruct (sin_pi_sign (X - Z1)) as (b1 & b2 & b3); [lra |].
  destruct (sin_pi_sign (X - Z0)) as (c1 & c2 & c3); [lra |].
  set (s1 := sin (PI * (Z1 - Z0))) in *.
  set (s2 := sin (PI * (X - Z1))) in *.
  set (s3 := sin (PI * (X - Z0))) in *.
  assert (Hneg : (4 * s1 * s2 * s3 < 0)%R
                 <-> ((Z0 < X /\ X < Z1) \/ (Z1 < Z0 /\ Z0 < X)
                      \/ (X < Z1 /\ Z1 < Z0))%R).
  { destruct (Rtotal_order Z1 Z0) as [H1 | [H1 | H1]];
      destruct (Rtotal_order X Z1) as [H2 | [H2 | H2]];
      destruct (Rtotal_order X Z0) as [H3 | [H3 | H3]];
      try lra.
    all: try (assert (S1 : (s1 < 0)%R) by (apply a2; lra));
         try (assert (S1 : (0 < s1)%R) by (apply a1; lra));
         try (assert (S1 : (s1 = 0)%R) by (apply a3; lra));
         try (assert (S2 : (s2 < 0)%R) by (apply b2; lra));
         try (assert (S2 : (0 < s2)%R) by (apply b1; lra));
         try (assert (S2 : (s2 = 0)%R) by (apply b3; lra));
         try (assert (S3 : (s3 < 0)%R) by (apply c2; lra));
         try (assert (S3 : (0 < s3)%R) by (apply c1; lra));
         try (assert (S3 : (s3 = 0)%R) by (apply c3; lra)).
    all: try (assert (S12 : (0 < s1 * s2)%R) by nra);
         try (assert (S12 : (s1 * s2 < 0)%R) by nra);
         try (assert (S12 : (s1 * s2 = 0)%R) by nra).
    all: split; intros H; try lra; try nra. }
  unfold copysign1. destruct (Rle_dec 0 (4 * s1 * s2 * s3)) as [Hle | Hnle].
  - split; [intros H; discriminate H |].
    intros H. apply Hneg in H. lra.
  - split; [intros _ | reflexivity]. apply Hneg. lra.
Qed.

(** X20.  For two gaps [z], [zplus] and a WCC [x] in [[0, 1)], [_sgng]
    (in exact arithmetic) is -1 exactly when, going upwards around the
    circle from [z], one meets [x] strictly before [zplus]: the WCC lies
    between the gap of the one line and the gap of the next line.  In all
    other cases, also when two of the three coincide, it is 1. *)
Theorem sgng_cyclic_order (z zplus x : Q) :
  0 <= z -> z < 1 -> 0 <= zplus -> zplus < 1 -> 0 <= x -> x < 1 ->
  (_sgng z zplus x = (-1)%Z <->
   (z < x /\ x < zplus) \/ (zplus < z /\ z < x) \/ (x < zplus /\ zplus < z))
  /\ (_sgng z zplus x = (-1)%Z \/ _sgng z zplus x = 1%Z).
Proof. exact (sgng_order z zplus x). Qed.

Lemma sgng_cyclic_order_witness :
  (_sgng 0 (3 # 4) (1 # 4) = (-1)%Z <->
   (0 < 1 # 4 /\ 1 # 4 < 3 # 4) \/ (3 # 4 < 0 /\ 0 < 1 # 4)
   \/ (1 # 4 < 3 # 4 /\ 3 # 4 < 0))
  /\ (_sgng 0 (3 # 4) (1 # 4) = (-1)%Z \/ _sgng 0 (3 # 4) (1 # 4) = 1%Z).
Proof.
  apply (sgng_cyclic_order 0 (3 # 4) (1 # 4)); lra.
Defined.

(** Two lines with the same gap: every sign is 1. *)
Lemma sgng_same_gap (g g' x : Q) : g == g' -> _sgng g g' x = 1%Z.
Proof.
  intros E. unfold _sgng. rewrite sgng_sum_product.
  rewrite (Qreals.Qeq_eqR _ _ E).
  replace (Q2R g' - Q2R g')%R with 0%R by ring.
  rewrite Rmult_0_r, sin_0. unfold copysign1.
  destruct (Rle_dec 0 _) as [H | H]; [reflexivity |].
  exfalso. apply H. right. ring.
Qed.

Lemma fold_mul_ones (l : list Z) :
  (forall s, In s l -> s = 1%Z) -> fold_left Z.mul l 1%Z = 1%Z.
Proof.
  induction l as [| s l IH]; intros H; [reflexivity |].
  cbn [fold_left]. rewrite (H s) by (left; reflexivity).
  apply IH. intros s' Hs'. apply H. right. exact Hs'.
Qed.

Lemma sign_product_same_gap (g : Q) (lines : list (Q * list Q)) :
  (forall l, In l lines -> fst l == g) -> sign_product _sgng lines = 1%Z.
Proof.
  induction lines as [| [g0 ws0] lines IH]; intros H; [reflexivity |].
  destruct lines as [| [g1 ws1] rest]; [reflexivity |].
  cbn [sign_product].
  assert (E0 : g0 == g) by (apply (H (g0, ws0)); left; reflexivity).
  assert (E1 : g1 == g)
    by (apply (H (g1, ws1)); right; left; reflexivity).
  rewrite fold_mul_ones.
  - rewrite Z.mul_1_l. apply IH. intros l Hl. apply H. right. exact Hl.
  - intros s Hs. apply in_map_iff in Hs. destruct Hs as (x & <- & _).
    apply sgng_same_gap. rewrite E0, E1. reflexivity.
Qed.

(** X21.  On solved lines whose gaps are all the same number, however it
    is written, none of which, after the first, has fewer WCCs than the
    first, [invariant] returns 0, whatever the WCCs are: a gap that does
    not move is crossed by no WCC. *)
Theorem invariant_constant_gap (cfg : Config) (ks : list Q) (g : Q)
  (lines : list (Q * list Q)) :
  (forall l, In l lines -> fst l == g) ->
  (forall l, In l (tl lines) -> (width lines <= length (snd l))%nat) ->
  invariant (plane_of_lines cfg ks lines) = Ok 0%Z.
Proof.
  intros Hg Hw. rewrite invariant_of_lines by exact Hw.
  rewrite (sign_product_same_gap g); [reflexivity |].
  intros l Hl. unfold truncate_lines in Hl. apply in_map_iff in Hl.
  destruct Hl as (l0 & <- & Hl0). cbn [fst]. apply Hg. exact Hl0.
Qed.

Lemma invariant_constant_gap_witness :
  invariant (plane_of_lines defaults [0; 1 # 2]
               [(1 # 4, [0; 1 # 2]); (32 # 128, [3 # 4; 3 # 4])]) = Ok 0%Z.
Proof.
  apply (invariant_constant_gap defaults [0; 1 # 2] (1 # 4)
           [(1 # 4, [0; 1 # 2]); (32 # 128, [3 # 4; 3 # 4])]).
  - intros l [<- | [<- | []]]; vm_compute; reflexivity.
  - intros l [<- | []]. cbn. lia.
Defined.

(** ** The range of the WCCs *)

Module PhaseRange.
Import Phase.
Local Open Scope R_scope.

Lemma mod1_range (v : R) : 0 <= mod1 v < 1.
Proof.
  unfold mod1. destruct (base_Int_part v) as [H1 H2]. lra.
Qed.

(** X22.  In exact arithmetic, every WCC that the list comprehension of
    [_trywcc] yields lies in [[0, 1)] (on doubles the remainder of a tiny
    negative number rounds to 1.0, [remainder_rounds_to_one], so that 1.0
    can occur as well); for an
    eigenvalue with argument in [(-pi, pi]] it is
    [- arg z / (2 pi)] when the argument is not positive, and
    [1 - arg z / (2 pi)], at least 1/2, when it is positive. *)
Theorem wcc_in_unit_interval (eigs : list eigenvalue) :
  Forall (fun w => 0 <= w < 1) (wcc_of_eigs eigs) /\
  (forall z, In z eigs -> - PI < arg z <= PI ->
             exists w, In w (wcc_of_eigs eigs) /\
                       (arg z <= 0 -> w = - arg z / (2 * PI) /\ w <= 1 / 2) /\
                       (0 < arg z ->
                        w = 1 - arg z / (2 * PI) /\ 1 / 2 <= w)).
Proof.
  pose proof PI_RGT_0 as Hpi.
  split.
  - unfold wcc_of_eigs. apply Forall_forall. intros w Hw.
    apply in_map_iff in Hw. destruct Hw as (z & <- & _). apply mod1_range.
  - intros z Hz [Hl Hu].
    exists (mod1 (Re (Cdiv_real (Cmul j (log z)) (2 * PI)))).
    split; [unfold wcc_of_eigs; apply in_map_iff; exists z; split;
            [reflexivity | exact Hz] |].
    rewrite PhaseFacts.re_j_log.
    assert (Hq : - arg z / (2 * PI) = - (arg z / (2 * PI)))
      by (field; lra).
    assert (Hb : - (1 / 2) <= arg z / (2 * PI) <= 1 / 2 /\
                 (0 < arg z -> 0 < arg z / (2 * PI)) /\
                 (arg z <= 0 -> arg z / (2 * PI) <= 0) /\
                 - (1 / 2) < arg z / (2 * PI)).
    { assert (Hinv : 0 < / (2 * PI)) by (apply Rinv_0_lt_compat; lra).
      assert (Hone : 2 * PI * / (2 * PI) = 1) by (field; lra).
      unfold Rdiv. repeat split; try intros H; nra. }
    destruct Hb as ((b1 & b2) & b3 & b4 & b5).
    split.
    + intros Ha. rewrite (PhaseFacts.mod1_between _ 0);
        [| specialize (b4 Ha); lra].
      split; lra.
    + intros Ha. rewrite (PhaseFacts.mod1_between _ (-1));
        [| specialize (b3 Ha); lra].
      split; lra.
Qed.

Lemma wcc_in_unit_interval_witness :
  exists w,
    In w (wcc_of_eigs [mkEig 1 (PI / 2)]) /\
    (PI / 2 <= 0 -> w = - (PI / 2) / (2 * PI) /\ w <= 1 / 2) /\
    (0 < PI / 2 -> w = 1 - PI / 2 / (2 * PI) /\ 1 / 2 <= w).
Proof.
  apply (proj2 (wcc_in_unit_interval [mkEig 1 (PI / 2)])
           (mkEig 1 (PI / 2))).
  - left. reflexivity.
  - cbn [arg]. pose proof PI_RGT_0. lra.
Defined.

End PhaseRange.

(** ** The invariant counts crossings *)

Lemma sgng_between (z zplus x : Q) :
  0 <= z -> z < 1 -> 0 <= zplus -> zplus < 1 -> 0 <= x -> x < 1 ->
  _sgng z zplus x = if between z zplus x then (-1)%Z else 1%Z.
Proof.
  intros Hz0 Hz1 Hp0 Hp1 Hx0 Hx1.
  destruct (sgng_order z zplus x Hz0 Hz1 Hp0 Hp1 Hx0 Hx1) as [Hiff Hval].
  unfold between.
  destruct (Qltb z x) eqn:E1, (Qltb x zplus) eqn:E2, (Qltb zplus z) eqn:E3;
    cbn [andb orb];
    try apply Qltb_lt in E1; try apply Qltb_ge in E1;
    try apply Qltb_lt in E2; try apply Qltb_ge in E2;
    try apply Qltb_lt in E3; try apply Qltb_ge in E3;
    try (apply Hiff; lra);
    (destruct Hval as [Hm | Hone]; [| exact Hone]);
    apply Hiff in Hm; lra.
Qed.

Lemma fold_signs (sign : Q -> Z) (hit : Q -> bool) (ws : list Q) :
  (forall w, In w ws -> sign w = if hit w then (-1)%Z else 1%Z) ->
  forall acc,
    fold_left Z.mul (map sign ws) acc
    = (acc * (if Nat.even (length (filter hit ws)) then 1 else -1))%Z.
Proof.
  induction ws as [| w ws IH]; intros H acc.
  - cbn. lia.
  - cbn [map fold_left filter]. rewrite IH
      by (intros w' Hw'; apply H; right; exact Hw').
    rewrite (H w) by (left; reflexivity).
    destruct (hit w); cbn [length]; [| lia].
    rewrite Nat.even_succ, <- Nat.negb_even.
    destruct (Nat.even (length (filter hit ws))); cbn [negb]; lia.
Qed.

Lemma sign_product_cons (sign : Q -> Q -> Q -> Z) (g g' : Q)
  (ws ws' : list Q) (rest : list (Q * list Q)) :
  sign_product sign ((g, ws) :: (g', ws') :: rest)
  = (fold_left Z.mul (map (sign g g') ws') 1
     * sign_product sign ((g', ws') :: rest))%Z.
Proof. reflexivity. Qed.

Lemma crossings_cons (g g' : Q) (ws ws' : list Q)
  (rest : list (Q * list Q)) :
  crossings ((g, ws) :: (g', ws') :: rest)
  = (length (filter (between g g') ws')
     + crossings ((g', ws') :: rest))%nat.
Proof. reflexivity. Qed.

Lemma sign_product_crossings (lines : list (Q * list Q)) :
  in_unit_interval lines ->
  sign_product _sgng lines
  = if Nat.even (crossings lines) then 1%Z else (-1)%Z.
Proof.
  induction lines as [| [g0 ws0] lines IH]; intros H; [reflexivity |].
  destruct lines as [| [g1 ws1] rest]; [reflexivity |].
  rewrite sign_product_cons, crossings_cons.
  destruct (H (g0, ws0)) as [[a0 a1] _]; [left; reflexivity |].
  destruct (H (g1, ws1)) as [[b0 b1] Hws]; [right; left; reflexivity |].
  cbn [fst snd] in a0, a1, b0, b1, Hws. rewrite Forall_forall in Hws.
  rewrite (fold_signs (_sgng g0 g1) (between g0 g1))
    by (intros w Hw; destruct (Hws w Hw); apply sgng_between; assumption).
  rewrite IH by (intros l Hl; apply H; right; exact Hl).
  rewrite Nat.even_add.
  destruct (Nat.even (length (filter (between g0 g1) ws1))),
           (Nat.even (crossings ((g1, ws1) :: rest))); reflexivity.
Qed.

(** X23.  On solved lines that all have the same number of WCCs, with all
    gaps and WCCs in [[0, 1)], [invariant] (in exact arithmetic) returns
    the number of crossings modulo 2, where a crossing is a WCC of a line
    that lies between the gap of the previous line and the gap of its own
    line, going upwards around the circle from the former. *)
Theorem invariant_counts_crossings (cfg : Config) (ks : list Q)
  (lines : list (Q * list Q)) :
  (forall l, In l lines -> length (snd l) = width lines) ->
  in_unit_interval lines ->
  invariant (plane_of_lines cfg ks lines)
  = Ok (Z.of_nat (crossings lines) mod 2)%Z.
Proof.
  intros Heq Hunit. rewrite invariant_of_lines.
  - rewrite truncate_lines_all by exact Heq.
    rewrite sign_product_crossings by exact Hunit.
    f_equal. rewrite <- Nat.negb_odd.
    destruct (Nat.odd (crossings lines)) eqn:E; cbn [negb Z.eqb].
    + apply Nat.odd_spec in E. destruct E as [k ->].
      rewrite Nat2Z.inj_add, Nat2Z.inj_mul. cbn [Z.of_nat].
      rewrite Z.add_comm, Z.mul_comm, Z.mod_add by lia. reflexivity.
    + rewrite <- Nat.negb_even in E. apply negb_false_iff in E.
      apply Nat.even_spec in E. destruct E as [k ->].
      rewrite Nat2Z.inj_mul. cbn [Z.of_nat].
      rewrite Z.mul_comm, Z.mod_mul by lia. reflexivity.
  - intros l Hin. rewrite (Heq l); [lia |].
    destruct lines; [destruct Hin | right; exact Hin].
Qed.

Lemma invariant_counts_crossings_witness :
  invariant (plane_of_lines defaults [0; 1 # 4; 1 # 2] flat_then_jump)
  = Ok (Z.of_nat (crossings flat_then_jump) mod 2)%Z.
Proof.
  apply (invariant_counts_crossings defaults [0; 1 # 4; 1 # 2]
           flat_then_jump).
  - intros l Hl. unfold flat_then_jump in Hl. cbn [In] in Hl.
    repeat (destruct Hl as [<- | Hl]; [reflexivity |]). destruct Hl.
  - intros l Hl. unfold flat_then_jump in Hl. cbn [In] in Hl.
    repeat (destruct Hl as [<- | Hl];
            [split; [cbn [fst]; split; lra |];
             repeat (apply Forall_cons; [split; lra |]); apply Forall_nil |]).
    destruct Hl.
Defined.

(** ** The printing wrapper of [_trywcc] *)

Section PrintWrapper.

Variable Mats : Type.
Variable trywcc : Mats -> result (list Q * Q).

(** X24.  The wrapper [_print_wcc] hands the outcome of the kernel through
    unchanged, an exception as well as a result, with one exception: in
    verbose mode a result without WCCs makes it raise [IndexError] (it
    prints the last WCC).  So [verbose] changes what [_trywcc] returns
    only for an empty WCC list. *)
Theorem print_wcc_transparent (cfg : Config) (allM : Mats) :
  (forall e, trywcc allM = Raise e ->
             _trywcc Mats trywcc cfg allM = Raise e) /\
  (forall x sv, trywcc allM = Ok (x, sv) ->
                _trywcc Mats trywcc cfg allM
                = match x with
                  | [] => if verbose cfg then Raise IndexError
                          else Ok (x, sv)
                  | _ :: _ => Ok (x, sv)
                  end).
Proof.
  split.
  - intros e H. unfold _trywcc. rewrite H. reflexivity.
  - intros x sv H. unfold _trywcc. rewrite H. cbn [bind fst].
    destruct (verbose cfg); [| destruct x; reflexivity].
    destruct x as [| a x]; [reflexivity |].
    rewrite (getitem_last _ 0)
      by (rewrite sorted_length; cbn [length]; lia).
    reflexivity.
Qed.

End PrintWrapper.

Lemma print_wcc_transparent_witness :
  _trywcc Z steady_trywcc defaults 8%Z = Ok ([0; 1 # 2], 1).
Proof.
  apply (proj2 (print_wcc_transparent Z steady_trywcc defaults 8%Z)
           [0; 1 # 2] 1).
  reflexivity.
Defined.

(** ** The surface engine on doubles *)

Lemma enum_from_app {A} (l1 l2 : list A) (j : nat) :
  enum_from j (l1 ++ l2) = enum_from j l1 ++ enum_from (j + length l1) l2.
Proof.
  revert j. induction l1 as [| a l1 IH]; intros j.
  - cbn [app length]. rewrite Nat.add_0_r. reflexivity.
  - cbn [app]. rewrite !enum_from_cons, IH. cbn [app length].
    replace (j + S (length l1))%nat with (S j + length l1)%nat by lia.
    reflexivity.
Qed.

Lemma forallb_firstn_nth (l : list bool) (k j : nat) :
  forallb (fun b => b) (firstn k l) = true ->
  (k <= length l)%nat -> (j < k)%nat -> nth j l false = true.
Proof.
  intros H Hk Hj. rewrite forallb_forall in H.
  assert (E : nth j l false = nth j (firstn k l) false).
  { rewrite <- (firstn_skipn k l) at 1.
    rewrite app_nth1 by (rewrite length_firstn; lia). reflexivity. }
  rewrite E. apply H. apply nth_In. rewrite length_firstn. lia.
Qed.

Lemma forallb_skipn_nth (l : list bool) (k j : nat) :
  forallb (fun b => b) (skipn k l) = true ->
  (k <= j < length l)%nat -> nth j l false = true.
Proof.
  intros H Hj. rewrite forallb_forall in H.
  apply H. replace j with (k + (j - k))%nat by lia.
  rewrite <- nth_skipn. apply nth_In. rewrite length_skipn. lia.
Qed.

Module DoubleFacts.
Import F64.

Section Engine.

Variable getwcc : float -> result (list float).
Variable o : Options.

Local Abbreviation dline := (solve_line getwcc).
Local Abbreviation dscan := (check_neighbours_scan o).
Local Abbreviation dbody := (loop_body getwcc o).
Local Abbreviation dloop := (wcc_loop getwcc o).

(** A pass over lines that are solved changes nothing. *)
Lemma pass_solved (l : list float) :
  forall (j : nat) (s : Surface),
    (j + length l <= length (_string_status s))%nat ->
    (forall idx, (j <= idx < j + length l)%nat ->
                 nth idx (_string_status s) false = true) ->
    for_each (enum_from j l) dline s = Ok s.
Proof.
  induction l as [| kx l IH]; intros j s Hlen Hall; [reflexivity |].
  rewrite enum_from_cons. cbn [for_each solve_line]. cbn [length] in Hlen.
  rewrite (getitem_nth _ j false) by lia.
  rewrite Hall by (cbn [length]; lia). cbn [bind].
  apply IH; [lia |]. intros idx Hidx. apply Hall. cbn [length]. lia.
Qed.

(** Treating a line that is not solved. *)
Lemma solve_line_unsolved (u : nat) (kx : float) (w : list float) (g : float)
  (s : Surface) :
  lengths_match s -> (u < length (_k_points s))%nat ->
  nth u (_string_status s) false = false ->
  getwcc kx = Ok w -> _gapfind w = Ok g ->
  dline (u, kx) s = Ok (solved_at u w g s).
Proof.
  intros (H1 & H2 & H3 & H4) Hu Hss Hw Hg. cbn [solve_line].
  rewrite (getitem_nth _ u false) by lia. rewrite Hss. cbn [bind].
  rewrite Hw. cbn [bind]. rewrite setitem_replace by lia. cbn [bind].
  rewrite (getitem_nth _ u [])
    by (rewrite replace_at_length; lia).
  rewrite nth_replace_at by lia. rewrite Nat.eqb_refl. cbn [bind].
  rewrite Hg. cbn [bind]. rewrite !setitem_replace by lia. reflexivity.
Qed.

Lemma solved_at_lengths (u : nat) (w : list float) (g : float) (s : Surface) :
  lengths_match s -> (u < length (_k_points s))%nat ->
  lengths_match (solved_at u w g s).
Proof.
  intros (H1 & H2 & H3 & H4) Hu. unfold lengths_match, solved_at.
  cbn [_k_points _gaps _wcc_list _neighbour_check _string_status].
  rewrite !replace_at_length by lia. repeat split; assumption.
Qed.

(** A pass over a surface on which line [u] is the only one not solved. *)
Lemma pass_one_unsolved (u : nat) (w : list float) (g : float) (s : Surface) :
  lengths_match s -> (u < length (_k_points s))%nat ->
  nth u (_string_status s) false = false ->
  (forall j, j <> u -> (j < length (_k_points s))%nat ->
             nth j (_string_status s) false = true) ->
  getwcc (nth u (_k_points s) 0%float) = Ok w -> _gapfind w = Ok g ->
  solve_pass getwcc s = Ok (solved_at u w g s).
Proof.
  intros Hok Hu Hss Hall Hw Hg. pose proof Hok as (H1 & H2 & H3 & H4).
  unfold solve_pass. rewrite enumerate_enum_from.
  rewrite <- (firstn_skipn u (_k_points s)) at 1.
  assert (Hf : length (firstn u (_k_points s)) = u)
    by (rewrite length_firstn; lia).
  rewrite (skipn_nth_cons _ u 0%float) by lia.
  rewrite enum_from_app, for_each_app, Hf.
  rewrite pass_solved; [| rewrite Hf; lia |
                         intros idx Hidx; rewrite Hf in Hidx;
                         apply Hall; lia].
  cbn [bind Nat.add]. rewrite enum_from_cons. cbn [for_each].
  rewrite (solve_line_unsolved u _ w g s Hok Hu Hss Hw Hg).
  apply pass_solved.
  - cbn [solved_at _string_status]. rewrite replace_at_length by lia.
    rewrite length_skipn. lia.
  - intros idx Hidx. cbn [solved_at _string_status].
    rewrite nth_replace_at by lia.
    destruct (Nat.eqb_spec idx u); [reflexivity |].
    apply Hall; [assumption |]. rewrite length_skipn in Hidx. lia.
Qed.

(** The scan passes over the flags that are set. *)
Lemma scan_skips (k : nat) :
  forall (j : nat) (s : Surface),
    (j + k < length (_neighbour_check s))%nat ->
    (forall idx, (j <= idx < j + k)%nat ->
                 nth idx (_neighbour_check s) false = true) ->
    dscan (enum_from j (skipn j (_neighbour_check s))) s
    = dscan (enum_from (j + k) (skipn (j + k) (_neighbour_check s))) s.
Proof.
  induction k as [| k IH]; intros j s Hlen Hall.
  - rewrite Nat.add_0_r. reflexivity.
  - rewrite (skipn_nth_cons _ j false) by lia.
    rewrite enum_from_cons. cbn [check_neighbours_scan].
    rewrite Hall by lia.
    rewrite (IH (S j)); [| lia | intros idx Hidx; apply Hall; lia].
    replace (S j + k)%nat with (j + S k)%nat by lia. reflexivity.
Qed.

End Engine.

Section Stuck.

Variable getwcc : float -> result (list float).
Variable o : Options.
Variables (i0 : nat) (a b ga gb : float) (wb : list float).

Hypothesis Hsolve : getwcc b = Ok wb.
Hypothesis Hgap : _gapfind wb = Ok gb.
Hypothesis Hcheck :
  _check_single_direction (gap_tol o) wb (Some ga) = Ok false.
Hypothesis Hdist : PrimFloat.ltb (b - a) (min_neighbour_dist o) = false.
Hypothesis Hmid : ((a + b) / 2)%float = b.
Hypothesis Hnn : no_neighbour_check o = false.

(** One turn of the loop on a stuck surface: the new line is solved, the
    pair [(i0, i0+1)] fails the check again and is bisected again, and the
    line inserted is [b] once more. *)
Lemma stuck_turn (s : Surface) :
  stuck i0 a b ga s ->
  exists s',
    loop_body getwcc o s = Ok (s', Continue) /\ stuck i0 a b ga s'.
Proof.
  intros (Hok & Hlen & Hflags & Hflag & Ha & Hb & Hga & Hnew & Hss).
  pose proof Hok as (H1 & H2 & H3 & H4).
  unfold loop_body.
  rewrite (pass_one_unsolved getwcc (i0 + 1) wb gb s Hok Hlen Hnew Hss)
    by (try rewrite Hb; assumption).
  cbn [bind]. rewrite Hnn. cbn [negb].
  remember (solved_at (i0 + 1) wb gb s) as U eqn:EU.
  assert (HokU : lengths_match U)
    by (rewrite EU; apply solved_at_lengths; assumption).
  assert (Uk : _k_points U = _k_points s) by (rewrite EU; reflexivity).
  assert (Un : _neighbour_check U = _neighbour_check s)
    by (rewrite EU; reflexivity).
  assert (Us : _string_status U
               = replace_at (i0 + 1) true (_string_status s))
    by (rewrite EU; reflexivity).
  assert (Uw : _wcc_list U = replace_at (i0 + 1) wb (_wcc_list s))
    by (rewrite EU; reflexivity).
  assert (Ug : _gaps U = replace_at (i0 + 1) (Some gb) (_gaps s))
    by (rewrite EU; reflexivity).
  clear EU.
  destruct HokU as (K1 & K2 & K3 & K4).
  exists (bisected_at i0 b U). split.
  { assert (Ka : nth i0 (_k_points U) 0%float = a)
      by (rewrite Uk; exact Ha).
    assert (Kb : nth (i0 + 1) (_k_points U) 0%float = b)
      by (rewrite Uk; exact Hb).
    assert (Kf : nth i0 (_neighbour_check U) false = false)
      by (rewrite Un; exact Hflag).
    assert (Ks0 : nth i0 (_string_status U) false = true).
    { rewrite Us, nth_replace_at by lia.
      destruct (Nat.eqb_spec i0 (i0 + 1)); [lia |]. apply Hss; lia. }
    assert (Ks1 : nth (i0 + 1) (_string_status U) false = true)
      by (rewrite Us, nth_replace_at by lia; rewrite Nat.eqb_refl;
          reflexivity).
    assert (Kw : nth (i0 + 1) (_wcc_list U) [] = wb)
      by (rewrite Uw, nth_replace_at by lia; rewrite Nat.eqb_refl;
          reflexivity).
    assert (Kg : nth i0 (_gaps U) None = Some ga).
    { rewrite Ug, nth_replace_at by lia.
      destruct (Nat.eqb_spec i0 (i0 + 1)); [lia | exact Hga]. }
    assert (Lk : length (_k_points U) = length (_k_points s))
      by (rewrite Uk; reflexivity).
    unfold _check_neighbours. rewrite enumerate_enum_from.
    change (_neighbour_check U) with (skipn 0 (_neighbour_check U)) at 1.
    rewrite (scan_skips o i0 0 U)
      by (rewrite Un; cbn [Nat.add]; try lia; intros idx Hidx;
          apply Hflags; lia).
    cbn [Nat.add].
    rewrite (skipn_nth_cons _ i0 false) by lia.
    rewrite enum_from_cons. cbn [check_neighbours_scan].
    rewrite Kf.
    rewrite (getitem_nth _ i0 false) by lia. rewrite Ks0. cbn [bind].
    rewrite (getitem_nth _ (i0 + 1) false) by lia. rewrite Ks1.
    cbn [bind andb].
    unfold _check_single_neighbour.
    rewrite (getitem_nth _ (i0 + 1) []) by lia. rewrite Kw. cbn [bind].
    rewrite (getitem_nth _ i0 None) by lia. rewrite Kg. cbn [bind].
    rewrite Hcheck. cbn [bind].
    rewrite (getitem_nth _ (i0 + 1) 0%float) by lia.
    rewrite (getitem_nth _ i0 0%float) by lia.
    cbn [bind]. rewrite Ka, Kb, Hdist.
    unfold bisect.
    rewrite (getitem_nth _ i0 0%float) by lia.
    rewrite (getitem_nth _ (i0 + 1) 0%float) by lia.
    cbn [bind]. rewrite Ka, Kb, Hmid.
    rewrite !insert_length, K2, K3, K4, <- K1.
    replace (S (S (length (_neighbour_check U))) - 1)%nat
      with (S (length (_neighbour_check U))) by lia.
    rewrite !Nat.eqb_refl. cbn [andb bind fst]. reflexivity. }
  unfold stuck, lengths_match, bisected_at.
  cbn [_k_points _gaps _wcc_list _neighbour_check _string_status].
  rewrite !insert_length, K2, K3, K4, <- K1.
  split; [repeat split |]. rewrite Un in *. rewrite Uk, Us, Ug in *.
  split; [lia |].
  split.
  { intros j Hj. rewrite nth_insert_lt by lia. apply Hflags. exact Hj. }
  split; [rewrite nth_insert_lt by lia; exact Hflag |].
  split; [rewrite nth_insert_lt by lia; exact Ha |].
  split; [rewrite nth_insert_eq by lia; reflexivity |].
  split.
  { rewrite nth_insert_lt by (rewrite replace_at_length; lia).
    rewrite nth_replace_at by lia.
    destruct (Nat.eqb_spec i0 (i0 + 1)); [lia | exact Hga]. }
  split; [rewrite nth_insert_eq by (rewrite replace_at_length; lia);
          reflexivity |].
  intros j Hne Hj.
  destruct (Nat.lt_ge_cases j (i0 + 1)) as [Hlt | Hge].
  - rewrite nth_insert_lt by (rewrite replace_at_length; lia).
    rewrite nth_replace_at by lia.
    destruct (Nat.eqb_spec j (i0 + 1)); [reflexivity |].
    apply Hss; lia.
  - rewrite nth_insert_gt by (try rewrite replace_at_length; lia).
    rewrite nth_replace_at by lia.
    destruct (Nat.eqb_spec (j - 1) (i0 + 1)); [reflexivity |].
    apply Hss; lia.
Qed.

(** A stuck surface stays stuck: the loop does not end on it. *)
Lemma stuck_forever (fuel : nat) :
  forall s, stuck i0 a b ga s -> wcc_loop getwcc o fuel s = None.
Proof.
  induction fuel as [| fuel IH]; intros s Hs; [reflexivity |].
  cbn [wcc_loop].
  assert (Hall : all (_neighbour_check s) = false).
  { destruct Hs as ((H1 & _) & Hlen & _ & Hflag & _).
    apply (nth_false_not_all _ i0); [lia | exact Hflag]. }
  rewrite Hall.
  destruct (stuck_turn s Hs) as (s' & -> & Hs').
  apply IH. exact Hs'.
Qed.

End Stuck.

(** Turns that went on do not end the loop. *)
Lemma turns_then (getwcc : float -> result (list float)) (o : Options)
  (k : nat) :
  forall s s',
    turns getwcc o k s = Some s' ->
    (forall fuel, wcc_loop getwcc o fuel s' = None) ->
    forall fuel, wcc_loop getwcc o fuel s = None.
Proof.
  induction k as [| k IH]; intros s s' Hk Hend fuel.
  - cbn in Hk. injection Hk as ->. apply Hend.
  - destruct fuel as [| fuel]; [reflexivity |].
    cbn [turns] in Hk. cbn [wcc_loop].
    destruct (all (_neighbour_check s)); [discriminate Hk |].
    destruct (loop_body getwcc o s) as [[s1 [|]] | e]; try discriminate Hk.
    apply (IH s1 s' Hk Hend).
Qed.


End DoubleFacts.

(** ** The exact model and the doubles side by side *)

(** The remainder [x % 1] of a tiny negative double is 1.0, which the
    exact remainder never is. *)
Lemma remainder_rounds_to_one :
  F64.mod1 (- 0x1p-60)%float = 1%float /\
  Qmod1 (- (1 # 2 ^ 60)) < 1.
Proof. split; vm_compute; reflexivity. Qed.

(** With it [_gapfind] can return 1.0 on doubles, on a list with a
    negative member. *)
Lemma gapfind_rounds_to_one :
  F64._gapfind [- 0x1.0000000000001p-2; 0x1.ffffffffffffep-3]%float
  = Ok 1%float.
Proof. vm_compute. reflexivity. Qed.

(** The neighbour check at the doubles 0.13 (WCC), 0.11 (gap) and 0.02
    ([gap_tol]): the exact distance of these three numbers is not below
    [gap_tol], the rounded one is. *)
Lemma check_direction_rounds_down :
  F64._check_single_direction 0x1.47ae147ae147bp-6%float
    [0x1.0a3d70a3d70a4p-3%float] (Some 0x1.c28f5c28f5c29p-4%float)
  = Ok false /\
  _check_single_direction (5764607523034235 # 2 ^ 58)
    [4683743612465316 # 2 ^ 55] (Some (7926335344172073 # 2 ^ 56))
  = Ok true.
Proof. split; vm_compute; reflexivity. Qed.

